(** * Portfolio analytics core of agentakcje: a shallow embedding

    The quantitative layer of [src/api/ai-commentary.ts] (statistics,
    weight renormalization, frontier bucketing, CSV ingestion, series
    alignment, the random source with the mock series drawn from it, and
    the facts put together for the commentary request) embedded as Rocq
    functions, together with the properties the specification states
    about it and further properties of the code.

    Numbers.  A JavaScript [number] is modelled as a real number: every
    arithmetic operation is the exact one.  [NaN] and the infinities have
    no counterpart, so the places where the source produces or tests them
    ([Number(...)] on text, [Math.min()] of nothing, reading past the end
    of an array) are modelled with [option] or guarded by a hypothesis,
    and are pointed out where they occur.  Rounding is left out, with one
    exception: the seed of the random source is an integer that grows
    with every draw, and its addition is the addition of doubles, exact
    below [2^53] and rounded beyond.

    Text.  A string is the list of its UTF-16 code units.  [trim],
    [split] and [indexOf] are modelled on code units; [toLowerCase],
    [Number] and [localeCompare] are parameters of the CSV parser.

    Arrays.  A dense [number[]] is a [list R].  Where the source writes
    [a[i] = x] with an index that may lie past the end, the array is a
    [jsarray] whose holes are [None], because JavaScript extends the array
    and leaves holes that [map] and [reduce] skip.

    Random draws.  The closure returned by [mulberry32] keeps a seed; a
    call is a function from the seed to the value drawn and the new
    seed.  The functions that draw in loops are computations in [Rng],
    which threads the seed and carries an exception; the loops of
    [randn] that draw until the value is not 0 take a bound on their
    turns, and the theorems show that, while the seed is below [2^53],
    a bound of 2 is enough. *)

From Stdlib Require Import Reals Lra Lia ZArith Ascii.
From stdpp Require Import base list sorting strings gmap.

#[local] Open Scope R_scope.

(** ** Numbers *)

#[global] Instance Rle_decision (x y : R) : Decision (x <= y) := Rle_dec x y.
#[global] Instance Rlt_decision (x y : R) : Decision (x < y) := Rlt_dec x y.
#[global] Instance Rgt_decision (x y : R) : Decision (x > y) := Rgt_dec x y.
#[global] Instance Rge_decision (x y : R) : Decision (x >= y) := Rge_dec x y.
#[global] Instance Req_decision : EqDecision R := Req_dec_T.

(** [clamp(x, min, max) = Math.max(min, Math.min(max, x))] *)
Definition clamp (x min max : R) : R := Rmax min (Rmin max x).

(** [arr.reduce((a, b) => a + b, 0)]: a left fold from 0. *)
Definition reduce_sum (arr : list R) : R := foldl Rplus 0 arr.

(** The mathematical sum of a list, used to state results. *)
Definition Rsum (l : list R) : R := foldr Rplus 0 l.

(** [for (let i = 0; i < n; i++) body]: the loop body threads the state. *)
Definition for_loop {St : Type} (n : nat) (body : nat -> St -> St) (s : St) : St :=
  foldl (fun st i => body i st) s (seq 0 n).

(** ** Arrays with holes *)

Abbreviation jsarray := (list (option R)).

(** [a[i] = x].  In range the slot is overwritten; past the end the array
    grows to length [i + 1] and the slots in between are holes. *)
Definition array_set (a : jsarray) (i : nat) (x : R) : jsarray :=
  if decide (i < length a)%nat then <[i := Some x]> a
  else a ++ replicate (i - length a) None ++ [Some x].

(** [a.reduce((s, b) => s + b, 0)] on an array that may have holes:
    [reduce] does not visit a hole. *)
Definition array_reduce_sum (a : jsarray) : R :=
  foldl (fun acc e => match e with Some b => acc + b | None => acc end) 0 a.

(** [a.map(f)] keeps the holes and does not call [f] on them. *)
Definition array_map (f : R -> R) (a : jsarray) : jsarray :=
  fmap (M := list) (fmap (M := option) f) a.

(** The dense reading of an array: [None] as soon as there is a hole. *)
Definition dense (a : jsarray) : option (list R) :=
  mapM (M := option) (fun e : option R => e) a.

(** ** Weight renormalization *)

Definition normalizeWeightsLongOnly (w : jsarray) : jsarray :=
  let clipped := array_map (fun x => Rmax 0 x) w in
  let s := array_reduce_sum clipped in
  if decide (s <= 0) then array_map (fun _ => 1 / INR (length clipped)) clipped
  else array_map (fun x => x / s) clipped.

(** [prev.reduce((acc, x, i) => (i === idx ? acc : acc + x), 0)] *)
Definition prevOtherSum (prev : list R) (idx : nat) : R :=
  foldl (fun acc ix => if decide (ix.1 = idx) then acc else acc + ix.2) 0
        (imap pair prev).

(** [idx] is a position, as the slider handlers pass it; it may lie past
    the end of [prev], in which case [next[idx] = v] extends the array. *)
Definition updateWeightWithRenormalization
    (prev : list R) (idx : nat) (nextValue : R) : jsarray :=
  let n := length prev in
  let next : jsarray := Some <$> prev in
  let v := clamp nextValue 0 1 in
  let prevOtherSum := prevOtherSum prev idx in
  let remaining := 1 - v in
  let next := array_set next idx v in
  if decide (n = 1%nat) then [Some 1]
  else if decide (prevOtherSum <= 1e-9) then
    let share := remaining / (INR n - 1) in
    let next :=
      for_loop n (fun i next =>
        if decide (i <> idx) then array_set next i share else next) next in
    normalizeWeightsLongOnly next
  else
    let scale := remaining / prevOtherSum in
    let next :=
      for_loop n (fun i next =>
        if decide (i = idx) then next
        else array_set next i (nth i prev 0 * scale)) next in
    normalizeWeightsLongOnly next.

(** The slider handlers call [setWeights(prev => update(prev, i, pct))]
    once per edit; a run of edits threads the weight vector through.  An
    array with a hole is not a weight vector, whence [option]. *)
Fixpoint setWeightsSequence (w : list R) (edits : list (nat * R))
    : option (list R) :=
  match edits with
  | [] => Some w
  | (idx, v) :: rest =>
      match dense (updateWeightWithRenormalization w idx v) with
      | Some w' => setWeightsSequence w' rest
      | None => None
      end
  end.

(** Dense readings, used to state what the functions above return on
    arrays without holes. *)
Definition normalized (d : list R) : list R :=
  let clipped := Rmax 0 <$> d in
  let s := Rsum clipped in
  if decide (s <= 0) then (fun _ => 1 / INR (length clipped)) <$> clipped
  else (fun x => x / s) <$> clipped.

(** The vector with [v] at [idx] and [g i x] at every other position [i]
    holding [x]. *)
Definition edited (g : nat -> R -> R) (idx : nat) (v : R) (prev : list R) : list R :=
  imap (fun i x => if decide (i = idx) then v else g i x) prev.

(** The array handed to [normalizeWeightsLongOnly], for an index in range
    and at least two assets. *)
Definition beforeNormalize (prev : list R) (idx : nat) (nextValue : R) : list R :=
  let v := clamp nextValue 0 1 in
  if decide (prevOtherSum prev idx <= 1e-9)
  then edited (fun _ _ => (1 - v) / (INR (length prev) - 1)) idx v prev
  else edited (fun _ x => x * ((1 - v) / prevOtherSum prev idx)) idx v prev.

(** ** Series alignment *)

(** [Math.min(...lens)]: the least element, and [Infinity] (here [None])
    when there is none. *)
Definition Math_min (lens : list nat) : option nat :=
  match lens with
  | [] => None
  | l :: rest => Some (foldl Nat.min l rest)
  end.

(** [s.slice(start)]: a negative [start] counts from the end, and both
    ends are clamped to the array. *)
Definition slice_from {A : Type} (s : list A) (start : Z) : list A :=
  let len := Z.of_nat (length s) in
  let k := if decide (start < 0)%Z then Z.max (len + start) 0
           else Z.min start len in
  drop (Z.to_nat k) s.

Definition alignSeriesToCommonLength (seriesByAsset : list (list R))
    : list (list R) :=
  let lens := filter (fun l => (l > 0)%nat) (length <$> seriesByAsset) in
  match Math_min lens with
  | None => seriesByAsset
  | Some N =>
      if decide (N < 2)%nat then seriesByAsset
      else (fun s => slice_from s (Z.of_nat (length s) - Z.of_nat N))
             <$> seriesByAsset
  end.

(** In the words of the specification: [N] is the minimum non-zero length
    across the series, and the last [N] entries of a series. *)
Definition min_nonzero_length (seriesByAsset : list (list R)) (N : nat) : Prop :=
  (0 < N)%nat /\
  (exists s, s ∈ seriesByAsset /\ length s = N) /\
  (forall s, s ∈ seriesByAsset -> (0 < length s)%nat -> (N <= length s)%nat).

Definition last_entries {A : Type} (N : nat) (s : list A) : list A :=
  drop (length s - N) s.

(** ** Statistics: mean, covariance, correlation *)

(** [for (let j = lo; j < hi; j++) body] *)
Definition for_range {St : Type} (lo hi : nat) (body : nat -> St -> St) (s : St) : St :=
  foldl (fun st j => body j st) s (seq lo (hi - lo)).

(** [m[i][j]] read from a matrix of numbers.  Every read below is in
    range when the matrix has the dimensions the theorems assume; out of
    range JavaScript yields [undefined], which has no counterpart here. *)
Definition mget (m : list (list R)) (i j : nat) : R := nth j (nth i m []) 0.

(** [m[i][j] = c] for a position inside the matrix. *)
Definition mset (m : list (list R)) (i j : nat) (c : R) : list (list R) :=
  alter (fun row => <[j := c]> row) i m.

(** [Array.from({ length: n }, () => Array(n).fill(0))] *)
Definition zeros (n : nat) : list (list R) := replicate n (replicate n 0).

(** [x || d] on numbers: [d] when [x] is zero. *)
Definition js_or (x d : R) : R := if decide (x = 0) then d else x.

Definition mean (arr : list R) : R :=
  reduce_sum arr / Rmax 1 (INR (length arr)).

Definition covarianceMatrix (seriesByAsset : list (list R)) : list (list R) :=
  let n := length seriesByAsset in
  let T := match seriesByAsset with [] => 0%nat | s :: _ => length s end in
  let mus := mean <$> seriesByAsset in
  let cov := zeros n in
  if decide (T < 2)%nat then cov
  else
    for_loop n (fun i cov =>
      for_range i n (fun j cov =>
        let acc :=
          for_loop T (fun t acc =>
            acc + (mget seriesByAsset i t - nth i mus 0)
                  * (mget seriesByAsset j t - nth j mus 0)) 0 in
        let c := acc / (INR T - 1) in
        let cov := mset cov i j c in
        mset cov j i c) cov) cov.

Definition diagFromCov (cov : list (list R)) : list R :=
  imap (fun i row => sqrt (Rmax 0 (nth i row 0))) cov.

Definition correlationFromCov (cov : list (list R)) : list (list R) :=
  let n := length cov in
  let sd := diagFromCov cov in
  let corr := zeros n in
  for_loop n (fun i corr =>
    for_loop n (fun j corr =>
      let denom := js_or (nth i sd 0) 0 * js_or (nth j sd 0) 0 in
      mset corr i j (if decide (denom > 0) then mget cov i j / denom else 0))
    corr) corr.

(** In the words of the specification: the unbiased sample covariance of
    two series observed over the same periods, and what it means for a
    matrix to be [n] by [n]. *)
Definition arithmetic_mean (x : list R) : R := Rsum x / INR (length x).

Definition sample_covariance (x y : list R) : R :=
  Rsum (zip_with (fun a b => (a - arithmetic_mean x) * (b - arithmetic_mean y)) x y)
  / (INR (length x) - 1).

Definition square (n : nat) (m : list (list R)) : Prop :=
  length m = n /\ Forall (fun row => length row = n) m.

(** The value [c] that [covarianceMatrix] writes at [(i, j)] and [(j, i)]. *)
Definition cov_entry (seriesByAsset : list (list R)) (T i j : nat) : R :=
  for_loop T (fun t acc =>
    acc + (mget seriesByAsset i t - nth i (mean <$> seriesByAsset) 0)
          * (mget seriesByAsset j t - nth j (mean <$> seriesByAsset) 0)) 0
  / (INR T - 1).

(** [dot] and [matVec] of the source, which define the quadratic form
    [w . (cov w)] of a matrix. *)
Definition dot (a b : list R) : R :=
  for_loop (length a) (fun i s => s + nth i a 0 * nth i b 0) 0.

Definition matVec (m : list (list R)) (v : list R) : list R :=
  (fun row =>
     foldl (fun acc jx => acc + jx.2 * nth jx.1 v 0) 0 (imap pair row)) <$> m.

(** A covariance matrix of [n] assets: [n] by [n], symmetric and positive
    semidefinite. *)
Definition covariance_matrix (n : nat) (cov : list (list R)) : Prop :=
  square n cov /\
  (forall i j, (i < n)%nat -> (j < n)%nat -> mget cov i j = mget cov j i) /\
  (forall v, length v = n -> 0 <= dot v (matVec cov v)).

(** The entry that [correlationFromCov] writes at [(i, j)]. *)
Definition corr_entry (cov : list (list R)) (i j : nat) : R :=
  let sd := diagFromCov cov in
  let denom := js_or (nth i sd 0) 0 * js_or (nth j sd 0) 0 in
  if decide (denom > 0) then mget cov i j / denom else 0.

(** The finite sum [f 0 + ... + f (n - 1)], used to state what the
    accumulating loops compute. *)
Definition sum_upto (n : nat) (f : nat -> R) : R := Rsum (f <$> seq 0 n).

(** The vector of length [n] with [a] at [i] plus [b] at [j]. *)
Definition two_point (n i j : nat) (a b : R) : list R :=
  (fun k => a * (if decide (k = i) then 1 else 0)
            + b * (if decide (k = j) then 1 else 0)) <$> seq 0 n.

(** ** Deterministic random source *)

(** [ToUint32] and [ToInt32] of an integer-valued number. *)
Definition toUint32 (x : Z) : Z := (x mod 4294967296)%Z.

Definition toInt32 (x : Z) : Z :=
  let u := toUint32 x in
  if decide (u < 2147483648)%Z then u else (u - 4294967296)%Z.

(** [a ^ b], [a | b], [a >>> k] and [Math.imul(a, b)]. *)
Definition xor32 (a b : Z) : Z := Z.lxor (toInt32 a) (toInt32 b).
Definition or32 (a b : Z) : Z := Z.lor (toInt32 a) (toInt32 b).
Definition ushr32 (a k : Z) : Z := Z.shiftr (toUint32 a) k.
Definition imul (a b : Z) : Z := toInt32 (toInt32 a * toInt32 b).

(** The double nearest to an integer, ties to even.  An integer below
    [2^53] in size is a double; a larger one keeps its 53 leading bits
    ([unit] is the spacing of the doubles at its size). *)
Definition roundToDouble (x : Z) : Z :=
  let a := Z.abs x in
  if decide (a < 2 ^ 53)%Z then x
  else
    let unit := (2 ^ (Z.log2 a - 52))%Z in
    let q := (a / unit)%Z in
    let r := (a mod unit)%Z in
    let q := if decide (2 * r < unit)%Z then q
             else if decide (unit < 2 * r)%Z then (q + 1)%Z
             else if Z.even q then q else (q + 1)%Z in
    (Z.sgn x * (q * unit))%Z.

(** One call of the closure returned by [mulberry32(seed)]: the value
    drawn and the new content of the captured [seed].  The seed is an
    integer-valued number; [seed += 0x6d2b79f5] is an addition of
    doubles, which is exact while the sum is below [2^53] in size and
    rounded beyond, and it does not wrap. *)
Definition mulberry32 (seed : Z) : R * Z :=
  let seed := roundToDouble (seed + 0x6d2b79f5) in
  let t := seed in
  let t := imul (xor32 t (ushr32 t 15)) (or32 t 1) in
  let t := xor32 t (t + imul (xor32 t (ushr32 t 7)) (or32 t 61)) in
  (IZR (toUint32 (xor32 t (ushr32 t 14))) / 4294967296, seed).

(** The next [k] draws from [seed] add without rounding: the seed stays
    below [2^53] in size. *)
Definition exact_draws (seed : Z) (k : nat) : Prop :=
  (- 9007199254740992 < seed)%Z /\
  (seed + Z.of_nat k * 1831565813 < 9007199254740992)%Z.

(** ** Portfolio metrics *)

Definition RF_ANNUAL : R := 0.035.

Definition portfolioReturnAnnual (weights muMonthly : list R) : R :=
  dot weights muMonthly * 12.

Definition portfolioVolAnnual (weights : list R) (covMonthly : list (list R)) : R :=
  let covAnnual : list (list R) :=
    (fun row : list R => (fun x => x * 12) <$> row) <$> covMonthly in
  let wCov := matVec covAnnual weights in
  let v := dot weights wCov in
  sqrt (Rmax 0 v).

Definition sharpe (returnAnnual volAnnual : R) : R :=
  if decide (volAnnual > 0) then (returnAnnual - RF_ANNUAL) / volAnnual else 0.

(** ** Efficient frontier *)

(** [Array.from({ length: n }, () => -Math.log(Math.max(1e-9, rng())))],
    threading the seed of [rng] through the [n] draws. *)
Fixpoint exponentialDraws (n : nat) (seed : Z) : list R * Z :=
  match n with
  | O => ([], seed)
  | S n' =>
      let (u, seed) := mulberry32 seed in
      let (rest, seed) := exponentialDraws n' seed in
      (- ln (Rmax 1e-9 u) :: rest, seed)
  end.

Definition randomWeightsLongOnly (n : nat) (seed : Z) : list R * Z :=
  let (a, seed) := exponentialDraws n seed in
  let s := reduce_sum a in
  ((fun x => x / js_or s 1) <$> a, seed).

Record point : Type := Point {
  risk : R;
  ret : R;
  point_sharpe : R;
  point_w : list R
}.

(** The sampling loop: [points] pushes onto [cloud]. *)
Fixpoint sampleCloud (nAssets : nat) (muMonthly : list R)
    (covMonthly : list (list R)) (points : nat) (seed : Z) : list point :=
  match points with
  | O => []
  | S points' =>
      let (w, seed) := randomWeightsLongOnly nAssets seed in
      let ret := portfolioReturnAnnual w muMonthly in
      let risk := portfolioVolAnnual w covMonthly in
      let s := sharpe ret risk in
      Point risk ret s w
        :: sampleCloud nAssets muMonthly covMonthly points' seed
  end.

(** [[...cloud].sort((a, b) => a.risk - b.risk)]: the sort of the
    language is stable, so the result is the one of a stable insertion
    sort on [risk]. *)
Fixpoint insert_by_risk (p : point) (l : list point) : list point :=
  match l with
  | [] => [p]
  | q :: l' =>
      if decide (risk p <= risk q) then p :: q :: l'
      else q :: insert_by_risk p l'
  end.

Definition sort_by_risk (cloud : list point) : list point :=
  foldr insert_by_risk [] cloud.

Definition bucketCount : nat := 40.

(** [sorted[0]?.risk ?? 0] and [sorted[sorted.length - 1]?.risk ?? 1] *)
Definition minR (sorted : list point) : R :=
  match head sorted with Some p => risk p | None => 0 end.

Definition maxR (sorted : list point) : R :=
  match last sorted with Some p => risk p | None => 1 end.

(** [(maxR - minR) / bucketCount || 1] *)
Definition step (sorted : list point) : R :=
  js_or ((maxR sorted - minR sorted) / INR bucketCount) 1.

(** [sorted.filter((p) => p.risk >= lo && p.risk < hi)] for bucket [b].
    The bounds are the exact sums [minR + b * step] and [lo + step]; in
    doubles the sums are rounded, which can move a bound by a last bit
    and, when [step] is below the spacing of the doubles at [lo], makes
    the bucket empty. *)
Definition inBucket (sorted : list point) (b : nat) : list point :=
  let lo := minR sorted + INR b * step sorted in
  let hi := lo + step sorted in
  filter (fun p => risk p >= lo /\ risk p < hi) sorted.

(** [ps.reduce((best, cur) => (cur.ret > best.ret ? cur : best), ps[0])] *)
Definition bestReturn (first : point) (ps : list point) : point :=
  foldl (fun best cur => if decide (ret cur > ret best) then cur else best)
        first ps.

(** One turn of the bucket loop, for bucket [b]: an empty bucket is
    skipped, otherwise the pair [(risk, ret)] of its best point is pushed
    onto [frontier]. *)
Definition bucketTurn (sorted : list point) (b : nat) (frontier : list (R * R))
    : list (R * R) :=
  match inBucket sorted b with
  | [] => frontier
  | (first :: _) as ps =>
      let best := bestReturn first ps in
      frontier ++ [(risk best, ret best)]
  end.

Definition frontierOfSorted (sorted : list point) : list (R * R) :=
  for_loop bucketCount (bucketTurn sorted) [].

(** The frontier of a cloud: the bucket loop run on the sorted cloud. *)
Abbreviation frontierOfCloud cloud := (frontierOfSorted (sort_by_risk cloud)).

(** [cloud.reduce((best, cur) => ..., cloud[0])]; [undefined] (here
    [None]) on an empty cloud. *)
Definition bestSharpeOf (cloud : list point) : option point :=
  match cloud with
  | [] => None
  | first :: _ =>
      Some (foldl (fun best cur =>
              if decide (point_sharpe cur > point_sharpe best) then cur else best)
            first cloud)
  end.

Record frontierResult : Type := FrontierResult {
  cloud : list point;
  frontier : list (R * R);
  bestSharpe : option point
}.

Definition generateEfficientFrontier (nAssets : nat) (muMonthly : list R)
    (covMonthly : list (list R)) (points : nat) (seed : Z) : frontierResult :=
  let cloud := sampleCloud nAssets muMonthly covMonthly points seed in
  FrontierResult cloud (frontierOfCloud cloud) (bestSharpeOf cloud).

(** The least and the greatest risk in a cloud. *)
Definition min_risk (cloud : list point) (m : R) : Prop :=
  (exists p, p ∈ cloud /\ risk p = m) /\ forall p, p ∈ cloud -> m <= risk p.

Definition max_risk (cloud : list point) (M : R) : Prop :=
  (exists p, p ∈ cloud /\ risk p = M) /\ forall p, p ∈ cloud -> risk p <= M.

(** ** CSV ingestion *)

(** A JavaScript string is a sequence of UTF-16 code units, here a list
    of numbers; [units] gives the code units of an ASCII literal. *)
Abbreviation jsstring := (list N).

Definition units (s : string) : jsstring :=
  Ascii.N_of_ascii <$> String.list_ascii_of_string s.

(** The code units that [trim] removes, the white space and the line
    terminators of the language: U+0009 to U+000D, U+0020, U+00A0,
    U+1680, U+2000 to U+200A, U+2028, U+2029, U+202F, U+205F, U+3000 and
    U+FEFF. *)
Definition is_space (c : N) : bool :=
  bool_decide (c ∈ [9; 10; 11; 12; 13; 32; 160; 5760; 8232; 8233; 8239;
                    8287; 12288; 65279]%N)
  || bool_decide (8192 <= c <= 8202)%N.

Fixpoint drop_leading_space (cs : jsstring) : jsstring :=
  match cs with
  | [] => []
  | c :: rest => if is_space c then drop_leading_space rest else cs
  end.

Definition trim (s : jsstring) : jsstring :=
  reverse (drop_leading_space (reverse (drop_leading_space s))).

(** Put [c] in front of the first piece of a split. *)
Definition extend_first (c : N) (pieces : list jsstring) : list jsstring :=
  match pieces with
  | [] => [[c]]
  | piece :: rest => (c :: piece) :: rest
  end.

(** [s.split(",")] *)
Fixpoint split_comma (s : jsstring) : list jsstring :=
  match s with
  | [] => [[]]
  | c :: rest =>
      if decide (c = 44%N) then [] :: split_comma rest
      else extend_first c (split_comma rest)
  end.

(** [text.split(/\r?\n/)]: a line feed ends a piece, and so does a
    carriage return directly followed by a line feed. *)
Fixpoint split_lines (text : jsstring) : list jsstring :=
  match text with
  | [] => [[]]
  | c :: rest =>
      if decide (c = 10%N) then [] :: split_lines rest
      else
        match rest with
        | c' :: rest' =>
            if decide (c = 13%N /\ c' = 10%N)
            then [] :: split_lines rest'
            else extend_first c (split_lines rest)
        | [] => [[c]]
        end
  end.

(** [text.split(/\r?\n/).map((l) => l.trim()).filter(Boolean)] *)
Definition nonblank_lines (text : jsstring) : list jsstring :=
  filter (fun l => l <> []) (trim <$> split_lines text).

(** [header.indexOf(name)], with [None] for [-1]. *)
Fixpoint indexOf (header : list jsstring) (name : jsstring) : option nat :=
  match header with
  | [] => None
  | h :: rest =>
      if decide (h = name) then Some 0%nat
      else S <$> indexOf rest name
  end.

Inductive csv_error : Type :=
  | CsvTooShort
  | CsvMissingColumns
  | CsvTooFewRecords
  | CsvTooFewReturns.

Record csv_row : Type := CsvRow { date : jsstring; close : R }.

Section csv.
(** [s.toLowerCase()]; [Number(text)] followed by [Number.isFinite]:
    the number read from a cell, and [None] when it is [NaN] or
    infinite; and [localeCompare], the sign of the comparison of two
    dates.  The three belong to the language, its Unicode tables and its
    locale data, and are left open here. *)
Variable toLowerCase : jsstring -> jsstring.
Variable Number : jsstring -> option R.
Variable localeCompare : jsstring -> jsstring -> Z.

(** The body of the loop over the data lines: the row a line
    contributes, if any. *)
Definition row_of_line (dateIdx closeIdx : nat) (line : jsstring) : option csv_row :=
  let cols := trim <$> split_comma line in
  match cols !! dateIdx with
  | None => None
  | Some date =>
      if decide (date = []) then None
      else
        match cols !! closeIdx with
        | None => None
        | Some cell =>
            match Number cell with
            | None => None
            | Some close => Some (CsvRow date close)
            end
        end
  end.

Definition rows_of_lines (dateIdx closeIdx : nat) (lines : list jsstring)
    : list csv_row :=
  omap (row_of_line dateIdx closeIdx) lines.

(** [rows.sort((a, b) => a.date.localeCompare(b.date))], a stable sort. *)
Fixpoint insert_by_date (r : csv_row) (rows : list csv_row) : list csv_row :=
  match rows with
  | [] => [r]
  | q :: rest =>
      if decide (localeCompare (date r) (date q) <= 0)%Z then r :: q :: rest
      else q :: insert_by_date r rest
  end.

Definition sort_by_date (rows : list csv_row) : list csv_row :=
  foldr insert_by_date [] rows.

(** The loop [for (let i = 1; i < rows.length; i++)] over consecutive
    rows. *)
Fixpoint returns_of_rows (rows : list csv_row) : list R :=
  match rows with
  | prev :: ((cur :: _) as rest) =>
      if decide (close prev <= 0) then returns_of_rows rest
      else (close cur / close prev - 1) :: returns_of_rows rest
  | _ => []
  end.

(** The header cells as the parser reads them. *)
Definition header_cells (text : jsstring) : list jsstring :=
  (fun s => toLowerCase (trim s))
    <$> split_comma (default [] (head (nonblank_lines text))).

(** [throw new Error(...)] is [inl], the returned series is [inr]. *)
Definition parseCsvOhlcvCloseReturns (text : jsstring) : csv_error + list R :=
  let lines := nonblank_lines text in
  if decide (length lines < 3)%nat then inl CsvTooShort
  else
    let header := (fun s => toLowerCase (trim s))
                    <$> split_comma (default [] (head lines)) in
    match indexOf header (units "date"), indexOf header (units "close") with
    | Some dateIdx, Some closeIdx =>
        let rows := rows_of_lines dateIdx closeIdx (tail lines) in
        if decide (length rows < 2)%nat then inl CsvTooFewRecords
        else
          let rows := sort_by_date rows in
          let rets := returns_of_rows rows in
          if decide (length rets < 2)%nat then inl CsvTooFewReturns
          else inr rets
    | _, _ => inl CsvMissingColumns
    end.
End csv.

(** For the examples: lower-casing of the ASCII letters, a reader of
    cells that accepts unsigned decimal integers, a line feed, and the
    comparison of dates by code units. *)
Definition toLowerCase_ascii (s : jsstring) : jsstring :=
  (fun c => if decide (65 <= c <= 90)%N then (c + 32)%N else c) <$> s.

Fixpoint digits_value (acc : Z) (s : jsstring) : option Z :=
  match s with
  | [] => Some acc
  | c :: rest =>
      if decide (48 <= c <= 57)%N
      then digits_value (acc * 10 + Z.of_N (c - 48))%Z rest
      else None
  end.

Definition decimal_cell (s : jsstring) : option R :=
  match s with
  | [] => Some 0
  | _ => IZR <$> digits_value 0 s
  end.

Definition LF : jsstring := [10%N].

Fixpoint compare_units (a b : jsstring) : comparison :=
  match a, b with
  | [], [] => Eq
  | [], _ :: _ => Lt
  | _ :: _, [] => Gt
  | x :: a, y :: b =>
      match (x ?= y)%N with
      | Eq => compare_units a b
      | o => o
      end
  end.

Definition compare_codes (a b : jsstring) : Z :=
  match compare_units a b with
  | Lt => (-1)%Z
  | Eq => 0%Z
  | Gt => 1%Z
  end.

(** The entries of an array that are not holes, in order. *)
Definition defined_entries (a : jsarray) : list R := omap (fun e : option R => e) a.

(** ** Resizing the weight vector *)

(** [Array.from({ length: n }, (_, i) => w[i] ?? 1 / n)] *)
Definition fillWeights (n : nat) (w : list R) : list R :=
  (fun i => default (1 / INR n) (w !! i)) <$> seq 0 n.

(** The two updaters that the effects on [assets.length] pass to
    [setWeights], in the order of the effects; [n] is [assets.length].
    The first keeps a vector of the right length, the second normalizes
    it. *)
Definition keepOrFillWeights (n : nat) (w : list R) : list R :=
  if decide (length w = n) then w else fillWeights n w.

Definition normalizeOrFillWeights (n : nat) (w : list R) : jsarray :=
  if decide (length w = n) then normalizeWeightsLongOnly (Some <$> w)
  else Some <$> fillWeights n w.

(** ** Compounding of returns *)

(** The growth factor of a run of simple returns:
    [(1 + r1) * ... * (1 + rk)]. *)
Definition compound (rets : list R) : R :=
  foldr (fun r acc => (1 + r) * acc) 1 rets.

(** ** Normal draws and the mock series *)

(** What a call that draws from [rng] comes to: a value, an exception,
    or, in this model only, a loop that was cut off. *)
Inductive outcome (A : Type) : Type :=
  | Returned (a : A)
  | Thrown
  | OutOfFuel.
Arguments Returned {A} a.
Arguments Thrown {A}.
Arguments OutOfFuel {A}.

(** A computation that calls the closure [rng]: it reads the seed the
    closure has captured and leaves the new one. *)
Definition Rng (A : Type) : Type := Z -> outcome (A * Z).

#[global] Instance Rng_ret : MRet Rng := fun A a seed => Returned (a, seed).

#[global] Instance Rng_bind : MBind Rng := fun A B k m seed =>
  match m seed with
  | Returned (a, seed) => k a seed
  | Thrown => Thrown
  | OutOfFuel => OutOfFuel
  end.

(** [rng()] *)
Definition draw : Rng R := fun seed => Returned (mulberry32 seed).

Definition throw {A : Type} : Rng A := fun _ => Thrown.

(** [for (let t = 0; t < n; t++) body] around calls of [rng]. *)
Definition for_loopM {St : Type} (n : nat) (body : nat -> St -> Rng St) (s : St)
    : Rng St :=
  foldl (fun m t => s ← m; body t s) (mret s) (seq 0 n).

(** [l.map(f)] where [f] calls [rng]. *)
Fixpoint map_rng {A B : Type} (f : A -> Rng B) (l : list A) : Rng (list B) :=
  match l with
  | [] => mret []
  | a :: l => b ← f a; bs ← map_rng f l; mret (b :: bs)
  end.

(** [let u = 0; while (u === 0) u = rng();] with at most [fuel] turns
    of the loop. *)
Fixpoint draw_nonzero (fuel : nat) : Rng R :=
  match fuel with
  | O => fun _ => OutOfFuel
  | S fuel => u ← draw; if decide (u = 0) then draw_nonzero fuel else mret u
  end.

Definition randn (fuel : nat) : Rng R :=
  u ← draw_nonzero fuel;
  v ← draw_nonzero fuel;
  mret (sqrt (-2 * ln u) * cos (2 * PI * v)).

Record Asset : Type := { asset_id : string; asset_name : string; ticker : string }.

Record Factors : Type := {
  fMarket : list R;
  fTech : list R;
  fCrypto : list R;
  fComm : list R
}.

Record Params : Type := { drift : R; vol : R; load : R * R * R * R }.

(** The names every object inherits from [Object.prototype]. *)
Definition object_prototype_names : list string :=
  ["constructor"; "hasOwnProperty"; "isPrototypeOf"; "propertyIsEnumerable";
   "toLocaleString"; "toString"; "valueOf"; "__proto__";
   "__defineGetter__"; "__defineSetter__"; "__lookupGetter__";
   "__lookupSetter__"].

(** [params[id] ?? { drift: 0.006, ... }].  Under an inherited name the
    lookup finds a function or the prototype, which is not nullish and
    has no [load]; that is [None] here. *)
Definition params (id : string) : option Params :=
  if decide (id = "aapl")
  then Some {| drift := 0.0105; vol := 0.055; load := (0.7, 0.75, 0.05, -0.05) |}
  else if decide (id = "tsla")
  then Some {| drift := 0.013; vol := 0.095; load := (0.65, 0.95, 0.1, -0.05) |}
  else if decide (id = "gld")
  then Some {| drift := 0.0035; vol := 0.035; load := (0.1, -0.1, 0, 0.85) |}
  else if decide (id = "btc")
  then Some {| drift := 0.0175; vol := 0.145; load := (0.45, 0.2, 1, -0.05) |}
  else if decide (id ∈ object_prototype_names) then None
  else Some {| drift := 0.006; vol := 0.06; load := (0.5, 0.2, 0.2, 0.2) |}.

(** One turn of the loop that fills the four factor arrays. *)
Definition factorTurn (fuel : nat) (f : Factors) : Rng Factors :=
  u ← draw;
  let shock := if decide (u < 0.07) then 2.2 else 1 in
  zMarket ← randn fuel;
  zTech ← randn fuel;
  zCrypto ← randn fuel;
  zComm ← randn fuel;
  mret {| fMarket := fMarket f ++ [zMarket * 0.03 * shock];
          fTech := fTech f ++ [zTech * 0.05 * shock];
          fCrypto := fCrypto f ++ [zCrypto * 0.09 * shock];
          fComm := fComm f ++ [zComm * 0.025 * shock] |}.

Definition generateFactors (fuel months : nat) : Rng Factors :=
  for_loopM months (fun _ f => factorTurn fuel f)
    {| fMarket := []; fTech := []; fCrypto := []; fComm := [] |}.

(** One turn of the loop that fills the series [out] of an asset.
    Destructuring [p.load] throws when [p] has no [load].  The factor
    arrays hold [months] entries, so the reads at [t] are in range. *)
Definition assetTurn (fuel : nat) (p : option Params) (f : Factors)
    (t : nat) (out : list R) : Rng (list R) :=
  match p with
  | None => throw
  | Some p =>
      let '(lm, lt, lc, lco) := load p in
      let factorMix :=
        lm * nth t (fMarket f) 0 + lt * nth t (fTech f) 0
        + lc * nth t (fCrypto f) 0 + lco * nth t (fComm f) 0 in
      z ← randn fuel;
      let eps := z * vol p in
      let r := clamp (drift p + factorMix + eps) (-0.35) 0.45 in
      mret (out ++ [r])
  end.

Definition assetSeries (fuel months : nat) (f : Factors) (a : Asset)
    : Rng (list R) :=
  let p := params (asset_id a) in
  for_loopM months (assetTurn fuel p f) [].

Record mockSeries : Type := MockSeries {
  mock_months : nat;
  mock_seriesByAsset : list (list R)
}.

(** [generateMockSeries(assets, months, seed)]; [fuel] bounds the turns
    of each of the loops of [randn]. *)
Definition generateMockSeries (fuel : nat) (assets : list Asset) (months : nat)
    (seed : Z) : outcome mockSeries :=
  match (f ← generateFactors fuel months;
         map_rng (assetSeries fuel months f) assets) seed with
  | Returned (series, _) => Returned (MockSeries months series)
  | Thrown => Thrown
  | OutOfFuel => OutOfFuel
  end.

(** The draw on which the loop [while (u === 0) u = rng()] ends when one
    of its first two draws is not 0, with the seed it leaves; and what
    [randn] returns when both of its loops end that way. *)
Definition first_nonzero (seed : Z) : R * Z :=
  if decide ((mulberry32 seed).1 = 0) then mulberry32 (mulberry32 seed).2
  else mulberry32 seed.

Definition randn_closed (seed : Z) : R * Z :=
  let (u, seed) := first_nonzero seed in
  let (v, seed) := first_nonzero seed in
  (sqrt (-2 * ln u) * cos (2 * PI * v), seed).

(** From every seed from which [k] draws (and [j] more) are exact, the
    computations [m] and [m'] return the same value, which has the
    property [P], after at most [k] draws. *)
Definition returns {A : Type} (k : nat) (m m' : Rng A) (P : A -> Prop) : Prop :=
  forall seed j, exact_draws seed (k + j) ->
    exists a seed', m seed = Returned (a, seed') /\
      m' seed = Returned (a, seed') /\ P a /\ exact_draws seed' j.

(** ** The facts sent for commentary *)

(** [Math.max(...xs)]: the greatest element, and [-Infinity] (here
    [None]) when there is none. *)
Definition Math_max (xs : list R) : option R :=
  match xs with
  | [] => None
  | x :: rest => Some (foldl Rmax x rest)
  end.

(** [xs.indexOf(x)] on numbers, with [None] for [-1]. *)
Fixpoint indexOfNumber (xs : list R) (x : R) : option nat :=
  match xs with
  | [] => None
  | y :: rest =>
      if decide (y = x) then Some 0%nat
      else S <$> indexOfNumber rest x
  end.

(** The [concentration] part of the payload, for a weight vector without
    holes; [None] is [undefined] for the asset and [-Infinity] for the
    weight. *)
Record concentration : Type := {
  topAsset : option string;
  topWeight : option R
}.

Definition concentrationOf (assets : list Asset) (weights : list R)
    : concentration :=
  let topWeight := Math_max weights in
  let topIdx := top ← topWeight; indexOfNumber weights top in
  {| topAsset := idx ← topIdx; ticker <$> assets !! idx;
     topWeight := topWeight |}.

Record corrPair : Type := { pair_a : string; pair_b : string; pair_corr : R }.

(** [row.slice(i + 1).map((v, j) => ({ a: assets[i].ticker,
    b: assets[i + j + 1].ticker, corr: v }))]; reading [ticker] of an
    asset that does not exist throws, which is [None]. *)
Definition pairsOfRow (assets : list Asset) (i : nat) (row : list R)
    : option (list corrPair) :=
  mapM (fun jv : nat * R =>
          a ← assets !! i;
          b ← assets !! (i + jv.1 + 1)%nat;
          Some {| pair_a := ticker a; pair_b := ticker b; pair_corr := jv.2 |})
       (imap pair (drop (i + 1) row)).

(** [corr.flatMap((row, i) => ...)] *)
Definition allPairs (assets : list Asset) (corr : list (list R))
    : option (list corrPair) :=
  mjoin <$> mapM (fun ir : nat * list R => pairsOfRow assets ir.1 ir.2)
                 (imap pair corr).

(** [.sort((a, b) => b.corr - a.corr)], a stable sort. *)
Fixpoint insert_by_corr (p : corrPair) (l : list corrPair) : list corrPair :=
  match l with
  | [] => [p]
  | q :: rest =>
      if decide (pair_corr q - pair_corr p <= 0) then p :: q :: rest
      else q :: insert_by_corr p rest
  end.

Definition sort_by_corr (l : list corrPair) : list corrPair :=
  foldr insert_by_corr [] l.

(** The [correlation] part of the payload. *)
Definition topCorrelations (assets : list Asset) (corr : list (list R))
    : option (list corrPair) :=
  (fun pairs => take 3 (sort_by_corr pairs)) <$> allPairs assets corr.

(** The entry of the payload for the assets [i] and [j], and the entries
    for all [i < j < n], row by row. *)
Definition pair_of (assets : list Asset) (corr : list (list R)) (i j : nat)
    : corrPair :=
  {| pair_a := default EmptyString (ticker <$> assets !! i);
     pair_b := default EmptyString (ticker <$> assets !! j);
     pair_corr := mget corr i j |}.

Definition upper_pairs (assets : list Asset) (corr : list (list R)) (n : nat)
    : list corrPair :=
  mjoin ((fun i => pair_of assets corr i <$> seq (i + 1) (n - (i + 1)))
           <$> seq 0 n).

(** ** Cumulative returns for the chart *)

(** A row of the chart data is an object; its properties, all numbers,
    by key.  [row[key] = v] adds the property or overwrites it; under
    the key [__proto__] the assignment reaches the setter of
    [Object.prototype], which ignores a number, so no property is
    added. *)
Abbreviation chartRow := (gmap string R).

Definition row_set (row : chartRow) (key : string) (v : R) : chartRow :=
  if decide (key = "__proto__") then row else <[key := v]> row.

(** The assignments [row[key] = v] for the pairs of [writes], in order. *)
Definition row_writes (row : chartRow) (writes : list (string * R)) : chartRow :=
  foldl (fun row kv => row_set row kv.1 kv.2) row writes.

(** One turn of the loop over [t]: every [cum[i]] is multiplied by
    [1 + r], where [r] is [seriesByAsset[i]?.[t] ?? 0]; then the row
    [{ t: t + 1 }] gets [row[assets[i].ticker] = cum[i] - 1] for each
    asset in turn, and is pushed. *)
Definition chartTurn (assets : list Asset) (seriesByAsset : list (list R))
    (t : nat) (st : list R * list chartRow) : list R * list chartRow :=
  let (cum, rows) := st in
  let cum :=
    for_loop (length assets) (fun i cum =>
      let r := default 0 (s ← seriesByAsset !! i; s !! t) in
      <[i := nth i cum 0 * (1 + r)]> cum) cum in
  let row :=
    row_writes {[ "t" := INR (t + 1) ]}
      (imap (fun i a => (ticker a, nth i cum 0 - 1)) assets) in
  (cum, rows ++ [row]).

Definition buildCumulativeChartData (assets : list Asset)
    (seriesByAsset : list (list R)) : list chartRow :=
  let lens := filter (fun x => (x > 0)%nat) (length <$> seriesByAsset) in
  let T := match lens with
           | [] => 0%nat
           | _ => default 0%nat (Math_min lens)
           end in
  let cum := (fun _ => 1) <$> assets in
  let rows := (for_loop T (chartTurn assets seriesByAsset) (cum, [])).2 in
  slice_from rows (Z.max 0 (Z.of_nat (length rows) - 60)).

(** The row for month [t] in closed form: the value written for each
    asset is the growth factor of its first [t] returns, less 1. *)
Definition cumulative_row (assets : list Asset) (seriesByAsset : list (list R))
    (t : nat) : chartRow :=
  row_writes {[ "t" := INR t ]}
    (imap (fun i a => (ticker a, compound (take t (nth i seriesByAsset [])) - 1))
          assets).

(** * Properties *)

(** ** Sums and loops *)

Lemma Rdiv_nonneg (a b : R) : 0 <= a -> 0 < b -> 0 <= a / b.
Proof. intros Ha Hb. unfold Rdiv. by apply Rle_mult_inv_pos. Qed.

Lemma Rsum_nil : Rsum [] = 0.
Proof. reflexivity. Qed.

Lemma Rsum_cons (x : R) (l : list R) : Rsum (x :: l) = x + Rsum l.
Proof. reflexivity. Qed.

Lemma foldl_Rplus (a : R) (l : list R) : foldl Rplus a l = a + Rsum l.
Proof.
  revert a; induction l as [|x l IH]; intros a.
  - rewrite Rsum_nil. simpl. lra.
  - rewrite Rsum_cons. simpl. rewrite IH. lra.
Qed.

Lemma reduce_sum_Rsum (l : list R) : reduce_sum l = Rsum l.
Proof. unfold reduce_sum. rewrite foldl_Rplus. lra. Qed.

Lemma Rsum_app (l k : list R) : Rsum (l ++ k) = Rsum l + Rsum k.
Proof.
  induction l as [|x l IH]; [simpl; lra|].
  rewrite <- app_comm_cons, !Rsum_cons, IH. lra.
Qed.

Lemma Rsum_nonneg (l : list R) : Forall (Rle 0) l -> 0 <= Rsum l.
Proof. induction 1; [rewrite Rsum_nil | rewrite Rsum_cons]; lra. Qed.

Lemma Rsum_fmap_const (c : R) (l : list R) :
  Rsum ((fun _ => c) <$> l) = INR (length l) * c.
Proof.
  induction l as [|x l IH]; [simpl; lra|].
  rewrite fmap_cons, Rsum_cons, IH.
  change (length (x :: l)) with (S (length l)). rewrite S_INR. lra.
Qed.

Lemma Rsum_fmap_div (s : R) (l : list R) :
  Rsum ((fun x => x / s) <$> l) = Rsum l / s.
Proof.
  induction l as [|x l IH]; [simpl; unfold Rdiv; lra|].
  rewrite fmap_cons, !Rsum_cons, IH. unfold Rdiv. lra.
Qed.

Lemma for_loop_S {St : Type} (n : nat) (body : nat -> St -> St) (s : St) :
  for_loop (S n) body s = body n (for_loop n body s).
Proof. unfold for_loop. rewrite seq_S, foldl_app. reflexivity. Qed.

(** ** Dense arrays *)

Lemma array_reduce_sum_dense (d : list R) :
  array_reduce_sum (Some <$> d) = Rsum d.
Proof.
  unfold array_reduce_sum.
  assert (H : forall a, foldl (fun acc e => match e with Some b => acc + b | None => acc end)
                  a (Some <$> d) = a + Rsum d).
  { induction d as [|x d IH]; intros a.
    - rewrite Rsum_nil. simpl. lra.
    - rewrite fmap_cons, Rsum_cons. simpl. rewrite IH. lra. }
  rewrite H. lra.
Qed.

Lemma array_map_dense (f : R -> R) (d : list R) :
  array_map f (Some <$> d) = Some <$> (f <$> d).
Proof. unfold array_map. induction d as [|x d IH]; simpl; [done|]. by f_equal. Qed.

Lemma array_set_dense (d : list R) (i : nat) (x : R) :
  (i < length d)%nat -> array_set (Some <$> d) i x = Some <$> <[i := x]> d.
Proof.
  intros Hi. unfold array_set. rewrite length_fmap.
  rewrite decide_True by done. by rewrite list_fmap_insert.
Qed.

Lemma dense_Some (d : list R) : dense (Some <$> d) = Some d.
Proof. unfold dense. by apply mapM_fmap_Some. Qed.

(** The loops of [updateWeightWithRenormalization] overwrite, in a dense
    array of length [n], every slot but [idx]. *)
Lemma for_loop_overwrite (g : nat -> R) (idx : nat) (d : list R) (k : nat) :
  (k <= length d)%nat ->
  for_loop k (fun i next =>
      if decide (i = idx) then next else array_set next i (g i)) (Some <$> d)
  = Some <$> imap (fun i x => if decide (i < k /\ i <> idx)%nat then g i else x) d.
Proof.
  induction k as [|k IH]; intros Hk.
  - unfold for_loop; simpl. f_equal. apply list_eq; intros i.
    rewrite list_lookup_imap. destruct (d !! i); [|done].
    simpl. by rewrite ?decide_False by lia.
  - rewrite for_loop_S, IH by lia. destruct (decide (k = idx)) as [->|Hne].
    + f_equal. apply imap_ext; intros i x _. repeat case_decide; done || lia.
    + rewrite array_set_dense by (rewrite length_imap; lia). f_equal.
      apply list_eq; intros i. destruct (decide (i = k)) as [->|Hik].
      * rewrite list_lookup_insert_eq by (rewrite length_imap; lia).
        rewrite list_lookup_imap. destruct (lookup_lt_is_Some_2 d k) as [x Hx]; [lia|].
        rewrite Hx; simpl. rewrite decide_True by lia. done.
      * rewrite list_lookup_insert_ne by done. rewrite !list_lookup_imap.
        destruct (d !! i); simpl; [|done]. repeat case_decide; done || lia.
Qed.

Lemma for_loop_ext {St : Type} (n : nat) (f g : nat -> St -> St) (s : St) :
  (forall i st, (i < n)%nat -> f i st = g i st) ->
  for_loop n f s = for_loop n g s.
Proof.
  intros H. induction n as [|n IH]; [done|].
  rewrite !for_loop_S, IH by (intros; apply H; lia). apply H; lia.
Qed.

Lemma for_loop_edited (g : nat -> R) (idx : nat) (v : R) (prev : list R) :
  (idx < length prev)%nat ->
  for_loop (length prev) (fun i next =>
      if decide (i = idx) then next else array_set next i (g i))
    (array_set (Some <$> prev) idx v)
  = Some <$> edited (fun i _ => g i) idx v prev.
Proof.
  intros Hidx. rewrite array_set_dense by done.
  replace (length prev) with (length (<[idx := v]> prev)) at 1
    by apply length_insert.
  rewrite for_loop_overwrite by done. f_equal. unfold edited.
  apply list_eq; intros i. rewrite !list_lookup_imap.
  destruct (decide (i = idx)) as [->|Hne].
  - rewrite list_lookup_insert_eq by done.
    destruct (lookup_lt_is_Some_2 prev idx Hidx) as [x ->]. simpl.
    rewrite decide_False by lia. done.
  - rewrite list_lookup_insert_ne by done.
    destruct (prev !! i) eqn:E; simpl; [|done].
    apply lookup_lt_Some in E. rewrite length_insert.
    rewrite decide_True by lia. done.
Qed.

(** ** [normalizeWeightsLongOnly] on a dense array *)

Lemma normalizeWeightsLongOnly_dense (d : list R) :
  normalizeWeightsLongOnly (Some <$> d) = Some <$> normalized d.
Proof.
  unfold normalizeWeightsLongOnly, normalized.
  rewrite array_map_dense, array_reduce_sum_dense.
  case_decide; by rewrite array_map_dense, ?length_fmap.
Qed.

Lemma normalized_length (d : list R) : length (normalized d) = length d.
Proof. unfold normalized. case_decide; by rewrite !length_fmap. Qed.

Lemma clipped_nonneg (d : list R) : Forall (Rle 0) (Rmax 0 <$> d).
Proof. apply Forall_fmap, Forall_true. intros x. apply Rmax_l. Qed.

Lemma normalized_nonneg (d : list R) : Forall (Rle 0) (normalized d).
Proof.
  unfold normalized. pose proof (clipped_nonneg d) as Hc.
  case_decide as Hs.
  - apply Forall_fmap, Forall_forall. intros y Hy. simpl.
    apply Rdiv_nonneg; [lra|]. apply lt_0_INR.
    destruct (Rmax 0 <$> d); [by apply elem_of_nil in Hy | simpl; lia].
  - apply Forall_fmap. eapply Forall_impl; [exact Hc|].
    intros x Hx. simpl. apply Rdiv_nonneg; lra.
Qed.

Lemma normalized_sum (d : list R) : d <> [] -> Rsum (normalized d) = 1.
Proof.
  intros Hd. unfold normalized. case_decide as Hs.
  - rewrite Rsum_fmap_const, length_fmap.
    assert (0 < INR (length d)).
    { apply lt_0_INR. destruct d; [done | simpl; lia]. }
    field. lra.
  - rewrite Rsum_fmap_div. field. lra.
Qed.

Lemma normalized_id (d : list R) :
  Forall (Rle 0) d -> Rsum d = 1 -> normalized d = d.
Proof.
  intros Hd Hs. unfold normalized.
  assert (Hc : Rmax 0 <$> d = d).
  { rewrite <- (list_fmap_id d) at 2. apply Forall_fmap_ext.
    eapply Forall_impl; [exact Hd|]. intros x Hx. simpl. by apply Rmax_right. }
  rewrite Hc, Hs. rewrite decide_False by lra.
  rewrite <- (list_fmap_id d) at 2. apply list_fmap_ext.
  intros i x _. simpl. field.
Qed.

(** ** [updateWeightWithRenormalization] at an index of the vector *)

Lemma edited_length g idx v prev : length (edited g idx v prev) = length prev.
Proof. unfold edited. apply length_imap. Qed.

Lemma beforeNormalize_length prev idx nextValue :
  length (beforeNormalize prev idx nextValue) = length prev.
Proof. unfold beforeNormalize. case_decide; apply edited_length. Qed.

Lemma updateWeightWithRenormalization_dense prev idx nextValue :
  (idx < length prev)%nat -> length prev <> 1%nat ->
  updateWeightWithRenormalization prev idx nextValue
  = Some <$> normalized (beforeNormalize prev idx nextValue).
Proof.
  intros Hidx Hn. unfold updateWeightWithRenormalization, beforeNormalize.
  rewrite decide_False by done. case_decide as Hs.
  - rewrite (for_loop_ext _ _ (fun i next =>
        if decide (i = idx) then next
        else array_set next i ((1 - clamp nextValue 0 1) / (INR (length prev) - 1)))).
    2:{ intros i st _. repeat case_decide; done. }
    rewrite (for_loop_edited (fun _ => _)) by done.
    apply normalizeWeightsLongOnly_dense.
  - rewrite (for_loop_edited (fun i => nth i prev 0 * _)) by done.
    rewrite normalizeWeightsLongOnly_dense. do 2 f_equal.
    unfold edited. apply imap_ext. intros i x Hx. simpl.
    case_decide; [done|]. f_equal. by apply nth_lookup_Some with (d := 0) in Hx.
Qed.

(** ** Sums over an edited vector *)

Lemma Rsum_imap_const0 {A : Type} (l : list A) :
  Rsum (imap (fun _ _ => 0) l) = 0.
Proof.
  induction l as [|x l IH]; [done|].
  rewrite imap_cons, Rsum_cons. unfold compose. rewrite IH. lra.
Qed.

Lemma Rsum_imap_plus {A : Type} (f g : nat -> A -> R) (l : list A) :
  Rsum (imap (fun i x => f i x + g i x) l) = Rsum (imap f l) + Rsum (imap g l).
Proof.
  revert f g. induction l as [|x l IH]; intros f g; [simpl; lra|].
  rewrite !imap_cons, !Rsum_cons. unfold compose. cbv beta.
  rewrite (IH (fun i => f (S i)) (fun i => g (S i))). lra.
Qed.

Lemma Rsum_imap_scal {A : Type} (c : R) (f : nat -> A -> R) (l : list A) :
  Rsum (imap (fun i x => f i x * c) l) = Rsum (imap f l) * c.
Proof.
  revert f. induction l as [|x l IH]; intros f; [simpl; lra|].
  rewrite !imap_cons, !Rsum_cons. unfold compose. cbv beta.
  rewrite (IH (fun i => f (S i))). lra.
Qed.

Lemma Rsum_imap_indicator {A : Type} (idx : nat) (v : R) (l : list A) :
  (idx < length l)%nat ->
  Rsum (imap (fun i _ => if decide (i = idx) then v else 0) l) = v.
Proof.
  revert idx. induction l as [|x l IH]; intros idx Hidx; [simpl in Hidx; lia|].
  rewrite imap_cons, Rsum_cons. unfold compose. destruct idx as [|j].
  - rewrite decide_True by done.
    rewrite (imap_ext _ (fun _ _ => 0)), Rsum_imap_const0; [lra|].
    intros i y _. by rewrite decide_False by lia.
  - rewrite decide_False by lia.
    rewrite (imap_ext _ (fun i _ => if decide (i = j) then v else 0)).
    + rewrite IH by (simpl in Hidx; lia). lra.
    + intros i y _. repeat case_decide; done || lia.
Qed.

Lemma Rsum_imap_id (l : list R) : Rsum (imap (fun _ x => x) l) = Rsum l.
Proof.
  induction l as [|x l IH]; [done|].
  rewrite imap_cons, !Rsum_cons. unfold compose. by rewrite IH.
Qed.

Lemma Rsum_imap_const {A : Type} (c : R) (l : list A) :
  Rsum (imap (fun _ _ => c) l) = INR (length l) * c.
Proof.
  induction l as [|x l IH]; [simpl; lra|].
  rewrite imap_cons, Rsum_cons. unfold compose. rewrite IH.
  change (length (x :: l)) with (S (length l)). rewrite S_INR. lra.
Qed.

(** The sum of an edited vector: the edited entry plus the others. *)
Lemma Rsum_edited (g : nat -> R -> R) (idx : nat) (v : R) (prev : list R) :
  (idx < length prev)%nat ->
  Rsum (edited g idx v prev) = v + Rsum (edited g idx 0 prev).
Proof.
  intros Hidx. unfold edited.
  rewrite <- (Rsum_imap_indicator idx v prev Hidx) at 1.
  rewrite <- Rsum_imap_plus. f_equal. apply imap_ext.
  intros i x _. simpl. case_decide; lra.
Qed.

(** [prevOtherSum] is the sum of the entries at the other positions. *)
Lemma prevOtherSum_edited (prev : list R) (idx : nat) :
  prevOtherSum prev idx = Rsum (edited (fun _ x => x) idx 0 prev).
Proof.
  unfold prevOtherSum, edited.
  assert (H : forall (h : nat -> nat) a,
    foldl (fun acc ix => if decide (ix.1 = idx) then acc else acc + ix.2) a
          (imap (fun i x => (h i, x)) prev)
    = a + Rsum (imap (fun i x => if decide (h i = idx) then 0 else x) prev)).
  { induction prev as [|x l IH]; intros h a; [simpl; lra|].
    rewrite !imap_cons, Rsum_cons. unfold compose. simpl.
    rewrite (IH (fun i => h (S i))). case_decide; lra. }
  rewrite (H (fun i => i)). lra.
Qed.

Lemma prevOtherSum_delete (prev : list R) (idx : nat) :
  prevOtherSum prev idx = Rsum (delete idx prev).
Proof.
  rewrite prevOtherSum_edited. unfold edited. revert idx.
  induction prev as [|x l IH]; intros idx; [by destruct idx|].
  rewrite imap_cons, Rsum_cons. unfold compose. destruct idx as [|j]; simpl.
  - rewrite Rsum_imap_id. lra.
  - change (x + Rsum (imap (fun i y => if decide (S i = S j) then 0 else y) l)
            = x + Rsum (delete j l)).
    rewrite <- IH. do 2 f_equal. apply imap_ext.
    intros i y _. simpl. repeat case_decide; done || lia.
Qed.

Lemma clamp_unit (v : R) : 0 <= v <= 1 -> clamp v 0 1 = v.
Proof.
  intros [H0 H1]. unfold clamp. rewrite (Rmin_right 1 v) by done.
  by apply Rmax_right.
Qed.

Lemma clamp_range (x : R) : 0 <= clamp x 0 1 <= 1.
Proof.
  unfold clamp. split; [apply Rmax_l|].
  apply Rmax_lub; [lra | apply Rmin_l].
Qed.

Lemma Rsum_edited_scaled (c : R) (idx : nat) (prev : list R) :
  Rsum (edited (fun _ x => x * c) idx 0 prev) = Rsum (delete idx prev) * c.
Proof.
  rewrite <- prevOtherSum_delete, prevOtherSum_edited. unfold edited.
  rewrite <- Rsum_imap_scal. f_equal. apply imap_ext.
  intros i x _. simpl. case_decide; lra.
Qed.

Lemma Rsum_edited_const (c : R) (idx : nat) (prev : list R) :
  (idx < length prev)%nat ->
  Rsum (edited (fun _ _ => c) idx 0 prev) = (INR (length prev) - 1) * c.
Proof.
  intros Hidx. unfold edited.
  pose proof (Rsum_imap_const c prev) as Hall.
  pose proof (Rsum_imap_indicator idx c prev Hidx) as Hone.
  rewrite (imap_ext _ (fun i x =>
              (if decide (i = idx) then 0 else c)
              + (if decide (i = idx) then c else 0))), Rsum_imap_plus in Hall.
  2:{ intros i x _. simpl. case_decide; lra. }
  lra.
Qed.

Lemma length_two_INR (n : nat) : (2 <= n)%nat -> 1 <= INR n - 1.
Proof. intros H. apply le_INR in H. simpl in H. lra. Qed.

(** Uniform branch: the other weights summed to at most [1e-9]. *)
Lemma update_uniform (prev : list R) (idx : nat) (v : R) :
  (2 <= length prev)%nat -> (idx < length prev)%nat -> 0 <= v <= 1 ->
  Rsum (delete idx prev) <= 1e-9 ->
  updateWeightWithRenormalization prev idx v
  = Some <$> edited (fun _ _ => (1 - v) / (INR (length prev) - 1)) idx v prev.
Proof.
  intros Hn Hidx Hv Hs. pose proof (length_two_INR _ Hn) as Hn1.
  rewrite updateWeightWithRenormalization_dense by (done || lia).
  unfold beforeNormalize. rewrite prevOtherSum_delete, decide_True by done.
  rewrite clamp_unit by done. f_equal. apply normalized_id.
  - unfold edited. apply Forall_lookup. intros i x.
    rewrite list_lookup_imap. destruct (prev !! i); simpl; [|done].
    intros [= <-]. case_decide; [lra|]. apply Rdiv_nonneg; lra.
  - rewrite Rsum_edited, Rsum_edited_const by done. field. lra.
Qed.

(** Proportional branch: the other weights summed to more than [1e-9]. *)
Lemma update_proportional (prev : list R) (idx : nat) (v : R) :
  Forall (Rle 0) prev -> (idx < length prev)%nat -> 0 <= v <= 1 ->
  1e-9 < Rsum (delete idx prev) ->
  updateWeightWithRenormalization prev idx v
  = Some <$> edited (fun _ x => x * ((1 - v) / Rsum (delete idx prev))) idx v prev.
Proof.
  intros Hpos Hidx Hv Hs.
  assert (Hn : length prev <> 1%nat).
  { intros Hn. destruct prev as [|x [|y l]]; try done.
    assert (idx = 0%nat) as -> by (simpl in Hidx; lia). simpl in Hs. lra. }
  rewrite updateWeightWithRenormalization_dense by done.
  unfold beforeNormalize. rewrite prevOtherSum_delete, decide_False by lra.
  rewrite clamp_unit by done. f_equal. apply normalized_id.
  - unfold edited. apply Forall_lookup. intros i x.
    rewrite list_lookup_imap. destruct (prev !! i) as [y|] eqn:E; simpl; [|done].
    intros [= <-]. case_decide; [lra|].
    apply Rmult_le_pos; [by eapply Forall_lookup_1 | apply Rdiv_nonneg; lra].
  - rewrite Rsum_edited, Rsum_edited_scaled by done. field. lra.
Qed.

Lemma edited_lookup_idx g idx v (prev : list R) :
  (idx < length prev)%nat -> edited g idx v prev !! idx = Some v.
Proof.
  intros Hidx. unfold edited. rewrite list_lookup_imap.
  destruct (lookup_lt_is_Some_2 prev idx Hidx) as [x ->]. simpl.
  by rewrite decide_True.
Qed.

Lemma edited_lookup_other g idx v (prev : list R) i x :
  i <> idx -> prev !! i = Some x -> edited g idx v prev !! i = Some (g i x).
Proof.
  intros Hne Hx. unfold edited. rewrite list_lookup_imap, Hx. simpl.
  by rewrite decide_False.
Qed.

(** ** Weight renormalization: the claims *)

Lemma update_weights_invariant (prev : list R) (idx : nat) (v : R) :
  (idx < length prev)%nat ->
  exists w, updateWeightWithRenormalization prev idx v = Some <$> w /\
    length w = length prev /\ Forall (Rle 0) w /\ Rsum w = 1.
Proof.
  intros Hidx. destruct (decide (length prev = 1%nat)) as [Hn|Hn].
  - exists [1]. unfold updateWeightWithRenormalization.
    rewrite decide_True by done. repeat split; [by rewrite Hn | | simpl; lra].
    constructor; [lra | constructor].
  - exists (normalized (beforeNormalize prev idx v)).
    split; [by apply updateWeightWithRenormalization_dense|].
    split; [by rewrite normalized_length, beforeNormalize_length|].
    split; [apply normalized_nonneg|]. apply normalized_sum.
    intros Hnil. apply (f_equal length) in Hnil.
    rewrite beforeNormalize_length in Hnil. simpl in Hnil. lia.
Qed.

(** ** Arrays with holes: an index past the end *)

Lemma defined_entries_dense (d : list R) : defined_entries (Some <$> d) = d.
Proof.
  unfold defined_entries. induction d as [|x d IH]; [done|].
  simpl. f_equal. exact IH.
Qed.

Lemma array_reduce_sum_defined (a : jsarray) :
  array_reduce_sum a = Rsum (defined_entries a).
Proof.
  unfold array_reduce_sum, defined_entries.
  assert (H : forall acc,
    foldl (fun acc e => match e with Some b => acc + b | None => acc end) acc a
    = acc + Rsum (omap (fun e : option R => e) a)).
  { induction a as [|[x|] a IH]; intros acc; simpl.
    - lra.
    - rewrite IH, Rplus_assoc. reflexivity.
    - apply IH. }
  rewrite H. lra.
Qed.

Lemma defined_entries_map (f : R -> R) (a : jsarray) :
  defined_entries (array_map f a) = f <$> defined_entries a.
Proof.
  unfold defined_entries, array_map.
  induction a as [|[x|] a IH]; simpl; [done | f_equal; exact IH | exact IH].
Qed.

Lemma defined_entries_elem (a : jsarray) (x : R) :
  x ∈ defined_entries a <-> Some x ∈ a.
Proof.
  unfold defined_entries. rewrite list_elem_of_omap. split.
  - by intros (e & He & ->).
  - intros H. by exists (Some x).
Qed.

Lemma Rsum_clipped_lower (l : list R) (x : R) :
  x ∈ l -> x <= Rsum (Rmax 0 <$> l).
Proof.
  intros Hx. induction l as [|y l IH]; [by apply elem_of_nil in Hx|].
  rewrite fmap_cons, Rsum_cons.
  pose proof (Rsum_nonneg _ (clipped_nonneg l)).
  apply elem_of_cons in Hx as [->|Hx].
  - pose proof (Rmax_r 0 y). lra.
  - pose proof (Rmax_l 0 y). specialize (IH Hx). lra.
Qed.

(** [normalizeWeightsLongOnly] on any array: the entries it returns are
    non-negative, and they sum to 1 as soon as one entry of the argument
    is positive. *)
Lemma normalizeWeightsLongOnly_entries (a : jsarray) :
  Forall (Rle 0) (defined_entries (normalizeWeightsLongOnly a)).
Proof.
  unfold normalizeWeightsLongOnly. case_decide as Hs.
  - rewrite !defined_entries_map. apply Forall_fmap, Forall_forall.
    intros y Hy. simpl. apply Rdiv_nonneg; [lra|]. apply lt_0_INR.
    unfold array_map. rewrite length_fmap.
    apply list_elem_of_fmap in Hy as (z & _ & Hz).
    apply defined_entries_elem in Hz. destruct a; [by apply elem_of_nil in Hz|].
    simpl. lia.
  - rewrite !defined_entries_map, array_reduce_sum_defined, defined_entries_map.
    rewrite array_reduce_sum_defined, defined_entries_map in Hs.
    apply Forall_fmap. eapply Forall_impl; [apply clipped_nonneg|].
    intros x Hx. simpl. apply Rdiv_nonneg; lra.
Qed.

Lemma normalizeWeightsLongOnly_positive (a : jsarray) (x : R) :
  Some x ∈ a -> 0 < x ->
  array_reduce_sum (normalizeWeightsLongOnly a) = 1.
Proof.
  intros Hx Hpos. unfold normalizeWeightsLongOnly.
  assert (Hs : 0 < array_reduce_sum (array_map (fun x => Rmax 0 x) a)).
  { rewrite array_reduce_sum_defined, defined_entries_map.
    apply defined_entries_elem in Hx.
    exact (Rlt_le_trans _ _ _ Hpos (Rsum_clipped_lower _ _ Hx)). }
  rewrite decide_False by lra.
  rewrite array_reduce_sum_defined, defined_entries_map, Rsum_fmap_div.
  rewrite <- array_reduce_sum_defined. field. lra.
Qed.

(** The loops of [updateWeightWithRenormalization] on any array at
    least as long as the loop bound. *)
Lemma for_loop_overwrite_array (g : nat -> R) (idx : nat) (a : jsarray) (k : nat) :
  (k <= length a)%nat ->
  for_loop k (fun i next =>
      if decide (i = idx) then next else array_set next i (g i)) a
  = imap (fun i e => if decide (i < k /\ i <> idx)%nat then Some (g i) else e) a.
Proof.
  induction k as [|k IH]; intros Hk.
  - unfold for_loop; simpl. apply list_eq; intros i.
    rewrite list_lookup_imap. destruct (a !! i); [|done].
    simpl. by rewrite ?decide_False by lia.
  - rewrite for_loop_S, IH by lia. destruct (decide (k = idx)) as [->|Hne].
    + apply imap_ext; intros i x _. repeat case_decide; done || lia.
    + unfold array_set. rewrite length_imap, decide_True by lia.
      apply list_eq; intros i. destruct (decide (i = k)) as [->|Hik].
      * rewrite list_lookup_insert_eq by (rewrite length_imap; lia).
        rewrite list_lookup_imap. destruct (lookup_lt_is_Some_2 a k) as [x Hx]; [lia|].
        rewrite Hx; simpl. rewrite decide_True by lia. done.
      * rewrite list_lookup_insert_ne by done. rewrite !list_lookup_imap.
        destruct (a !! i); simpl; [|done]. repeat case_decide; done || lia.
Qed.

Lemma array_set_past_end (d : list R) (idx : nat) (v : R) :
  (length d <= idx)%nat ->
  length (array_set (Some <$> d) idx v) = S idx /\
  array_set (Some <$> d) idx v !! idx = Some (Some v).
Proof.
  intros H. unfold array_set. rewrite length_fmap, decide_False by lia.
  split.
  - rewrite !length_app, length_fmap, length_replicate. simpl. lia.
  - rewrite lookup_app_r by (rewrite length_fmap; lia).
    rewrite lookup_app_r by (rewrite length_fmap, length_replicate; lia).
    rewrite length_fmap, length_replicate.
    by replace (idx - length d - (idx - length d))%nat with 0%nat by lia.
Qed.

(** Past the end of the vector, the array handed to
    [normalizeWeightsLongOnly] still holds [v] at [idx] and the new
    values at the positions of the vector. *)
Lemma edited_past_end (g : nat -> R) (prev : list R) (idx : nat) (v : R) :
  (length prev <= idx)%nat ->
  let next := for_loop (length prev) (fun i next =>
                if decide (i = idx) then next else array_set next i (g i))
                (array_set (Some <$> prev) idx v) in
  next !! idx = Some (Some v) /\
  forall i, (i < length prev)%nat -> next !! i = Some (Some (g i)).
Proof.
  intros Hidx next. destruct (array_set_past_end prev idx v Hidx) as [Hlen Hv].
  unfold next. rewrite for_loop_overwrite_array by lia. split.
  - rewrite list_lookup_imap, Hv. simpl. by rewrite decide_False by lia.
  - intros i Hi. rewrite list_lookup_imap.
    destruct (lookup_lt_is_Some_2 (array_set (Some <$> prev) idx v) i) as [e He];
      [lia|].
    rewrite He. simpl. by rewrite decide_True by lia.
Qed.

Lemma prevOtherSum_positive_entry (prev : list R) (idx : nat) :
  0 < prevOtherSum prev idx ->
  exists i x, prev !! i = Some x /\ 0 < x.
Proof.
  rewrite prevOtherSum_delete. intros Hs.
  assert (H : exists x, x ∈ delete idx prev /\ 0 < x).
  { induction (delete idx prev) as [|y l IH]; [simpl in Hs; lra|].
    rewrite Rsum_cons in Hs. destruct (Rlt_dec 0 y) as [Hy|Hy].
    - exists y. split; [by left | done].
    - destruct IH as (x & Hx & Hpos); [lra|]. exists x. split; [by right | done]. }
  destruct H as (x & Hx & Hpos).
  assert (Hin : x ∈ prev) by by eapply list_elem_of_delete_inv.
  apply list_elem_of_lookup in Hin as [i Hi]. by exists i, x.
Qed.

Lemma update_past_end (prev : list R) (idx : nat) (v : R) :
  (2 <= length prev)%nat -> (length prev <= idx)%nat ->
  array_reduce_sum (updateWeightWithRenormalization prev idx v) = 1.
Proof.
  intros Hn Hidx. unfold updateWeightWithRenormalization.
  rewrite decide_False by lia.
  pose proof (clamp_range v) as Hv. pose proof (length_two_INR _ Hn) as Hn1.
  case_decide as Hs.
  - rewrite (for_loop_ext _ _ (fun i next =>
        if decide (i = idx) then next
        else array_set next i ((1 - clamp v 0 1) / (INR (length prev) - 1)))).
    2:{ intros i st _. repeat case_decide; done. }
    destruct (edited_past_end
                (fun _ => (1 - clamp v 0 1) / (INR (length prev) - 1))
                prev idx (clamp v 0 1) Hidx) as [Hat Hothers].
    destruct (Rlt_dec 0 (clamp v 0 1)) as [Hpos|Hzero].
    + eapply normalizeWeightsLongOnly_positive; [|exact Hpos].
      exact (list_elem_of_lookup_2 _ idx _ Hat).
    + eapply (normalizeWeightsLongOnly_positive _
                ((1 - clamp v 0 1) / (INR (length prev) - 1))).
      * apply (list_elem_of_lookup_2 _ 0%nat), Hothers. lia.
      * apply Rdiv_lt_0_compat; lra.
  - destruct (edited_past_end
                (fun i => nth i prev 0 * ((1 - clamp v 0 1) / prevOtherSum prev idx))
                prev idx (clamp v 0 1) Hidx) as [Hat Hothers].
    destruct (Rlt_dec 0 (clamp v 0 1)) as [Hpos|Hzero].
    + eapply normalizeWeightsLongOnly_positive; [|exact Hpos].
      exact (list_elem_of_lookup_2 _ idx _ Hat).
    + destruct (prevOtherSum_positive_entry prev idx) as (i & x & Hi & Hx); [lra|].
      eapply (normalizeWeightsLongOnly_positive _
                (nth i prev 0 * ((1 - clamp v 0 1) / prevOtherSum prev idx))).
      * apply (list_elem_of_lookup_2 _ i), Hothers.
        by eapply lookup_lt_Some.
      * rewrite (nth_lookup_Some _ _ _ _ Hi).
        apply Rmult_lt_0_compat; [done|]. apply Rdiv_lt_0_compat; lra.
Qed.

(** Whatever the index, on a vector with at least one entry: every entry
    of the result is [>= 0] and the entries sum to 1. *)
Lemma update_any_index (prev : list R) (idx : nat) (v : R) :
  prev <> [] ->
  Forall (Rle 0) (defined_entries (updateWeightWithRenormalization prev idx v)) /\
  array_reduce_sum (updateWeightWithRenormalization prev idx v) = 1.
Proof.
  intros Hne. split.
  - unfold updateWeightWithRenormalization.
    repeat case_decide; try apply normalizeWeightsLongOnly_entries.
    simpl. constructor; [lra | constructor].
  - destruct (decide (idx < length prev)%nat) as [Hin|Hout].
    + destruct (update_weights_invariant prev idx v Hin) as (w & -> & _ & _ & Hsum).
      by rewrite array_reduce_sum_dense.
    + destruct (decide (length prev = 1%nat)) as [H1|H1].
      * unfold updateWeightWithRenormalization. rewrite decide_True by done.
        unfold array_reduce_sum. simpl. lra.
      * apply update_past_end; [|lia]. destruct prev as [|x [|y l]]; simpl in *; done || lia.
Qed.

(** The vector without any entry is outside this: an index past its end
    with a requested value of 0 leaves a hole and a single entry [1/2]. *)
Example update_of_empty_vector :
  updateWeightWithRenormalization [] 1 0 = [None; Some (1 / 2)].
Proof.
  unfold updateWeightWithRenormalization, array_set, for_loop. simpl.
  assert (Hv : clamp 0 0 1 = 0) by (apply clamp_unit; lra).
  rewrite Hv. unfold prevOtherSum. simpl. rewrite decide_True by lra.
  unfold normalizeWeightsLongOnly, array_map, array_reduce_sum. simpl.
  rewrite decide_True by (rewrite Rmax_left; lra).
  replace (1 / (1 + 1)) with (1 / 2) by lra. reflexivity.
Qed.

Lemma setWeightsSequence_invariant (edits : list (nat * R)) (w : list R) :
  Forall (fun e => (e.1 < length w)%nat) edits ->
  exists w', setWeightsSequence w edits = Some w' /\ length w' = length w /\
    (edits <> [] -> Forall (Rle 0) w' /\ Rsum w' = 1).
Proof.
  revert w. induction edits as [|[idx v] rest IH]; intros w Hall.
  - exists w. by repeat split.
  - apply Forall_cons in Hall as [Hidx Hrest]. simpl in Hidx.
    destruct (update_weights_invariant w idx v Hidx) as (w1 & Hw1 & Hlen & Hpos & Hsum).
    destruct (IH w1) as (w' & Hw' & Hlen' & Hinv).
    { by rewrite Hlen. }
    exists w'. simpl. rewrite Hw1, dense_Some.
    split; [done|]. split; [congruence|]. intros _.
    destruct rest as [|e rest]; [|by apply Hinv].
    simpl in Hw'. by injection Hw' as <-.
Qed.

(** C1.  For every weight vector with at least one entry, every index
    and every requested value, the entries of the array returned by
    [updateWeightWithRenormalization] are all [>= 0] and sum to 1 (so
    within [1e-6] of 1).  At an index of the vector the result is a
    dense vector of the same length, and the property holds for the
    vector reached after any non-empty run of such edits. *)
Theorem C1_weight_invariant :
  (forall (prev : list R) (idx : nat) (v : R),
      prev <> [] ->
      let next := updateWeightWithRenormalization prev idx v in
      Forall (Rle 0) (defined_entries next) /\
      Rabs (array_reduce_sum next - 1) <= 1e-6) /\
  (forall (prev : list R) (idx : nat) (v : R),
      (idx < length prev)%nat ->
      exists w, updateWeightWithRenormalization prev idx v = Some <$> w /\
        length w = length prev /\ Forall (Rle 0) w /\
        Rabs (Rsum w - 1) <= 1e-6) /\
  (forall (w : list R) (edits : list (nat * R)),
      edits <> [] -> Forall (fun e => (e.1 < length w)%nat) edits ->
      exists w', setWeightsSequence w edits = Some w' /\
        length w' = length w /\ Forall (Rle 0) w' /\
        Rabs (Rsum w' - 1) <= 1e-6).
Proof.
  split; [|split].
  - intros prev idx v Hne next.
    destruct (update_any_index prev idx v Hne) as [Hpos Hsum].
    split; [done|]. unfold next. rewrite Hsum, Rminus_diag, Rabs_R0. lra.
  - intros prev idx v Hidx.
    destruct (update_weights_invariant prev idx v Hidx) as (w & Hw & Hlen & Hpos & Hsum).
    exists w. repeat split; try done.
    rewrite Hsum, Rminus_diag, Rabs_R0. lra.
  - intros w edits Hne Hall.
    destruct (setWeightsSequence_invariant edits w Hall) as (w' & Hw' & Hlen & Hinv).
    destruct (Hinv Hne) as [Hpos Hsum].
    exists w'. repeat split; try done.
    rewrite Hsum, Rminus_diag, Rabs_R0. lra.
Qed.

Lemma C1_weight_invariant_witness :
  (let next := updateWeightWithRenormalization [0.2; -3; 7] 5 0.5 in
   Forall (Rle 0) (defined_entries next) /\
   Rabs (array_reduce_sum next - 1) <= 1e-6) /\
  (exists w, updateWeightWithRenormalization [0.2; -3; 7] 1 0.5 = Some <$> w /\
     length w = 3%nat /\ Forall (Rle 0) w /\ Rabs (Rsum w - 1) <= 1e-6) /\
  (exists w', setWeightsSequence [0.2; -3; 7] [(1%nat, 0.5); (0%nat, 2)] = Some w' /\
     length w' = 3%nat /\ Forall (Rle 0) w' /\ Rabs (Rsum w' - 1) <= 1e-6).
Proof.
  destruct C1_weight_invariant as (Hany & Hone & Hrun).
  split; [|split].
  - apply (Hany [0.2; -3; 7] 5%nat 0.5). discriminate.
  - apply (Hone [0.2; -3; 7] 1%nat 0.5). simpl. lia.
  - apply (Hrun [0.2; -3; 7] [(1%nat, 0.5); (0%nat, 2)]).
    + discriminate.
    + repeat constructor; simpl; lia.
Defined.

(** C6.  When the weights at the other indices sum to more than [1e-9],
    editing index [idx] of a weight vector (entries [>= 0]) to a value
    [v] in [[0,1]] returns the vector with [v] at [idx] and every other
    weight [x] replaced by [x * ((1 - v) / S)], [S] being the sum of the
    other weights, so that the total is 1.  In particular
    [[0.5, 0.3, 0.2]] with index 0 set to 0.8 gives [[0.8, 0.12, 0.08]]. *)
Theorem C6_proportional_rescale :
  (forall (prev : list R) (idx : nat) (v : R),
      Forall (Rle 0) prev -> (idx < length prev)%nat -> 0 <= v <= 1 ->
      1e-9 < Rsum (delete idx prev) ->
      exists w, updateWeightWithRenormalization prev idx v = Some <$> w /\
        length w = length prev /\
        w !! idx = Some v /\
        (forall i x, i <> idx -> prev !! i = Some x ->
           w !! i = Some (x * ((1 - v) / Rsum (delete idx prev)))) /\
        Rsum w = 1) /\
  updateWeightWithRenormalization [0.5; 0.3; 0.2] 0 0.8
  = [Some 0.8; Some 0.12; Some 0.08].
Proof.
  split.
  - intros prev idx v Hpos Hidx Hv Hs.
    eexists. split; [by apply update_proportional|].
    split; [apply edited_length|].
    split; [by apply edited_lookup_idx|].
    split; [intros i x Hi Hx; by rewrite (edited_lookup_other _ _ _ _ i x)|].
    rewrite Rsum_edited, Rsum_edited_scaled by done. field. lra.
  - rewrite update_proportional.
    + unfold edited. simpl. unfold Rsum. simpl.
      repeat f_equal; lra.
    + repeat constructor; lra.
    + simpl. lia.
    + lra.
    + unfold Rsum. simpl. lra.
Qed.

Lemma C6_proportional_rescale_witness :
  exists w, updateWeightWithRenormalization [0.25; 0.25; 0.5] 2 0.2 = Some <$> w /\
    length w = 3%nat /\
    w !! 2%nat = Some 0.2 /\
    (forall i x, i <> 2%nat -> [0.25; 0.25; 0.5] !! i = Some x ->
       w !! i = Some (x * ((1 - 0.2) / Rsum (delete 2%nat [0.25; 0.25; 0.5])))) /\
    Rsum w = 1.
Proof.
  apply (proj1 C6_proportional_rescale [0.25; 0.25; 0.5] 2%nat 0.2).
  - repeat constructor; lra.
  - simpl. lia.
  - lra.
  - unfold Rsum. simpl. lra.
Defined.

(** C7.  With at least two entries, when the weights at the other indices
    sum to at most [1e-9], editing index [idx] to a value [v] in [[0,1]]
    returns [v] at [idx] and [(1 - v) / (n - 1)] at each of the other
    [n - 1] positions.  In particular [[1, 0, 0]] with index 0 set to 0.4
    gives [[0.4, 0.3, 0.3]], and a one-entry vector always gives [[1]]. *)
Theorem C7_uniform_redistribution :
  (forall (prev : list R) (idx : nat) (v : R),
      (2 <= length prev)%nat -> (idx < length prev)%nat -> 0 <= v <= 1 ->
      Rsum (delete idx prev) <= 1e-9 ->
      exists w, updateWeightWithRenormalization prev idx v = Some <$> w /\
        length w = length prev /\
        w !! idx = Some v /\
        (forall i, i <> idx -> (i < length prev)%nat ->
           w !! i = Some ((1 - v) / (INR (length prev) - 1))) /\
        Rsum w = 1) /\
  updateWeightWithRenormalization [1; 0; 0] 0 0.4
  = [Some 0.4; Some 0.3; Some 0.3] /\
  (forall (x : R) (idx : nat) (v : R),
      updateWeightWithRenormalization [x] idx v = [Some 1]).
Proof.
  split; [|split].
  - intros prev idx v Hn Hidx Hv Hs. pose proof (length_two_INR _ Hn).
    eexists. split; [by apply update_uniform|].
    split; [apply edited_length|].
    split; [by apply edited_lookup_idx|].
    split.
    + intros i Hi Hlt. destruct (lookup_lt_is_Some_2 prev i Hlt) as [x Hx].
      by rewrite (edited_lookup_other _ _ _ _ i x).
    + rewrite Rsum_edited, Rsum_edited_const by done. field. lra.
  - rewrite update_uniform.
    + unfold edited. simpl. repeat f_equal; lra.
    + simpl. lia.
    + simpl. lia.
    + lra.
    + unfold Rsum. simpl. lra.
  - intros x idx v. reflexivity.
Qed.

Lemma C7_uniform_redistribution_witness :
  exists w, updateWeightWithRenormalization [0; 0.7; 0; 0] 1 0.1 = Some <$> w /\
    length w = 4%nat /\
    w !! 1%nat = Some 0.1 /\
    (forall i, i <> 1%nat -> (i < 4)%nat -> w !! i = Some ((1 - 0.1) / (INR 4 - 1))) /\
    Rsum w = 1.
Proof.
  apply (proj1 C7_uniform_redistribution [0; 0.7; 0; 0] 1%nat 0.1).
  - simpl. lia.
  - simpl. lia.
  - lra.
  - unfold Rsum. simpl. lra.
Defined.

(** ** Series alignment *)

Lemma foldl_min_spec (rest : list nat) (l : nat) :
  (foldl Nat.min l rest = l \/ foldl Nat.min l rest ∈ rest) /\
  (foldl Nat.min l rest <= l)%nat /\
  (forall x, x ∈ rest -> (foldl Nat.min l rest <= x)%nat).
Proof.
  revert l. induction rest as [|y rest IH]; intros l; simpl.
  - split; [by left|]. split; [lia|]. intros x Hx. by apply elem_of_nil in Hx.
  - destruct (IH (Nat.min l y)) as (Hin & Hle & Hall). split; [|split].
    + destruct Hin as [Heq|Hin]; [|right; by apply elem_of_cons; right].
      rewrite Heq. destruct (Nat.min_spec l y) as [[_ ->]|[_ ->]];
        [by left | right; apply elem_of_cons; by left].
    + lia.
    + intros x [->|Hx]%elem_of_cons; [lia | by apply Hall].
Qed.

Lemma Math_min_Some (lens : list nat) (N : nat) :
  Math_min lens = Some N ->
  N ∈ lens /\ forall x, x ∈ lens -> (N <= x)%nat.
Proof.
  destruct lens as [|l rest]; [done|]. intros [= <-].
  destruct (foldl_min_spec rest l) as (Hin & Hle & Hall). split.
  - destruct Hin as [->|Hin]; apply elem_of_cons; [by left | by right].
  - intros x [->|Hx]%elem_of_cons; [done | by apply Hall].
Qed.

Lemma nonzero_lengths_elem (seriesByAsset : list (list R)) (n : nat) :
  n ∈ filter (fun l => (l > 0)%nat) (length <$> seriesByAsset) <->
  (0 < n)%nat /\ exists s, s ∈ seriesByAsset /\ length s = n.
Proof.
  rewrite list_elem_of_filter, list_elem_of_fmap. split.
  - intros [Hpos (s & -> & Hs)]. split; [lia|]. by exists s.
  - intros [Hpos (s & Hs & <-)]. split; [lia|]. by exists s.
Qed.

(** What the source computes as [N] is the minimum non-zero length. *)
Lemma Math_min_nonzero_length (seriesByAsset : list (list R)) (N : nat) :
  Math_min (filter (fun l => (l > 0)%nat) (length <$> seriesByAsset)) = Some N <->
  min_nonzero_length seriesByAsset N.
Proof.
  split.
  - intros [Hin Hmin]%Math_min_Some.
    apply nonzero_lengths_elem in Hin as [Hpos Hex].
    split; [done|]. split; [done|]. intros s Hs Hlen.
    apply Hmin, nonzero_lengths_elem. split; [done|]. by exists s.
  - intros (Hpos & Hex & Hmin).
    destruct (Math_min _) as [M|] eqn:HM.
    + apply Math_min_Some in HM as [Hin HMmin].
      apply nonzero_lengths_elem in Hin as [HMpos (s & Hs & Hlen)].
      f_equal. apply Nat.le_antisymm.
      * apply HMmin, nonzero_lengths_elem. by split.
      * rewrite <- Hlen. apply Hmin; [done | lia].
    + exfalso. unfold Math_min in HM.
      destruct (filter _ _) as [|l rest] eqn:Hf; [|done].
      assert (HN : N ∈ filter (fun l => (l > 0)%nat) (length <$> seriesByAsset))
        by (apply nonzero_lengths_elem; by split).
      rewrite Hf in HN. by apply elem_of_nil in HN.
Qed.

Lemma Math_min_no_positive_length (seriesByAsset : list (list R)) :
  Math_min (filter (fun l => (l > 0)%nat) (length <$> seriesByAsset)) = None <->
  Forall (fun s => length s = 0%nat) seriesByAsset.
Proof.
  split.
  - intros HM. apply Forall_forall. intros s Hs.
    destruct (decide (length s = 0%nat)) as [|Hne]; [done|]. exfalso.
    assert (Hin : length s ∈ filter (fun l => (l > 0)%nat) (length <$> seriesByAsset)).
    { apply nonzero_lengths_elem. split; [lia|]. by exists s. }
    destruct (filter _ _); [by apply elem_of_nil in Hin | done].
  - intros Hall. destruct (Math_min _) as [M|] eqn:HM; [|done]. exfalso.
    apply Math_min_Some in HM as [Hin _].
    apply nonzero_lengths_elem in Hin as [Hpos (s & Hs & Hlen)].
    rewrite Forall_forall in Hall. specialize (Hall s Hs). lia.
Qed.

Lemma slice_from_last_entries {A : Type} (s : list A) (N : nat) :
  length s = 0%nat \/ (N <= length s)%nat ->
  slice_from s (Z.of_nat (length s) - Z.of_nat N) = last_entries N s.
Proof.
  intros H. unfold slice_from, last_entries. f_equal. case_decide; lia.
Qed.

(** C9.  [alignSeriesToCommonLength] takes [N], the minimum non-zero
    length across the series: when [N >= 2] every series is cut to its
    last [N] entries; when [N < 2], or when no series has positive
    length, the input is returned as it is.  For series of lengths 10, 7
    and 12 the result is the last 7 entries of each. *)
Theorem C9_alignment :
  (forall (seriesByAsset : list (list R)) (N : nat),
      min_nonzero_length seriesByAsset N -> (2 <= N)%nat ->
      alignSeriesToCommonLength seriesByAsset
      = last_entries N <$> seriesByAsset) /\
  (forall (seriesByAsset : list (list R)) (N : nat),
      min_nonzero_length seriesByAsset N -> (N < 2)%nat ->
      alignSeriesToCommonLength seriesByAsset = seriesByAsset) /\
  (forall (seriesByAsset : list (list R)),
      Forall (fun s => length s = 0%nat) seriesByAsset ->
      alignSeriesToCommonLength seriesByAsset = seriesByAsset) /\
  (forall (s1 s2 s3 : list R),
      length s1 = 10%nat -> length s2 = 7%nat -> length s3 = 12%nat ->
      alignSeriesToCommonLength [s1; s2; s3]
      = [last_entries 7 s1; last_entries 7 s2; last_entries 7 s3] /\
      Forall (fun s => length s = 7%nat)
        (alignSeriesToCommonLength [s1; s2; s3])).
Proof.
  assert (Hcut : forall (seriesByAsset : list (list R)) (N : nat),
      min_nonzero_length seriesByAsset N -> (2 <= N)%nat ->
      alignSeriesToCommonLength seriesByAsset
      = last_entries N <$> seriesByAsset).
  { intros series N HN Hge. unfold alignSeriesToCommonLength.
    rewrite (proj2 (Math_min_nonzero_length series N) HN).
    rewrite decide_False by lia. apply Forall_fmap_ext, Forall_forall.
    intros s Hs. apply slice_from_last_entries.
    destruct HN as (_ & _ & Hmin).
    destruct (decide (length s = 0%nat)); [by left | right].
    apply Hmin; [done | lia]. }
  split; [exact Hcut|]. split; [|split].
  - intros series N HN Hlt. unfold alignSeriesToCommonLength.
    rewrite (proj2 (Math_min_nonzero_length series N) HN).
    by rewrite decide_True.
  - intros series Hall. unfold alignSeriesToCommonLength.
    by rewrite (proj2 (Math_min_no_positive_length series) Hall).
  - intros s1 s2 s3 H1 H2 H3.
    assert (Heq : alignSeriesToCommonLength [s1; s2; s3]
                  = last_entries 7 <$> [s1; s2; s3]).
    { apply Hcut; [|lia]. apply Math_min_nonzero_length.
      simpl. rewrite H1, H2, H3. reflexivity. }
    split; [exact Heq|]. rewrite Heq. unfold last_entries.
    repeat constructor; rewrite length_drop; lia.
Qed.

Lemma C9_alignment_witness :
  alignSeriesToCommonLength [[1; 2; 3]; []; [4; 5]] = [[2; 3]; []; [4; 5]] /\
  alignSeriesToCommonLength [[1; 2; 3]; [7]] = [[1; 2; 3]; [7]] /\
  alignSeriesToCommonLength [[]; []] = [[]; []] /\
  alignSeriesToCommonLength
    [[1; 2; 3; 4; 5; 6; 7; 8; 9; 10]; [1; 2; 3; 4; 5; 6; 7];
     [1; 2; 3; 4; 5; 6; 7; 8; 9; 10; 11; 12]]
  = [[4; 5; 6; 7; 8; 9; 10]; [1; 2; 3; 4; 5; 6; 7];
     [6; 7; 8; 9; 10; 11; 12]].
Proof.
  destruct C9_alignment as (Hcut & Hshort & Hnone & Hex).
  split; [|split; [|split]].
  - apply (Hcut [[1; 2; 3]; []; [4; 5]] 2%nat); [|lia].
    apply Math_min_nonzero_length. reflexivity.
  - apply (Hshort [[1; 2; 3]; [7]] 1%nat); [|lia].
    apply Math_min_nonzero_length. reflexivity.
  - apply (Hnone [[]; []]). repeat constructor.
  - apply (Hex [1; 2; 3; 4; 5; 6; 7; 8; 9; 10] [1; 2; 3; 4; 5; 6; 7]
               [1; 2; 3; 4; 5; 6; 7; 8; 9; 10; 11; 12]); reflexivity.
Defined.

(** ** Loops and matrices *)

Lemma for_range_S {St : Type} (lo hi : nat) (body : nat -> St -> St) (s : St) :
  (lo <= hi)%nat ->
  for_range lo (S hi) body s = body hi (for_range lo hi body s).
Proof.
  intros H. unfold for_range.
  replace (S hi - lo)%nat with (S (hi - lo)) by lia.
  rewrite seq_S, foldl_app. simpl. do 2 f_equal. lia.
Qed.

Lemma for_range_invariant {St : Type} (P : nat -> St -> Prop)
    (lo hi : nat) (body : nat -> St -> St) (s : St) :
  (lo <= hi)%nat -> P lo s ->
  (forall j st, (lo <= j < hi)%nat -> P j st -> P (S j) (body j st)) ->
  P hi (for_range lo hi body s).
Proof.
  intros Hle H0 Hstep. induction hi as [|hi IH].
  - assert (lo = 0%nat) as -> by lia. exact H0.
  - destruct (decide (lo = S hi)) as [->|Hne].
    + unfold for_range. by rewrite Nat.sub_diag.
    + rewrite for_range_S by lia. apply Hstep; [lia|].
      apply IH; [lia|]. intros j st Hj. apply Hstep. lia.
Qed.

Lemma for_loop_invariant {St : Type} (P : nat -> St -> Prop)
    (n : nat) (body : nat -> St -> St) (s : St) :
  P 0%nat s ->
  (forall i st, (i < n)%nat -> P i st -> P (S i) (body i st)) ->
  P n (for_loop n body s).
Proof.
  intros H0 Hstep. induction n as [|n IH]; [exact H0|].
  rewrite for_loop_S. apply Hstep; [lia|].
  apply IH. intros i st Hi. apply Hstep. lia.
Qed.

Lemma zeros_square (n : nat) : square n (zeros n).
Proof.
  unfold square, zeros. split; [apply length_replicate|].
  apply Forall_replicate. apply length_replicate.
Qed.

Lemma mget_zeros (n i j : nat) : mget (zeros n) i j = 0.
Proof.
  unfold mget, zeros.
  assert (Hrow : forall k b, nth b (replicate k 0) 0 = 0).
  { induction k as [|k IH]; intros [|b]; simpl; auto. }
  destruct (decide (i < n)%nat) as [Hi|Hi].
  - rewrite (nth_lookup_Some _ _ _ (replicate n 0)); [apply Hrow|].
    by apply lookup_replicate_2.
  - rewrite (nth_overflow (replicate n (replicate n 0))).
    + by destruct j.
    + rewrite length_replicate. lia.
Qed.

Lemma mset_square (n : nat) (m : list (list R)) (i j : nat) (c : R) :
  square n m -> square n (mset m i j c).
Proof.
  intros [Hlen Hrows]. unfold mset. split; [by rewrite length_alter|].
  apply Forall_lookup. intros a row Ha.
  destruct (decide (a = i)) as [->|Hne].
  - rewrite list_lookup_alter_eq in Ha.
    destruct (m !! i) as [r|] eqn:E; simpl in Ha; [|done].
    injection Ha as <-. rewrite length_insert.
    by eapply (Forall_lookup_1 _ _ _ _ Hrows).
  - rewrite list_lookup_alter_ne in Ha by done.
    by eapply (Forall_lookup_1 _ _ _ _ Hrows).
Qed.

Lemma mget_mset (n : nat) (m : list (list R)) (i j a b : nat) (c : R) :
  square n m -> (i < n)%nat -> (j < n)%nat ->
  mget (mset m i j c) a b
  = if decide (a = i /\ b = j) then c else mget m a b.
Proof.
  intros [Hlen Hrows] Hi Hj. unfold mget, mset.
  destruct (decide (a = i)) as [->|Hne].
  - destruct (lookup_lt_is_Some_2 m i) as [row Hrow]; [lia|].
    assert (Hr : length row = n) by by eapply (Forall_lookup_1 _ _ _ _ Hrows).
    rewrite (nth_lookup_Some _ _ _ (<[j := c]> row)).
    2:{ by rewrite list_lookup_alter_eq, Hrow. }
    rewrite (nth_lookup_Some _ _ _ row Hrow).
    destruct (decide (b = j)) as [->|Hbj].
    + rewrite decide_True by done.
      apply nth_lookup_Some. apply list_lookup_insert_eq. lia.
    + rewrite decide_False by tauto.
      by rewrite !nth_lookup, list_lookup_insert_ne.
  - rewrite decide_False by tauto.
    by rewrite !(nth_lookup _ a), list_lookup_alter_ne.
Qed.

(** The double loop of [covarianceMatrix] writes [f i j] at [(i, j)] and
    at [(j, i)] for every [i <= j < n]; for a symmetric [f] the matrix it
    leaves holds [f a b] at every position. *)
Lemma fill_symmetric (n : nat) (f : nat -> nat -> R) (m0 : list (list R)) :
  square n m0 -> (forall i j, f i j = f j i) ->
  let m := for_loop n (fun i m =>
             for_range i n (fun j m => mset (mset m i j (f i j)) j i (f i j)) m) m0 in
  square n m /\ forall a b, (a < n)%nat -> (b < n)%nat -> mget m a b = f a b.
Proof.
  intros Hsq Hsym m.
  pose (P := fun (i : nat) (m : list (list R)) =>
    square n m /\
    forall a b, (a < n)%nat -> (b < n)%nat -> (a < i \/ b < i)%nat ->
                mget m a b = f a b).
  assert (HP : P n m).
  { apply (for_loop_invariant P).
    - split; [done|]. intros a b _ _ [?|?]; lia.
    - intros i mi Hi [Hsqi Hdone].
      pose (Q := fun (j : nat) (m : list (list R)) =>
        square n m /\
        (forall a b, (a < n)%nat -> (b < n)%nat -> (a < i \/ b < i)%nat ->
                     mget m a b = f a b) /\
        (forall b, (i <= b < j)%nat ->
                   mget m i b = f i b /\ mget m b i = f b i)).
      assert (HQ : Q n (for_range i n
                (fun j m => mset (mset m i j (f i j)) j i (f i j)) mi)).
      { apply (for_range_invariant Q); [lia | |].
        - split; [done|]. split; [done|]. intros b ?; lia.
        - intros j mj Hj (Hsqj & Hold & Hrow).
          assert (Hsq1 : square n (mset mj i j (f i j))) by by apply mset_square.
          split; [by apply mset_square|]. split.
          + intros a b Ha Hb Hab.
            rewrite (mget_mset n), (mget_mset n) by (done || lia).
            rewrite !decide_False by lia. by apply Hold.
          + intros b Hb.
            rewrite !(mget_mset n _ j i), !(mget_mset n _ i j) by (done || lia).
            destruct (decide (b = j)) as [->|Hbj].
            * split; repeat case_decide; done || lia || by rewrite (Hsym j i).
            * rewrite !decide_False by lia. apply Hrow. lia. }
      destruct HQ as (Hsqn & Hold & Hrow). split; [done|].
      intros a b Ha Hb Hab.
      destruct (decide (a < i \/ b < i)%nat) as [Hlt|Hge]; [by apply Hold|].
      destruct (decide (a = i)) as [->|Hai].
      * apply Hrow. lia.
      * assert (b = i) as -> by lia. apply Hrow. lia. }
  destruct HP as [Hsqn Hall]. split; [done|].
  intros a b Ha Hb. apply Hall; (done || lia).
Qed.

(** The double loop of [correlationFromCov] writes [f i j] at [(i, j)]
    for every [i, j < n]. *)
Lemma fill_all (n : nat) (f : nat -> nat -> R) (m0 : list (list R)) :
  square n m0 ->
  let m := for_loop n (fun i m =>
             for_loop n (fun j m => mset m i j (f i j)) m) m0 in
  square n m /\ forall a b, (a < n)%nat -> (b < n)%nat -> mget m a b = f a b.
Proof.
  intros Hsq m.
  pose (P := fun (i : nat) (m : list (list R)) =>
    square n m /\
    forall a b, (a < i)%nat -> (b < n)%nat -> mget m a b = f a b).
  assert (HP : P n m).
  { apply (for_loop_invariant P).
    - split; [done|]. intros a b ?; lia.
    - intros i mi Hi [Hsqi Hdone].
      pose (Q := fun (j : nat) (m : list (list R)) =>
        square n m /\
        (forall a b, (a < i)%nat -> (b < n)%nat -> mget m a b = f a b) /\
        (forall b, (b < j)%nat -> mget m i b = f i b)).
      assert (HQ : Q n (for_loop n (fun j m => mset m i j (f i j)) mi)).
      { apply (for_loop_invariant Q).
        - split; [done|]. split; [done|]. intros b ?; lia.
        - intros j mj Hj (Hsqj & Hold & Hrow).
          split; [by apply mset_square|]. split.
          + intros a b Ha Hb. rewrite (mget_mset n) by done.
            rewrite decide_False by lia. by apply Hold.
          + intros b Hb. rewrite (mget_mset n) by done.
            case_decide as Hd; [by destruct Hd as [_ ->]|]. apply Hrow. lia. }
      destruct HQ as (Hsqn & Hold & Hrow). split; [done|].
      intros a b Ha Hb.
      destruct (decide (a = i)) as [->|Hai]; [by apply Hrow|].
      apply Hold; lia. }
  destruct HP as [Hsqn Hall]. split; [done|].
  intros a b Ha Hb. by apply Hall.
Qed.

(** ** Covariance *)

Lemma for_loop_sum (T : nat) (g : nat -> R) :
  for_loop T (fun t acc => acc + g t) 0 = Rsum (g <$> seq 0 T).
Proof.
  induction T as [|T IH]; [done|].
  rewrite for_loop_S, IH, seq_S, fmap_app, Rsum_app.
  change (g <$> [(0 + T)%nat]) with [g T]. rewrite Rsum_cons, Rsum_nil.
  cbv beta. lra.
Qed.

Lemma fmap_seq_zip_with (g : R -> R -> R) (x y : list R) (T : nat) :
  length x = T -> length y = T ->
  (fun t => g (nth t x 0) (nth t y 0)) <$> seq 0 T = zip_with g x y.
Proof.
  intros Hx Hy. apply list_eq. intros t.
  rewrite list_lookup_fmap, lookup_zip_with.
  destruct (decide (t < T)%nat) as [Ht|Ht].
  - rewrite lookup_seq_lt by done. simpl.
    destruct (lookup_lt_is_Some_2 x t) as [a Ha]; [lia|].
    destruct (lookup_lt_is_Some_2 y t) as [b Hb]; [lia|].
    rewrite Ha, Hb. simpl.
    by rewrite (nth_lookup_Some _ _ _ _ Ha), (nth_lookup_Some _ _ _ _ Hb).
  - rewrite lookup_seq_ge by lia. simpl.
    by rewrite (lookup_ge_None_2 x) by lia.
Qed.

Lemma mean_arithmetic (x : list R) :
  (1 <= length x)%nat -> mean x = arithmetic_mean x.
Proof.
  intros H. unfold mean, arithmetic_mean. rewrite reduce_sum_Rsum.
  apply le_INR in H. simpl in H. by rewrite Rmax_right.
Qed.

Lemma cov_entry_sym (seriesByAsset : list (list R)) (T i j : nat) :
  cov_entry seriesByAsset T i j = cov_entry seriesByAsset T j i.
Proof.
  unfold cov_entry. f_equal. apply for_loop_ext. intros t acc _. lra.
Qed.

Lemma cov_entry_sample (seriesByAsset : list (list R)) (T i j : nat) (x y : list R) :
  (1 <= T)%nat -> length x = T -> length y = T ->
  seriesByAsset !! i = Some x -> seriesByAsset !! j = Some y ->
  cov_entry seriesByAsset T i j = sample_covariance x y.
Proof.
  intros HT Hx Hy Hi Hj. unfold cov_entry, sample_covariance, mget.
  rewrite !(nth_lookup_Some _ _ _ _ Hi), !(nth_lookup_Some _ _ _ _ Hj).
  rewrite (nth_lookup_Some (mean <$> seriesByAsset) i 0 (mean x))
    by by rewrite list_lookup_fmap, Hi.
  rewrite (nth_lookup_Some (mean <$> seriesByAsset) j 0 (mean y))
    by by rewrite list_lookup_fmap, Hj.
  rewrite !mean_arithmetic by lia. rewrite Hx. f_equal.
  rewrite (for_loop_sum T (fun t =>
     (nth t x 0 - arithmetic_mean x) * (nth t y 0 - arithmetic_mean y))).
  by rewrite (fmap_seq_zip_with
     (fun a b => (a - arithmetic_mean x) * (b - arithmetic_mean y)) x y T).
Qed.

Lemma cov_entry_diag_nonneg (seriesByAsset : list (list R)) (T i : nat) :
  (2 <= T)%nat -> 0 <= cov_entry seriesByAsset T i i.
Proof.
  intros HT. unfold cov_entry. apply Rdiv_nonneg.
  - apply (for_loop_invariant (fun _ acc => 0 <= acc)); [lra|].
    intros t acc _ Hacc. cbv beta.
    apply Rplus_le_le_0_compat; [done | apply Rle_0_sqr].
  - pose proof (length_two_INR _ HT). lra.
Qed.

(** The loops of [covarianceMatrix], once [T >= 2]. *)
Lemma covarianceMatrix_entries (s : list R) (rest : list (list R)) :
  (2 <= length s)%nat ->
  let seriesByAsset := s :: rest in
  let n := length seriesByAsset in
  square n (covarianceMatrix seriesByAsset) /\
  forall a b, (a < n)%nat -> (b < n)%nat ->
    mget (covarianceMatrix seriesByAsset) a b
    = cov_entry seriesByAsset (length s) a b.
Proof.
  intros HT seriesByAsset n. unfold covarianceMatrix.
  change (match seriesByAsset with [] => 0%nat | s0 :: _ => length s0 end)
    with (length s).
  rewrite decide_False by lia.
  apply (fill_symmetric n (cov_entry seriesByAsset (length s))).
  - apply zeros_square.
  - apply cov_entry_sym.
Qed.

Lemma covarianceMatrix_short (seriesByAsset : list (list R)) :
  (match seriesByAsset with [] => 0%nat | s :: _ => length s end < 2)%nat ->
  covarianceMatrix seriesByAsset = zeros (length seriesByAsset).
Proof. intros H. unfold covarianceMatrix. by rewrite decide_True. Qed.

(** C8.  For [n] series all of length [T], [covarianceMatrix] returns an
    [n] by [n] matrix; when [T >= 2] its entry [(i, j)] is the unbiased
    sample covariance (divisor [T - 1]) of series [i] and [j]; the matrix
    is symmetric, its diagonal is [>= 0], and when [T < 2] it is the
    [n] by [n] zero matrix. *)
Theorem C8_covariance (seriesByAsset : list (list R)) (T : nat) :
  Forall (fun s => length s = T) seriesByAsset ->
  let n := length seriesByAsset in
  let cov := covarianceMatrix seriesByAsset in
  square n cov /\
  ((2 <= T)%nat -> forall i j x y,
      seriesByAsset !! i = Some x -> seriesByAsset !! j = Some y ->
      mget cov i j = sample_covariance x y) /\
  (forall i j, (i < n)%nat -> (j < n)%nat -> mget cov i j = mget cov j i) /\
  (forall i, (i < n)%nat -> 0 <= mget cov i i) /\
  ((T < 2)%nat -> cov = zeros n).
Proof.
  intros Hal n cov.
  destruct (decide (T < 2)%nat) as [Hlt|Hge].
  - assert (Hz : cov = zeros n).
    { destruct seriesByAsset as [|s rest]; [reflexivity|].
      apply covarianceMatrix_short. apply Forall_cons in Hal as [-> _]. done. }
    rewrite Hz. split; [apply zeros_square|]. split; [lia|].
    split; [intros; by rewrite !mget_zeros|].
    split; [intros; rewrite mget_zeros; lra | done].
  - destruct seriesByAsset as [|s rest].
    { subst n. split; [apply zeros_square|]. split; [by intros _ i j x y Hi|].
      split; [intros i j Hi; simpl in Hi; lia|].
      split; [intros i Hi; simpl in Hi; lia | lia]. }
    pose proof Hal as Hal'. apply Forall_cons in Hal' as [Hs _].
    destruct (covarianceMatrix_entries s rest) as [Hsq Hent]; [lia|].
    fold n cov in Hsq, Hent. rewrite Hs in Hent.
    split; [done|]. split; [|split; [|split; [|lia]]].
    + intros _ i j x y Hi Hj.
      rewrite Hent by (eapply lookup_lt_Some; eassumption).
      rewrite Forall_lookup in Hal.
      apply (cov_entry_sample _ T i j x y); [lia | | | done | done].
      * by apply (Hal i).
      * by apply (Hal j).
    + intros i j Hi Hj. rewrite !Hent by done. apply cov_entry_sym.
    + intros i Hi. rewrite Hent by done. apply cov_entry_diag_nonneg. lia.
Qed.

Lemma C8_covariance_witness :
  let seriesByAsset := [[1; 2; 3]; [2; 4; 7]] in
  let cov := covarianceMatrix seriesByAsset in
  square 2 cov /\
  ((2 <= 3)%nat -> forall i j x y,
      seriesByAsset !! i = Some x -> seriesByAsset !! j = Some y ->
      mget cov i j = sample_covariance x y) /\
  (forall i j, (i < 2)%nat -> (j < 2)%nat -> mget cov i j = mget cov j i) /\
  (forall i, (i < 2)%nat -> 0 <= mget cov i i) /\
  ((3 < 2)%nat -> cov = zeros 2).
Proof.
  apply (C8_covariance [[1; 2; 3]; [2; 4; 7]] 3%nat).
  repeat constructor.
Defined.

(** ** Correlation *)

Lemma js_or_zero (x : R) : js_or x 0 = x.
Proof. unfold js_or. by case_decide. Qed.

Lemma correlationFromCov_entries (n : nat) (cov : list (list R)) :
  length cov = n ->
  square n (correlationFromCov cov) /\
  forall i j, (i < n)%nat -> (j < n)%nat ->
    mget (correlationFromCov cov) i j = corr_entry cov i j.
Proof.
  intros <-. unfold correlationFromCov.
  apply (fill_all (length cov) (corr_entry cov)). apply zeros_square.
Qed.

Lemma diagFromCov_nth (cov : list (list R)) (i : nat) :
  (i < length cov)%nat ->
  nth i (diagFromCov cov) 0 = sqrt (Rmax 0 (mget cov i i)).
Proof.
  intros Hi. destruct (lookup_lt_is_Some_2 cov i Hi) as [row Hrow].
  unfold diagFromCov, mget. rewrite (nth_lookup_Some _ _ _ row Hrow).
  apply nth_lookup_Some. by rewrite list_lookup_imap, Hrow.
Qed.

Lemma sqrt_Rmax_0 (x : R) : sqrt (Rmax 0 x) = sqrt x.
Proof.
  destruct (Rle_dec 0 x) as [H|H]; [by rewrite Rmax_right|].
  rewrite Rmax_left by lra. rewrite sqrt_0. symmetry. apply sqrt_neg_0. lra.
Qed.

Lemma corr_entry_sd (cov : list (list R)) (i j : nat) :
  (i < length cov)%nat -> (j < length cov)%nat ->
  corr_entry cov i j
  = if decide (sqrt (mget cov i i) * sqrt (mget cov j j) > 0)
    then mget cov i j / (sqrt (mget cov i i) * sqrt (mget cov j j)) else 0.
Proof.
  intros Hi Hj. unfold corr_entry.
  by rewrite !js_or_zero, !diagFromCov_nth, !sqrt_Rmax_0.
Qed.

(** A ratio whose square is bounded by the square of its denominator. *)
Lemma ratio_bounds (c p q : R) :
  0 <= p -> 0 <= q -> c * c <= p * q -> 0 < sqrt p * sqrt q ->
  -1 <= c / (sqrt p * sqrt q) <= 1.
Proof.
  intros Hp Hq Hc Hd. set (d := sqrt p * sqrt q) in *.
  assert (Hdd : d * d = p * q).
  { unfold d. pose proof (sqrt_sqrt p Hp). pose proof (sqrt_sqrt q Hq). nra. }
  assert (Hcd : - d <= c <= d) by nra.
  split.
  - apply Rmult_le_reg_r with d; [done|]. unfold Rdiv.
    rewrite Rmult_assoc, Rinv_l by lra. lra.
  - apply Rmult_le_reg_r with d; [done|]. unfold Rdiv.
    rewrite Rmult_assoc, Rinv_l by lra. lra.
Qed.

(** ** Finite sums and quadratic forms *)

Lemma sum_upto_S (n : nat) (f : nat -> R) :
  sum_upto (S n) f = sum_upto n f + f n.
Proof.
  unfold sum_upto. rewrite seq_S, fmap_app, Rsum_app.
  change (f <$> [(0 + n)%nat]) with [f n]. rewrite Rsum_cons, Rsum_nil. lra.
Qed.

Lemma sum_upto_ext (n : nat) (f g : nat -> R) :
  (forall k, (k < n)%nat -> f k = g k) -> sum_upto n f = sum_upto n g.
Proof.
  intros H. induction n as [|n IH]; [done|].
  rewrite !sum_upto_S, IH, (H n) by (intros; try apply H; lia). done.
Qed.

Lemma sum_upto_lin (n : nat) (a b : R) (f g : nat -> R) :
  sum_upto n (fun k => a * f k + b * g k) = a * sum_upto n f + b * sum_upto n g.
Proof.
  induction n as [|n IH]; [unfold sum_upto; simpl; lra|].
  rewrite !sum_upto_S, IH. lra.
Qed.

Lemma sum_upto_nonneg (n : nat) (f : nat -> R) :
  (forall k, (k < n)%nat -> 0 <= f k) -> 0 <= sum_upto n f.
Proof.
  intros H. induction n as [|n IH]; [unfold sum_upto; simpl; lra|].
  rewrite sum_upto_S. assert (0 <= f n) by (apply H; lia).
  assert (0 <= sum_upto n f) by (apply IH; intros k Hk; apply H; lia).
  lra.
Qed.

Lemma sum_upto_delta (n i : nat) (F : nat -> R) :
  (i < n)%nat ->
  sum_upto n (fun k => (if decide (k = i) then 1 else 0) * F k) = F i.
Proof.
  assert (H : forall m, sum_upto m (fun k => (if decide (k = i) then 1 else 0) * F k)
                        = if decide (i < m)%nat then F i else 0).
  { induction m as [|m IH]; [by rewrite decide_False by lia|].
    rewrite sum_upto_S, IH. repeat case_decide; subst; lra || lia. }
  intros Hi. by rewrite H, decide_True.
Qed.

Lemma for_loop_sum_upto (n : nat) (g : nat -> R) :
  for_loop n (fun t acc => acc + g t) 0 = sum_upto n g.
Proof. apply for_loop_sum. Qed.

(** A binary quadratic form that is never negative has a non-positive
    discriminant and non-negative square coefficients. *)
Lemma nonneg_form_discriminant (p q c : R) :
  (forall a b, 0 <= a * a * p + 2 * (a * b * c) + b * b * q) ->
  0 <= p /\ 0 <= q /\ c * c <= p * q.
Proof.
  intros H.
  assert (Hp : 0 <= p) by (pose proof (H 1 0); lra).
  assert (Hq : 0 <= q) by (pose proof (H 0 1); lra).
  split; [done|]. split; [done|].
  destruct (Req_dec q 0) as [Hq0|Hq0].
  - pose proof (H (2 * c) (- (p + 1))) as H1. rewrite Hq0 in *.
    assert (c * c <= 0) by nra. nra.
  - pose proof (H q (- c)) as H1.
    assert (0 <= q * (p * q - c * c)) by nra.
    assert (0 < q) by lra. nra.
Qed.

Lemma foldl_imap_pair (h : nat -> R -> R) (row : list R) (a : R) :
  foldl (fun acc jx => acc + h jx.1 jx.2) a (imap pair row)
  = a + Rsum (imap h row).
Proof.
  assert (H : forall (k : nat -> nat) a,
    foldl (fun acc jx => acc + h jx.1 jx.2) a (imap (fun i x => (k i, x)) row)
    = a + Rsum (imap (fun i x => h (k i) x) row)).
  { induction row as [|x l IH]; intros k a0; [simpl; lra|].
    rewrite !imap_cons, Rsum_cons. unfold compose. simpl.
    rewrite (IH (fun i => k (S i))). lra. }
  apply (H (fun i => i)).
Qed.

Lemma imap_fmap_seq (h : nat -> R -> R) (row : list R) :
  imap h row = (fun l => h l (nth l row 0)) <$> seq 0 (length row).
Proof.
  apply list_eq. intros l. rewrite list_lookup_imap, list_lookup_fmap.
  destruct (row !! l) as [x|] eqn:E.
  - rewrite lookup_seq_lt by by eapply lookup_lt_Some.
    simpl. by rewrite (nth_lookup_Some _ _ _ _ E).
  - rewrite lookup_seq_ge; [done|]. by apply lookup_ge_None.
Qed.

Lemma dot_sum_upto (a b : list R) :
  dot a b = sum_upto (length a) (fun k => nth k a 0 * nth k b 0).
Proof. unfold dot. apply for_loop_sum_upto. Qed.

Lemma matVec_nth (n : nat) (m : list (list R)) (v : list R) (k : nat) :
  square n m -> (k < n)%nat ->
  nth k (matVec m v) 0 = sum_upto n (fun l => mget m k l * nth l v 0).
Proof.
  intros [Hlen Hrows] Hk.
  destruct (lookup_lt_is_Some_2 m k) as [row Hrow]; [lia|].
  assert (Hr : length row = n) by by eapply (Forall_lookup_1 _ _ _ _ Hrows).
  unfold matVec, mget. rewrite (nth_lookup_Some _ _ _ row Hrow).
  erewrite nth_lookup_Some; [|by rewrite list_lookup_fmap, Hrow].
  rewrite (foldl_imap_pair (fun j x => x * nth j v 0)), imap_fmap_seq, Hr.
  unfold sum_upto. lra.
Qed.

Lemma two_point_length (n i j : nat) (a b : R) : length (two_point n i j a b) = n.
Proof. unfold two_point. by rewrite length_fmap, length_seq. Qed.

Lemma two_point_nth (n i j : nat) (a b : R) (k : nat) :
  (k < n)%nat ->
  nth k (two_point n i j a b) 0
  = a * (if decide (k = i) then 1 else 0) + b * (if decide (k = j) then 1 else 0).
Proof.
  intros Hk. apply nth_lookup_Some. unfold two_point.
  by rewrite list_lookup_fmap, lookup_seq_lt.
Qed.

Lemma sum_upto_two_point (n i j : nat) (a b : R) (F : nat -> R) :
  (i < n)%nat -> (j < n)%nat ->
  sum_upto n (fun k => F k * nth k (two_point n i j a b) 0) = a * F i + b * F j.
Proof.
  intros Hi Hj.
  rewrite (sum_upto_ext n _ (fun k =>
      a * ((if decide (k = i) then 1 else 0) * F k)
      + b * ((if decide (k = j) then 1 else 0) * F k))).
  - by rewrite sum_upto_lin, !sum_upto_delta.
  - intros k Hk. rewrite two_point_nth by done. lra.
Qed.

(** The quadratic form of a square matrix at a two-point vector. *)
Lemma quadratic_form_two_point (n : nat) (m : list (list R)) (i j : nat) (a b : R) :
  square n m -> (i < n)%nat -> (j < n)%nat ->
  dot (two_point n i j a b) (matVec m (two_point n i j a b))
  = a * (a * mget m i i + b * mget m i j)
    + b * (a * mget m j i + b * mget m j j).
Proof.
  intros Hsq Hi Hj. rewrite dot_sum_upto, two_point_length.
  rewrite (sum_upto_ext n _ (fun k =>
      (a * mget m k i + b * mget m k j) * nth k (two_point n i j a b) 0)).
  - by rewrite (sum_upto_two_point n i j a b
                  (fun k => a * mget m k i + b * mget m k j)).
  - intros k Hk. rewrite (matVec_nth n) by done.
    rewrite (sum_upto_two_point n i j a b (fun l => mget m k l)) by done. lra.
Qed.

(** What the proof of the correlation bounds uses of a covariance
    matrix: a non-negative diagonal and the Cauchy-Schwarz inequality. *)
Lemma covariance_matrix_cauchy_schwarz (n : nat) (cov : list (list R)) (i j : nat) :
  covariance_matrix n cov -> (i < n)%nat -> (j < n)%nat ->
  0 <= mget cov i i /\ 0 <= mget cov j j /\
  mget cov i j * mget cov i j <= mget cov i i * mget cov j j.
Proof.
  intros (Hsq & Hsym & Hpsd) Hi Hj. apply nonneg_form_discriminant.
  intros a b. specialize (Hpsd (two_point n i j a b) (two_point_length _ _ _ _ _)).
  rewrite (quadratic_form_two_point n) in Hpsd by done.
  rewrite (Hsym j i) in Hpsd by done. lra.
Qed.

Lemma sum_upto_0 (f : nat -> R) : sum_upto 0 f = 0.
Proof. reflexivity. Qed.

Lemma sum_upto_scal (n : nat) (c : R) (f : nat -> R) :
  sum_upto n (fun k => c * f k) = c * sum_upto n f.
Proof.
  induction n as [|n IH]; [rewrite !sum_upto_0; lra|].
  rewrite !sum_upto_S, IH. lra.
Qed.

Lemma sum_upto_plus (n : nat) (f g : nat -> R) :
  sum_upto n (fun k => f k + g k) = sum_upto n f + sum_upto n g.
Proof.
  induction n as [|n IH]; [rewrite !sum_upto_0; lra|].
  rewrite !sum_upto_S, IH. lra.
Qed.

Lemma sum_upto_zero (n : nat) : sum_upto n (fun _ => 0) = 0.
Proof.
  induction n as [|n IH]; [apply sum_upto_0|]. rewrite sum_upto_S, IH. lra.
Qed.

Lemma sum_upto_swap (n m : nat) (f : nat -> nat -> R) :
  sum_upto n (fun k => sum_upto m (fun l => f k l))
  = sum_upto m (fun l => sum_upto n (fun k => f k l)).
Proof.
  induction n as [|n IH].
  - rewrite sum_upto_0. symmetry. rewrite <- (sum_upto_zero m).
    apply sum_upto_ext. intros l _. apply sum_upto_0.
  - rewrite sum_upto_S, IH, <- sum_upto_plus.
    apply sum_upto_ext. intros l _. by rewrite sum_upto_S.
Qed.

Lemma sum_upto_square (n : nat) (f : nat -> R) :
  sum_upto n f * sum_upto n f
  = sum_upto n (fun k => sum_upto n (fun l => f k * f l)).
Proof.
  rewrite <- sum_upto_scal. apply sum_upto_ext. intros k _.
  rewrite Rmult_comm. by rewrite <- sum_upto_scal.
Qed.

(** The Cauchy-Schwarz inequality for finite sums. *)
Lemma sum_upto_cauchy_schwarz (n : nat) (f g : nat -> R) :
  sum_upto n (fun t => f t * g t) * sum_upto n (fun t => f t * g t)
  <= sum_upto n (fun t => f t * f t) * sum_upto n (fun t => g t * g t).
Proof.
  apply nonneg_form_discriminant. intros a b.
  assert (H : 0 <= sum_upto n (fun t => (a * f t + b * g t) * (a * f t + b * g t))).
  { apply sum_upto_nonneg. intros t _. apply Rle_0_sqr. }
  rewrite (sum_upto_ext n _ (fun t =>
      (a * a) * (f t * f t)
      + (2 * (a * b) * (f t * g t) + (b * b) * (g t * g t)))) in H
    by (intros; lra).
  rewrite sum_upto_plus, sum_upto_scal, sum_upto_plus, !sum_upto_scal in H. lra.
Qed.

Lemma dot_matVec_sum_upto (n : nat) (m : list (list R)) (v : list R) :
  square n m -> length v = n ->
  dot v (matVec m v)
  = sum_upto n (fun k => sum_upto n (fun l => nth k v 0 * (mget m k l * nth l v 0))).
Proof.
  intros Hsq Hv. rewrite dot_sum_upto, Hv. apply sum_upto_ext. intros k Hk.
  by rewrite (matVec_nth n), sum_upto_scal.
Qed.

Lemma zeros_covariance_matrix (n : nat) : covariance_matrix n (zeros n).
Proof.
  split; [apply zeros_square|]. split; [intros; by rewrite !mget_zeros|].
  intros v Hv. rewrite (dot_matVec_sum_upto n) by (done || apply zeros_square).
  apply sum_upto_nonneg. intros k _. apply sum_upto_nonneg. intros l _.
  rewrite mget_zeros, Rmult_0_l, Rmult_0_r. lra.
Qed.

(** A weighted double sum of products of deviations is a sum of squares. *)
Lemma gram_form_nonneg (n T : nat) (v : nat -> R) (d : nat -> nat -> R) (c : R) :
  0 <= c ->
  0 <= sum_upto n (fun k => sum_upto n (fun l =>
         v k * (sum_upto T (fun t => d k t * d l t) * c * v l))).
Proof.
  intros Hc.
  pose (w := fun t => sum_upto n (fun k => v k * d k t)).
  assert (Heq :
    sum_upto n (fun k => sum_upto n (fun l =>
       v k * (sum_upto T (fun t => d k t * d l t) * c * v l)))
    = c * sum_upto T (fun t => w t * w t)).
  { transitivity (c * sum_upto n (fun k => sum_upto n (fun l =>
        sum_upto T (fun t => (v k * d k t) * (v l * d l t))))).
    - rewrite <- sum_upto_scal. apply sum_upto_ext. intros k _.
      rewrite <- sum_upto_scal. apply sum_upto_ext. intros l _.
      rewrite (sum_upto_ext T (fun t => (v k * d k t) * (v l * d l t))
                 (fun t => (v k * v l) * (d k t * d l t)))
        by (intros; ring).
      rewrite sum_upto_scal. ring.
    - f_equal. symmetry. unfold w.
      transitivity (sum_upto T (fun t => sum_upto n (fun k => sum_upto n (fun l =>
                      (v k * d k t) * (v l * d l t))))).
      { apply sum_upto_ext. intros t _.
        apply (sum_upto_square n (fun k => v k * d k t)). }
      rewrite (sum_upto_swap T n). apply sum_upto_ext. intros k _.
      apply (sum_upto_swap T n). }
  rewrite Heq. apply Rmult_le_pos; [done|].
  apply sum_upto_nonneg. intros t _. apply Rle_0_sqr.
Qed.

Lemma cov_entry_sum_upto (seriesByAsset : list (list R)) (T i j : nat) :
  cov_entry seriesByAsset T i j
  = sum_upto T (fun t =>
        (mget seriesByAsset i t - nth i (mean <$> seriesByAsset) 0)
        * (mget seriesByAsset j t - nth j (mean <$> seriesByAsset) 0))
    * / (INR T - 1).
Proof. unfold cov_entry. by rewrite for_loop_sum_upto. Qed.

(** What [covarianceMatrix] returns is a covariance matrix. *)
Lemma covarianceMatrix_covariance_matrix (seriesByAsset : list (list R)) :
  covariance_matrix (length seriesByAsset) (covarianceMatrix seriesByAsset).
Proof.
  destruct seriesByAsset as [|s rest]; [apply (zeros_covariance_matrix 0)|].
  destruct (decide (length s < 2)%nat) as [Hlt|Hge].
  { rewrite covarianceMatrix_short by done. apply zeros_covariance_matrix. }
  destruct (covarianceMatrix_entries s rest) as [Hsq Hent]; [lia|].
  split; [done|]. split.
  - intros i j Hi Hj. rewrite !Hent by done. apply cov_entry_sym.
  - intros v Hv. rewrite (dot_matVec_sum_upto (length (s :: rest))) by done.
    erewrite sum_upto_ext.
    + apply (gram_form_nonneg _ (length s) (fun k => nth k v 0)
               (fun k t => mget (s :: rest) k t - nth k (mean <$> s :: rest) 0)
               (/ (INR (length s) - 1))).
      apply Rlt_le, Rinv_0_lt_compat.
      assert (2 <= length s)%nat as H%length_two_INR by lia. lra.
    + intros k Hk. apply sum_upto_ext. intros l Hl. cbv beta.
      by rewrite Hent, cov_entry_sum_upto.
Qed.

(** An entry of the correlation matrix is in range as soon as the
    Cauchy-Schwarz inequality holds for the covariance entry. *)
Lemma corr_entry_in_range (cov : list (list R)) (i j : nat) :
  (i < length cov)%nat -> (j < length cov)%nat ->
  0 <= mget cov i i -> 0 <= mget cov j j ->
  mget cov i j * mget cov i j <= mget cov i i * mget cov j j ->
  -1 <= corr_entry cov i j <= 1.
Proof.
  intros Hi Hj Hp Hq Hcs. rewrite corr_entry_sd by done.
  case_decide as Hd; [|lra]. apply ratio_bounds; (done || lra).
Qed.

(** C2.  For a covariance matrix (square, symmetric, positive
    semidefinite) every entry of [correlationFromCov] lies in [[-1, 1]];
    it is 0 when one of the two standard deviations (square roots of the
    diagonal entries) is 0, and it is [cov(i,j) / (sd(i) * sd(j))] when
    that product is positive. *)
Theorem C2_correlation_bounds (n : nat) (cov : list (list R)) :
  covariance_matrix n cov ->
  let corr := correlationFromCov cov in
  let sd := fun i => sqrt (mget cov i i) in
  square n corr /\
  forall i j, (i < n)%nat -> (j < n)%nat ->
    -1 <= mget corr i j <= 1 /\
    (sd i = 0 \/ sd j = 0 -> mget corr i j = 0) /\
    (0 < sd i * sd j -> mget corr i j = mget cov i j / (sd i * sd j)).
Proof.
  intros Hcov corr sd. pose proof Hcov as ([Hlen Hrows] & _ & _).
  destruct (correlationFromCov_entries n cov Hlen) as [Hsq Hent].
  split; [done|]. intros i j Hi Hj. unfold corr. rewrite Hent by done.
  destruct (covariance_matrix_cauchy_schwarz n cov i j Hcov Hi Hj)
    as (Hp & Hq & Hcs).
  split; [apply corr_entry_in_range; (done || lia)|].
  rewrite corr_entry_sd by lia. fold (sd i) (sd j). split.
  - intros Hz. rewrite decide_False; [done|]. destruct Hz as [-> | ->]; lra.
  - intros Hd. by rewrite decide_True by lra.
Qed.

Lemma C2_correlation_bounds_witness :
  let cov := [[4; 2]; [2; 9]] in
  let corr := correlationFromCov cov in
  let sd := fun i => sqrt (mget cov i i) in
  square 2 corr /\
  forall i j, (i < 2)%nat -> (j < 2)%nat ->
    -1 <= mget corr i j <= 1 /\
    (sd i = 0 \/ sd j = 0 -> mget corr i j = 0) /\
    (0 < sd i * sd j -> mget corr i j = mget cov i j / (sd i * sd j)).
Proof.
  apply (C2_correlation_bounds 2 [[4; 2]; [2; 9]]).
  split; [|split].
  - split; [reflexivity | repeat constructor].
  - intros [|[|i]] [|[|j]] Hi Hj; reflexivity || lia.
  - intros [|a [|b [|c v]]] Hv; try discriminate Hv.
    unfold dot, matVec, for_loop. simpl. nra.
Defined.

(** The same bounds along the pipeline of the application, which feeds
    [correlationFromCov] with the result of [covarianceMatrix]. *)
Corollary correlation_of_covarianceMatrix (seriesByAsset : list (list R)) (i j : nat) :
  (i < length seriesByAsset)%nat -> (j < length seriesByAsset)%nat ->
  -1 <= mget (correlationFromCov (covarianceMatrix seriesByAsset)) i j <= 1.
Proof.
  intros Hi Hj.
  pose proof (covarianceMatrix_covariance_matrix seriesByAsset) as Hcov.
  pose proof Hcov as ([Hlen _] & _ & _).
  destruct (correlationFromCov_entries _ _ Hlen) as [_ Hent].
  destruct (covariance_matrix_cauchy_schwarz _ _ i j Hcov Hi Hj)
    as (Hp & Hq & Hcs).
  rewrite Hent by done. apply corr_entry_in_range; (done || lia).
Qed.

(** Without positive semidefiniteness the bound is lost: the matrix
    [[1, 5], [5, 1]] has the entry 5. *)
Example correlation_of_indefinite_matrix :
  mget (correlationFromCov [[1; 5]; [5; 1]]) 0 1 = 5.
Proof.
  destruct (correlationFromCov_entries 2 [[1; 5]; [5; 1]] eq_refl) as [_ Hent].
  rewrite Hent by lia. rewrite corr_entry_sd by (simpl; lia).
  change (mget [[1; 5]; [5; 1]] 0 0) with 1.
  change (mget [[1; 5]; [5; 1]] 1 1) with 1.
  change (mget [[1; 5]; [5; 1]] 0 1) with 5.
  rewrite sqrt_1. rewrite decide_True by lra. lra.
Qed.

(** ** Sorting the cloud *)

Lemma insert_by_risk_perm (p : point) (l : list point) :
  insert_by_risk p l ≡ₚ p :: l.
Proof.
  induction l as [|q l IH]; simpl; [done|].
  case_decide; [done|]. rewrite IH. apply Permutation_swap.
Qed.

Lemma sort_by_risk_perm (l : list point) : sort_by_risk l ≡ₚ l.
Proof.
  induction l as [|p l IH]; simpl; [done|].
  by rewrite insert_by_risk_perm, IH.
Qed.

Lemma sort_by_risk_elem (l : list point) (p : point) :
  p ∈ sort_by_risk l <-> p ∈ l.
Proof. by rewrite sort_by_risk_perm. Qed.

Lemma insert_by_risk_sorted (p : point) (l : list point) :
  StronglySorted (fun a b => risk a <= risk b) l ->
  StronglySorted (fun a b => risk a <= risk b) (insert_by_risk p l).
Proof.
  induction 1 as [|q l Hl IH Hq]; simpl; [repeat constructor|].
  case_decide as Hpq.
  - constructor; [by constructor|]. constructor; [done|].
    eapply Forall_impl; [exact Hq|]. intros r Hr. simpl in *. lra.
  - constructor; [done|].
    rewrite insert_by_risk_perm. constructor; [lra | done].
Qed.

Lemma sort_by_risk_sorted (l : list point) :
  StronglySorted (fun a b => risk a <= risk b) (sort_by_risk l).
Proof.
  induction l as [|p l IH]; simpl; [constructor|].
  by apply insert_by_risk_sorted.
Qed.

Lemma sorted_head_least (l : list point) (p q : point) :
  StronglySorted (fun a b => risk a <= risk b) l ->
  head l = Some p -> q ∈ l -> risk p <= risk q.
Proof.
  intros Hs Hh Hq. destruct l as [|p' l]; [done|]. injection Hh as ->.
  apply StronglySorted_cons in Hs as [Hall _].
  apply elem_of_cons in Hq as [->|Hq]; [lra|].
  rewrite Forall_forall in Hall. by apply Hall.
Qed.

Lemma sorted_last_greatest (l : list point) (p q : point) :
  StronglySorted (fun a b => risk a <= risk b) l ->
  last l = Some p -> q ∈ l -> risk q <= risk p.
Proof.
  intros Hs Hl Hq. apply last_Some in Hl as [l' ->].
  apply elem_of_app in Hq as [Hq|Hq].
  - eapply (StronglySorted_app_1_elem_of _ _ _ _ _ Hs); [done|].
    apply list_elem_of_singleton. done.
  - apply list_elem_of_singleton in Hq as ->. lra.
Qed.

(** On a non-empty cloud [minR] and [maxR] are its least and greatest
    risk. *)
Lemma minR_min_risk (cloud : list point) (m : R) :
  min_risk cloud m -> minR (sort_by_risk cloud) = m.
Proof.
  intros [(p & Hp & Hpm) Hmin]. unfold minR.
  destruct (head (sort_by_risk cloud)) as [q|] eqn:Hh.
  - apply Rle_antisym.
    + rewrite <- Hpm.
      apply (sorted_head_least (sort_by_risk cloud)); [|done|].
      * apply sort_by_risk_sorted.
      * by apply sort_by_risk_elem.
    + apply Hmin. apply sort_by_risk_elem. by apply head_Some_elem_of.
  - apply head_None in Hh. apply sort_by_risk_elem in Hp.
    rewrite Hh in Hp. by apply elem_of_nil in Hp.
Qed.

Lemma maxR_max_risk (cloud : list point) (M : R) :
  max_risk cloud M -> maxR (sort_by_risk cloud) = M.
Proof.
  intros [(p & Hp & HpM) Hmax]. unfold maxR.
  destruct (last (sort_by_risk cloud)) as [q|] eqn:Hl.
  - apply Rle_antisym.
    + apply Hmax. apply sort_by_risk_elem. by apply last_Some_elem_of.
    + rewrite <- HpM.
      apply (sorted_last_greatest (sort_by_risk cloud)); [|done|].
      * apply sort_by_risk_sorted.
      * by apply sort_by_risk_elem.
  - apply last_None in Hl. apply sort_by_risk_elem in Hp.
    rewrite Hl in Hp. by apply elem_of_nil in Hp.
Qed.

(** ** The bucket loop *)

Lemma step_nonzero (sorted : list point) : step sorted <> 0.
Proof. unfold step, js_or. case_decide; lra. Qed.

Lemma bestReturn_elem (ps : list point) (first : point) :
  bestReturn first ps = first \/ bestReturn first ps ∈ ps.
Proof.
  unfold bestReturn. revert first.
  induction ps as [|p ps IH]; intros first; simpl; [by left|].
  destruct (IH (if decide (ret p > ret first) then p else first)) as [->|Hin].
  - case_decide; [right; by left | by left].
  - right. by right.
Qed.

Lemma inBucket_elem (sorted : list point) (b : nat) (p : point) :
  p ∈ inBucket sorted b <->
  (minR sorted + INR b * step sorted <= risk p
   < minR sorted + INR b * step sorted + step sorted) /\ p ∈ sorted.
Proof.
  unfold inBucket. rewrite list_elem_of_filter. split.
  - intros [[H1 H2] Hp]. split; [lra | done].
  - intros [[H1 H2] Hp]. split; [split; lra | done].
Qed.

(** One turn of the bucket loop leaves the frontier as it is, or appends
    the entry of a point of the bucket. *)
Lemma bucket_turn (sorted : list point) (b : nat) (fr : list (R * R)) :
  bucketTurn sorted b fr = fr \/
  exists p, p ∈ inBucket sorted b /\
            bucketTurn sorted b fr = fr ++ [(risk p, ret p)].
Proof.
  unfold bucketTurn.
  destruct (inBucket sorted b) as [|first ps] eqn:E; [by left|].
  right. exists (bestReturn first (first :: ps)). split; [|reflexivity].
  destruct (bestReturn_elem (first :: ps) first) as [->|Hin]; [by left | done].
Qed.

(** With a negative width no bucket holds a point. *)
Lemma inBucket_negative_step (sorted : list point) (b : nat) :
  step sorted < 0 -> inBucket sorted b = [].
Proof.
  intros Hs. destruct (inBucket sorted b) as [|p ps] eqn:E; [done|].
  assert (Hp : p ∈ inBucket sorted b) by (rewrite E; by left).
  apply inBucket_elem in Hp as [[H1 H2] _]. lra.
Qed.

(** The frontier is strictly increasing in risk, and each entry lies
    below the upper bound of the last bucket. *)
Lemma frontierOfSorted_increasing (sorted : list point) :
  StronglySorted (fun a b : R * R => a.1 < b.1) (frontierOfSorted sorted) /\
  forall e, e ∈ frontierOfSorted sorted ->
    0 < step sorted /\ e.1 < minR sorted + INR bucketCount * step sorted.
Proof.
  unfold frontierOfSorted.
  apply (for_loop_invariant (fun k fr =>
    StronglySorted (fun a b : R * R => a.1 < b.1) fr /\
    forall e, e ∈ fr ->
      0 < step sorted /\ e.1 < minR sorted + INR k * step sorted)).
  - split; [constructor|]. intros e He. by apply elem_of_nil in He.
  - intros k fr Hk [Hsorted Hbelow].
    destruct (bucket_turn sorted k fr) as [->|(p & Hp & ->)].
    + split; [done|]. intros e He. destruct (Hbelow e He) as [Hpos Hlt].
      split; [done|]. rewrite S_INR. nra.
    + apply inBucket_elem in Hp as [[Hlo Hhi] _].
      assert (Hpos : 0 < step sorted) by lra.
      split.
      * apply StronglySorted_app_2; [|done|repeat constructor].
        intros a c Ha Hc. apply list_elem_of_singleton in Hc as ->. simpl.
        destruct (Hbelow a Ha) as [_ Hlt]. lra.
      * intros e [He|He]%elem_of_app; split; try done.
        -- destruct (Hbelow e He) as [_ Hlt]. rewrite S_INR. nra.
        -- apply list_elem_of_singleton in He as ->. cbn [fst]. rewrite S_INR. lra.
Qed.

Lemma strongly_sorted_consecutive {A : Type} (Rel : relation A) (l : list A)
    (i : nat) (a b : A) :
  StronglySorted Rel l -> l !! i = Some a -> l !! S i = Some b -> Rel a b.
Proof.
  intros Hs Ha Hb. rewrite <- (take_drop (S i) l) in Hs.
  eapply StronglySorted_app_1_elem_of; [exact Hs| |].
  - apply elem_of_take. exists i. split; [done | lia].
  - apply list_elem_of_lookup. exists 0%nat. rewrite lookup_drop.
    by rewrite Nat.add_0_r.
Qed.

Lemma INR_bucketCount : INR bucketCount = 40.
Proof. unfold bucketCount. rewrite INR_IZR_INZ. reflexivity. Qed.

Lemma step_spread (cloud : list point) (m M : R) :
  min_risk cloud m -> max_risk cloud M ->
  step (sort_by_risk cloud) = if decide (M = m) then 1 else (M - m) / 40.
Proof.
  intros Hm HM. unfold step, js_or.
  rewrite (minR_min_risk cloud m Hm), (maxR_max_risk cloud M HM), INR_bucketCount.
  repeat case_decide; try done; exfalso; lra.
Qed.

Lemma strongly_sorted_weaken {A : Type} (R1 R2 : relation A) (l : list A) :
  (forall a b, R1 a b -> R2 a b) -> StronglySorted R1 l -> StronglySorted R2 l.
Proof.
  intros H. induction 1 as [|x l Hl IH Hx]; constructor; [done|].
  eapply Forall_impl; [exact Hx|]. intros y. apply H.
Qed.

(** C5.  In every frontier the risks of consecutive entries, in the order
    in which the bucket loop emits them, are non-decreasing: for the
    frontier built from any cloud, and so for the one returned by
    [generateEfficientFrontier]. *)
Theorem C5_frontier_risk_non_decreasing :
  (forall cloud : list point,
      Sorted (fun a b : R * R => a.1 <= b.1) (frontierOfCloud cloud)) /\
  (forall (nAssets : nat) (muMonthly : list R) (covMonthly : list (list R))
          (points : nat) (seed : Z),
      Sorted (fun a b : R * R => a.1 <= b.1)
        (frontier (generateEfficientFrontier nAssets muMonthly covMonthly
                     points seed))).
Proof.
  assert (H : forall cloud : list point,
      Sorted (fun a b : R * R => a.1 <= b.1) (frontierOfCloud cloud)).
  { intros c. apply StronglySorted_Sorted.
    apply (strongly_sorted_weaken (fun a b : R * R => a.1 < b.1)).
    - intros a b. apply Rlt_le.
    - apply frontierOfSorted_increasing. }
  split; [exact H|]. intros. apply H.
Qed.

(** The frontier returned by [generateEfficientFrontier] is the frontier
    of the cloud it returns. *)
Lemma generateEfficientFrontier_frontier (nAssets : nat) (muMonthly : list R)
    (covMonthly : list (list R)) (points : nat) (seed : Z) :
  let r := generateEfficientFrontier nAssets muMonthly covMonthly points seed in
  frontier r = frontierOfCloud (cloud r).
Proof. reflexivity. Qed.

(** Between consecutive entries the risk even increases strictly. *)
Lemma frontier_consecutive_increasing (cloud : list point) (i : nat) (a b : R * R) :
  frontierOfCloud cloud !! i = Some a ->
  frontierOfCloud cloud !! S i = Some b -> a.1 < b.1.
Proof.
  apply (strongly_sorted_consecutive (fun a b : R * R => a.1 < b.1)).
  apply frontierOfSorted_increasing.
Qed.

Lemma max_risk_outside_buckets (cloud : list point) (m M : R) :
  min_risk cloud m -> max_risk cloud M -> m < M ->
  (forall p b, (b < bucketCount)%nat -> p ∈ inBucket (sort_by_risk cloud) b ->
               risk p < M) /\
  (forall e, e ∈ frontierOfCloud cloud -> e.1 < M).
Proof.
  intros Hm HM Hlt.
  pose proof (step_spread cloud m M Hm HM) as Hstep.
  rewrite decide_False in Hstep by lra.
  pose proof (minR_min_risk cloud m Hm) as HminR.
  split.
  - intros p b Hb [[_ Hhi] _]%inBucket_elem.
    rewrite Hstep, HminR in Hhi.
    assert (Hb1 : INR b + 1 <= 40).
    { apply Nat.le_succ_l, le_INR in Hb.
      rewrite S_INR, INR_bucketCount in Hb. exact Hb. }
    assert (Hd : 0 <= (M - m) / 40) by lra.
    pose proof (Rmult_le_compat_r _ _ _ Hd Hb1) as Hmul. lra.
  - intros e He.
    apply (proj2 (frontierOfSorted_increasing (sort_by_risk cloud))) in He
      as [_ Hbelow].
    rewrite Hstep, HminR, INR_bucketCount in Hbelow. lra.
Qed.

(** C10.  A point is in a bucket only if its risk is strictly below the
    upper bound of the bucket.  Hence, when the cloud is not empty and
    its greatest risk [M] exceeds its least risk [m], a cloud point of
    risk [M] is in none of the buckets, and every entry of the frontier
    has a risk strictly below [M]. *)
Theorem C10_max_risk_excluded (cloud : list point) (m M : R) :
  min_risk cloud m -> max_risk cloud M -> m < M ->
  let sorted := sort_by_risk cloud in
  (forall p b, p ∈ inBucket sorted b ->
     risk p < minR sorted + INR b * step sorted + step sorted) /\
  (forall p b, p ∈ cloud -> risk p = M -> (b < bucketCount)%nat ->
     p ∉ inBucket sorted b) /\
  (forall e, e ∈ frontierOfCloud cloud -> e.1 < M).
Proof.
  intros Hm HM Hlt sorted.
  destruct (max_risk_outside_buckets cloud m M Hm HM Hlt) as [Hout Hfr].
  split; [|split].
  - intros p b Hp. by apply inBucket_elem in Hp as [[_ Hhi] _].
  - intros p b Hp HpM Hb Hin. pose proof (Hout p b Hb Hin). lra.
  - exact Hfr.
Qed.

Lemma C10_max_risk_excluded_witness :
  let cloud := [Point 0.1 0.05 0.15 [1; 0]; Point 0.3 0.08 0.15 [0; 1];
                Point 0.2 0.09 0.275 [0.5; 0.5]] in
  let sorted := sort_by_risk cloud in
  (forall p b, p ∈ inBucket sorted b ->
     risk p < minR sorted + INR b * step sorted + step sorted) /\
  (forall p b, p ∈ cloud -> risk p = 0.3 -> (b < bucketCount)%nat ->
     p ∉ inBucket sorted b) /\
  (forall e, e ∈ frontierOfCloud cloud -> e.1 < 0.3).
Proof.
  apply (C10_max_risk_excluded
           [Point 0.1 0.05 0.15 [1; 0]; Point 0.3 0.08 0.15 [0; 1];
            Point 0.2 0.09 0.275 [0.5; 0.5]] 0.1 0.3).
  - split.
    + exists (Point 0.1 0.05 0.15 [1; 0]). split; [by left | reflexivity].
    + intros p Hp. repeat (apply elem_of_cons in Hp as [->|Hp]; [simpl; lra|]).
      by apply elem_of_nil in Hp.
  - split.
    + exists (Point 0.3 0.08 0.15 [0; 1]). split; [right; by left | reflexivity].
    + intros p Hp. repeat (apply elem_of_cons in Hp as [->|Hp]; [simpl; lra|]).
      by apply elem_of_nil in Hp.
  - lra.
Defined.

(** ** Bucket width *)

Lemma step_empty : step (sort_by_risk []) = 1 / 40.
Proof.
  change (sort_by_risk []) with (@nil point).
  unfold step, minR, maxR, js_or. cbn [head last].
  rewrite INR_bucketCount. case_decide; lra.
Qed.

Lemma bucketTurn_empty (sorted : list point) (b : nat) (fr : list (R * R)) :
  inBucket sorted b = [] -> bucketTurn sorted b fr = fr.
Proof. intros H. unfold bucketTurn. by rewrite H. Qed.

Lemma bucketTurn_nonempty (sorted : list point) (b : nat) (fr : list (R * R)) :
  inBucket sorted b <> [] -> length (bucketTurn sorted b fr) = S (length fr).
Proof.
  intros H. unfold bucketTurn. destruct (inBucket sorted b); [done|].
  rewrite length_app. simpl. lia.
Qed.

Lemma frontier_of_empty_cloud : frontierOfCloud [] = [].
Proof.
  unfold frontierOfSorted.
  apply (for_loop_invariant (fun _ fr => fr = [])); [done|].
  intros b fr _ ->. by apply bucketTurn_empty.
Qed.

(** A non-empty cloud whose risks are all equal ends in the first
    bucket, of width 1. *)
Lemma degenerate_cloud (cloud : list point) (m : R) :
  min_risk cloud m -> max_risk cloud m ->
  step (sort_by_risk cloud) = 1 /\ length (frontierOfCloud cloud) = 1%nat.
Proof.
  intros Hm HM.
  pose proof (step_spread cloud m m Hm HM) as Hstep.
  rewrite decide_True in Hstep by done.
  pose proof (minR_min_risk cloud m Hm) as HminR.
  split; [done|].
  assert (Hall : forall p, p ∈ sort_by_risk cloud -> risk p = m).
  { intros p Hp. apply (proj1 (sort_by_risk_elem cloud p)) in Hp.
    apply Rle_antisym.
    - by apply (proj2 HM).
    - by apply (proj2 Hm). }
  assert (H0 : inBucket (sort_by_risk cloud) 0 <> []).
  { destruct Hm as [(p & Hp & Hpm) _]. intros Hnil.
    assert (Hin : p ∈ inBucket (sort_by_risk cloud) 0).
    { apply inBucket_elem. rewrite Hstep, HminR, Hpm. simpl INR.
      split; [lra | by apply sort_by_risk_elem]. }
    rewrite Hnil in Hin. by apply elem_of_nil in Hin. }
  assert (HS : forall b, inBucket (sort_by_risk cloud) (S b) = []).
  { intros b. destruct (inBucket (sort_by_risk cloud) (S b)) as [|p ps] eqn:E; [done|].
    assert (Hin : p ∈ inBucket (sort_by_risk cloud) (S b)) by (rewrite E; by left).
    apply inBucket_elem in Hin as [[Hlo _] Hp]. apply Hall in Hp.
    rewrite Hstep, HminR, S_INR in Hlo. pose proof (pos_INR b). lra. }
  unfold frontierOfSorted.
  pose (P := fun (k : nat) (fr : list (R * R)) =>
              length fr = if decide (k = 0%nat) then 0%nat else 1%nat).
  assert (Hinv : P bucketCount
            (for_loop bucketCount (bucketTurn (sort_by_risk cloud)) [])).
  { apply (for_loop_invariant P); [done|].
    intros [|b] fr _ Hfr; unfold P in *.
    - rewrite bucketTurn_nonempty by done. by rewrite Hfr.
    - rewrite bucketTurn_empty by apply HS. by rewrite Hfr. }
  exact Hinv.
Qed.

(** C4, as the code has it.  An empty cloud does not take the fallback:
    [minR] and [maxR] default to 0 and 1 and the bucket width is [1/40];
    the frontier is then empty.  A non-empty cloud whose greatest risk
    equals its least risk gives the width 1, and a frontier of one entry.
    In every case the width is not 0, and the function returns. *)
Theorem C4_bucket_width :
  (step (sort_by_risk []) = 1 / 40 /\ frontierOfCloud [] = []) /\
  (forall (cloud : list point) (m : R),
      min_risk cloud m -> max_risk cloud m ->
      step (sort_by_risk cloud) = 1 /\ length (frontierOfCloud cloud) = 1%nat) /\
  (forall cloud : list point, step (sort_by_risk cloud) <> 0).
Proof.
  split; [split; [apply step_empty | apply frontier_of_empty_cloud]|].
  split; [apply degenerate_cloud|]. intros c. apply step_nonzero.
Qed.

Lemma C4_bucket_width_witness :
  let cloud := [Point 0.2 0.05 0.075 [1]; Point 0.2 0.05 0.075 [1]] in
  step (sort_by_risk cloud) = 1 /\ length (frontierOfCloud cloud) = 1%nat.
Proof.
  apply (proj1 (proj2 C4_bucket_width)
           [Point 0.2 0.05 0.075 [1]; Point 0.2 0.05 0.075 [1]] 0.2).
  - split.
    + exists (Point 0.2 0.05 0.075 [1]). split; [by left | reflexivity].
    + intros p Hp. repeat (apply elem_of_cons in Hp as [->|Hp]; [simpl; lra|]).
      by apply elem_of_nil in Hp.
  - split.
    + exists (Point 0.2 0.05 0.075 [1]). split; [by left | reflexivity].
    + intros p Hp. repeat (apply elem_of_cons in Hp as [->|Hp]; [simpl; lra|]).
      by apply elem_of_nil in Hp.
Defined.

(** With [points = 0] the cloud is empty and the bucket width is [1/40],
    not 1. *)
Lemma C4_empty_cloud_counterexample :
  let r := generateEfficientFrontier 2 [0.01; 0.02]
             [[0.0025; 0]; [0; 0.01]] 0 2025 in
  cloud r = [] /\
  step (sort_by_risk (cloud r)) = 1 / 40 /\
  step (sort_by_risk (cloud r)) <> 1.
Proof.
  split; [reflexivity|].
  change (step (sort_by_risk []) = 1 / 40 /\ step (sort_by_risk []) <> 1).
  rewrite step_empty. split; [reflexivity | lra].
Qed.

(** ** CSV ingestion *)

Lemma indexOf_None (header : list jsstring) (name : jsstring) :
  indexOf header name = None <-> name ∉ header.
Proof.
  induction header as [|h rest IH]; simpl.
  - split; [intros _ H; by apply elem_of_nil in H | done].
  - case_decide as Hh.
    + split; [done|]. intros Hn. exfalso. apply Hn. subst. by left.
    + destruct (indexOf rest name) as [i|] eqn:E; simpl.
      * split; [done|]. intros Hn. exfalso.
        destruct (decide (name ∈ rest)) as [Hin|Hout].
        -- apply Hn. by right.
        -- by apply IH in Hout.
      * split; [|done]. intros _ [->|Hin]%elem_of_cons; [done|].
        by apply (proj1 IH).
Qed.

(** The guard on the number of lines comes first. *)
Lemma parse_too_short (toLowerCase : jsstring -> jsstring)
    (Number : jsstring -> option R)
    (localeCompare : jsstring -> jsstring -> Z) (text : jsstring) :
  (length (nonblank_lines text) < 3)%nat ->
  parseCsvOhlcvCloseReturns toLowerCase Number localeCompare text
  = inl CsvTooShort.
Proof.
  intros H. unfold parseCsvOhlcvCloseReturns. by rewrite decide_True.
Qed.

(** C3, as the code has it.  The parser first requires three non-blank
    lines, and fails with the too-short error otherwise.  With at least
    three non-blank lines, a header without a [date] or a [close] cell
    (after trimming and lower-casing) fails with the column-missing
    error; and with both columns present, fewer than 2 data rows with a
    non-empty date and a finite close fail with the too-few-records
    error.  In each of these cases the result is an error and no series
    is returned. *)
Theorem C3_csv_rejection (toLowerCase : jsstring -> jsstring)
    (Number : jsstring -> option R)
    (localeCompare : jsstring -> jsstring -> Z) (text : jsstring) :
  let result := parseCsvOhlcvCloseReturns toLowerCase Number localeCompare text in
  let header := header_cells toLowerCase text in
  ((length (nonblank_lines text) < 3)%nat -> result = inl CsvTooShort) /\
  ((3 <= length (nonblank_lines text))%nat ->
   (units "date" ∉ header) \/ (units "close" ∉ header) ->
   result = inl CsvMissingColumns) /\
  ((3 <= length (nonblank_lines text))%nat ->
   forall dateIdx closeIdx,
     indexOf header (units "date") = Some dateIdx ->
     indexOf header (units "close") = Some closeIdx ->
     (length (rows_of_lines Number dateIdx closeIdx
                (tail (nonblank_lines text))) < 2)%nat ->
     result = inl CsvTooFewRecords).
Proof.
  cbv zeta. split; [apply parse_too_short|]. split.
  - intros Hlen Hcols. unfold parseCsvOhlcvCloseReturns.
    rewrite decide_False by lia. fold (header_cells toLowerCase text).
    destruct Hcols as [H|H]; apply indexOf_None in H; rewrite H; [done|].
    by destruct (indexOf (header_cells toLowerCase text) (units "date")).
  - intros Hlen dateIdx closeIdx Hd Hc Hrows. unfold parseCsvOhlcvCloseReturns.
    rewrite decide_False by lia. fold (header_cells toLowerCase text).
    rewrite Hd, Hc. by rewrite decide_True.
Qed.

Lemma C3_csv_rejection_witness :
  parseCsvOhlcvCloseReturns toLowerCase_ascii decimal_cell compare_codes
    (units "Date,Close" ++ LF ++ units "2024-01,100") = inl CsvTooShort /\
  parseCsvOhlcvCloseReturns toLowerCase_ascii decimal_cell compare_codes
    (units "Date,Open,High,Low,Volume" ++ LF ++ units "2024-01,1,2,3,4" ++ LF
     ++ units "2024-02,1,2,3,5") = inl CsvMissingColumns /\
  parseCsvOhlcvCloseReturns toLowerCase_ascii decimal_cell compare_codes
    (units "Date,Close" ++ LF ++ units "2024-01,100" ++ LF
     ++ units "2024-02,n/a")
  = inl CsvTooFewRecords.
Proof.
  split; [|split].
  - apply (proj1 (C3_csv_rejection toLowerCase_ascii decimal_cell compare_codes
                    (units "Date,Close" ++ LF ++ units "2024-01,100"))).
    vm_compute. lia.
  - apply (proj1 (proj2 (C3_csv_rejection toLowerCase_ascii decimal_cell
                    compare_codes
                    (units "Date,Open,High,Low,Volume" ++ LF
                     ++ units "2024-01,1,2,3,4" ++ LF
                     ++ units "2024-02,1,2,3,5")))).
    + vm_compute. lia.
    + right. apply (bool_decide_unpack _). vm_compute. exact I.
  - apply (proj2 (proj2 (C3_csv_rejection toLowerCase_ascii decimal_cell
                    compare_codes
                    (units "Date,Close" ++ LF ++ units "2024-01,100" ++ LF
                     ++ units "2024-02,n/a"))) ltac:(vm_compute; lia)
             0%nat 1%nat).
    + reflexivity.
    + reflexivity.
    + vm_compute. lia.
Defined.

(** Fewer than three non-blank lines: the too-short error comes first,
    whatever the header, and whatever the number of valid rows. *)
Lemma C3_short_input_counterexample :
  let no_close := units "Date,Open,High,Low,Volume" ++ LF
                  ++ units "2024-01,1,2,3,4" in
  let one_row := units "Date,Close" ++ LF ++ units "2024-01,100" in
  ((units "close" ∉ header_cells toLowerCase_ascii no_close) /\
   parseCsvOhlcvCloseReturns toLowerCase_ascii decimal_cell compare_codes no_close
   <> inl CsvMissingColumns) /\
  (length (rows_of_lines decimal_cell 0 1 (tail (nonblank_lines one_row))) = 1%nat /\
   parseCsvOhlcvCloseReturns toLowerCase_ascii decimal_cell compare_codes one_row
   <> inl CsvTooFewRecords).
Proof.
  split; split.
  - apply (bool_decide_unpack _). vm_compute. exact I.
  - rewrite parse_too_short by (vm_compute; lia). discriminate.
  - reflexivity.
  - rewrite parse_too_short by (vm_compute; lia). discriminate.
Qed.

(** A line of white space outside ASCII is blank as well, and white
    space outside ASCII around a header cell is trimmed: a no-break
    space (U+00A0) and a byte order mark (U+FEFF) as examples. *)
Example parse_unicode_space :
  nonblank_lines (units "Date,Close" ++ LF ++ [160%N] ++ LF
                  ++ units "2024-01,100")
  = [units "Date,Close"; units "2024-01,100"] /\
  header_cells toLowerCase_ascii
    ([65279%N] ++ units "Date," ++ [160%N] ++ units "Close" ++ [160%N] ++ LF)
  = [units "date"; units "close"].
Proof. split; reflexivity. Qed.

(** * Further properties of the code *)

(** ** [normalizeWeightsLongOnly] *)

(** On a vector with at least one entry [normalizeWeightsLongOnly]
    returns a long-only vector of the same length that sums to 1, and
    normalizing that vector again changes nothing. *)
Theorem normalizeWeightsLongOnly_idempotent (w : list R) :
  w <> [] ->
  exists w', normalizeWeightsLongOnly (Some <$> w) = Some <$> w' /\
    length w' = length w /\ Forall (Rle 0) w' /\ Rsum w' = 1 /\
    normalizeWeightsLongOnly (Some <$> w') = Some <$> w'.
Proof.
  intros Hw. exists (normalized w).
  split; [apply normalizeWeightsLongOnly_dense|].
  split; [apply normalized_length|].
  split; [apply normalized_nonneg|].
  split; [by apply normalized_sum|].
  rewrite normalizeWeightsLongOnly_dense. f_equal.
  apply normalized_id; [apply normalized_nonneg | by apply normalized_sum].
Qed.

Lemma normalizeWeightsLongOnly_idempotent_witness :
  exists w', normalizeWeightsLongOnly (Some <$> [3; -1; 1]) = Some <$> w' /\
    length w' = 3%nat /\ Forall (Rle 0) w' /\ Rsum w' = 1 /\
    normalizeWeightsLongOnly (Some <$> w') = Some <$> w'.
Proof. apply (normalizeWeightsLongOnly_idempotent [3; -1; 1]). discriminate. Defined.

Lemma Rsum_clipped_nonpositive (w : list R) :
  Forall (fun x => x <= 0) w -> Rsum (Rmax 0 <$> w) = 0.
Proof.
  induction 1 as [|x l Hx Hl IH]; [done|].
  rewrite fmap_cons, Rsum_cons, IH, Rmax_left by done. lra.
Qed.

Lemma clipped_of_nonneg (w : list R) :
  Forall (Rle 0) w -> Rmax 0 <$> w = w.
Proof.
  intros Hw. rewrite <- (list_fmap_id w) at 2. apply Forall_fmap_ext.
  eapply Forall_impl; [exact Hw|]. intros x Hx. simpl. by apply Rmax_right.
Qed.

(** The two branches of [normalizeWeightsLongOnly]: a vector without a
    positive entry becomes the uniform vector, whatever it held; a
    non-negative vector with a positive sum is divided by its sum, so the
    ratios between its entries are kept. *)
Theorem normalizeWeightsLongOnly_branches (w : list R) :
  (Forall (fun x => x <= 0) w ->
   normalizeWeightsLongOnly (Some <$> w)
   = Some <$> ((fun _ => 1 / INR (length w)) <$> w)) /\
  (Forall (Rle 0) w -> 0 < Rsum w ->
   normalizeWeightsLongOnly (Some <$> w)
   = Some <$> ((fun x => x / Rsum w) <$> w)).
Proof.
  split.
  - intros Hw. rewrite normalizeWeightsLongOnly_dense. f_equal.
    unfold normalized. rewrite (Rsum_clipped_nonpositive w Hw).
    rewrite decide_True by lra. rewrite length_fmap, <- list_fmap_compose.
    by apply list_fmap_ext.
  - intros Hw Hs. rewrite normalizeWeightsLongOnly_dense. f_equal.
    unfold normalized. rewrite (clipped_of_nonneg w Hw).
    by rewrite decide_False by lra.
Qed.

Lemma normalizeWeightsLongOnly_branches_witness :
  normalizeWeightsLongOnly (Some <$> [-2; 0; -0.5])
  = Some <$> ((fun _ => 1 / INR 3) <$> [-2; 0; -0.5]) /\
  normalizeWeightsLongOnly (Some <$> [2; 0; 6])
  = Some <$> ((fun x => x / Rsum [2; 0; 6]) <$> [2; 0; 6]).
Proof.
  split.
  - apply (proj1 (normalizeWeightsLongOnly_branches [-2; 0; -0.5])).
    repeat constructor; lra.
  - apply (proj2 (normalizeWeightsLongOnly_branches [2; 0; 6])).
    + repeat constructor; lra.
    + unfold Rsum. simpl. lra.
Defined.

(** ** [updateWeightWithRenormalization]: further edits *)

Lemma clamp_above (v : R) : 1 <= v -> clamp v 0 1 = 1.
Proof.
  intros H. unfold clamp. rewrite (Rmin_left 1 v) by done.
  apply Rmax_right. lra.
Qed.

Lemma clamp_below (v : R) : v <= 0 -> clamp v 0 1 = 0.
Proof.
  intros H. unfold clamp. rewrite (Rmin_right 1 v) by lra. by apply Rmax_left.
Qed.

Lemma edited_ext (g h : nat -> R -> R) (idx : nat) (v : R) (prev : list R) :
  (forall i x, prev !! i = Some x -> i <> idx -> g i x = h i x) ->
  edited g idx v prev = edited h idx v prev.
Proof.
  intros H. unfold edited. apply imap_ext. intros i x Hx. simpl.
  case_decide; [done|]. by apply H.
Qed.

Lemma Rsum_edited_zero (idx : nat) (prev : list R) :
  Rsum (edited (fun _ _ => 0) idx 0 prev) = 0.
Proof.
  unfold edited. rewrite (imap_ext _ (fun _ _ => 0)).
  - apply Rsum_imap_const0.
  - intros i x _. simpl. by case_decide.
Qed.

(** A requested value of 1 or more is taken as 1: with at least two
    entries the result is the unit vector at [idx], whatever the vector
    held before. *)
Theorem update_to_unit_vector (prev : list R) (idx : nat) (v : R) :
  (2 <= length prev)%nat -> (idx < length prev)%nat -> 1 <= v ->
  updateWeightWithRenormalization prev idx v
  = Some <$> edited (fun _ _ => 0) idx 1 prev.
Proof.
  intros Hn Hidx Hv. pose proof (length_two_INR _ Hn) as Hn1.
  rewrite updateWeightWithRenormalization_dense by (done || lia).
  unfold beforeNormalize. rewrite (clamp_above v Hv). f_equal.
  assert (Hunit : forall g : nat -> R -> R,
            (forall i x, g i x = 0) ->
            normalized (edited g idx 1 prev) = edited (fun _ _ => 0) idx 1 prev).
  { intros g Hg. rewrite (edited_ext g (fun _ _ => 0)) by (intros; apply Hg).
    apply normalized_id.
    - unfold edited. apply Forall_lookup. intros i x.
      rewrite list_lookup_imap. destruct (prev !! i); simpl; [|done].
      intros [= <-]. case_decide; lra.
    - rewrite Rsum_edited, Rsum_edited_zero by done. lra. }
  case_decide.
  - apply Hunit. intros i x. unfold Rdiv. rewrite Rminus_diag. lra.
  - apply Hunit. intros i x. unfold Rdiv. rewrite Rminus_diag. lra.
Qed.

Lemma update_to_unit_vector_witness :
  updateWeightWithRenormalization [0.2; 0.3; 0.5] 1 1.7
  = Some <$> edited (fun _ _ => 0) 1 1 [0.2; 0.3; 0.5].
Proof.
  apply (update_to_unit_vector [0.2; 0.3; 0.5] 1%nat 1.7); simpl; lia || lra.
Defined.

Lemma edited_self (idx : nat) (v : R) (w : list R) :
  w !! idx = Some v -> edited (fun _ x => x) idx v w = w.
Proof.
  intros Hv. unfold edited. apply list_eq. intros i.
  rewrite list_lookup_imap. destruct (w !! i) as [x|] eqn:E; simpl; [|done].
  case_decide; [|done]. subst. congruence.
Qed.

Lemma Rsum_delete (idx : nat) (v : R) (w : list R) :
  w !! idx = Some v -> Rsum (delete idx w) = Rsum w - v.
Proof.
  intros Hv. rewrite <- prevOtherSum_delete, prevOtherSum_edited.
  pose proof (Rsum_edited (fun _ x => x) idx v w) as H.
  rewrite (edited_self idx v w Hv) in H.
  rewrite H by (by eapply lookup_lt_Some). lra.
Qed.

(** What an edit returns for a weight vector and a value in [[0,1]]: a
    long-only vector that holds the value at [idx] and sums to 1. *)
Lemma update_result (prev : list R) (idx : nat) (v : R) :
  Forall (Rle 0) prev -> (2 <= length prev)%nat -> (idx < length prev)%nat ->
  0 <= v <= 1 ->
  exists w, updateWeightWithRenormalization prev idx v = Some <$> w /\
    length w = length prev /\ Forall (Rle 0) w /\ Rsum w = 1 /\
    w !! idx = Some v.
Proof.
  intros Hpos Hn Hidx Hv.
  destruct (update_weights_invariant prev idx v Hidx)
    as (w & Hw & Hlen & Hwpos & Hsum).
  exists w. repeat split; try done.
  destruct (Rle_dec (Rsum (delete idx prev)) 1e-9) as [Hs|Hs].
  - rewrite update_uniform in Hw by done.
    apply (inj (fmap Some)) in Hw as <-. by apply edited_lookup_idx.
  - rewrite update_proportional in Hw by (done || lra).
    apply (inj (fmap Some)) in Hw as <-. by apply edited_lookup_idx.
Qed.

(** Repeating an edit changes nothing: once index [idx] of a weight
    vector has been set to [v], with [1 - v] above the threshold [1e-9],
    setting it to [v] again returns the same vector. *)
Theorem update_twice (prev : list R) (idx : nat) (v : R) :
  Forall (Rle 0) prev -> (idx < length prev)%nat ->
  0 <= v -> 1e-9 < 1 - v ->
  exists w, updateWeightWithRenormalization prev idx v = Some <$> w /\
    updateWeightWithRenormalization w idx v = Some <$> w.
Proof.
  intros Hpos Hidx Hv0 Hv1.
  destruct (decide (length prev = 1%nat)) as [H1|H1].
  { exists [1]. destruct prev as [|x [|y l]]; try done. }
  destruct (update_result prev idx v) as (w & Hw & Hlen & Hwpos & Hsum & Hat);
    [done | lia | done | lra |].
  exists w. split; [done|].
  pose proof (Rsum_delete idx v w Hat) as Hothers. rewrite Hsum in Hothers.
  rewrite update_proportional by (done || lia || lra).
  f_equal. rewrite Hothers.
  rewrite (edited_ext _ (fun _ x => x)).
  - by apply edited_self.
  - intros i x _ _. field. lra.
Qed.

Lemma update_twice_witness :
  exists w, updateWeightWithRenormalization [0.5; 0.3; 0.2] 0 0.8 = Some <$> w /\
    updateWeightWithRenormalization w 0 0.8 = Some <$> w.
Proof.
  apply (update_twice [0.5; 0.3; 0.2] 0%nat 0.8).
  - repeat constructor; lra.
  - simpl. lia.
  - lra.
  - lra.
Defined.

(** ** Resizing the weight vector *)

Lemma fillWeights_length (n : nat) (w : list R) : length (fillWeights n w) = n.
Proof. unfold fillWeights. by rewrite length_fmap, length_seq. Qed.

Lemma fillWeights_lookup (n : nat) (w : list R) (i : nat) :
  (i < n)%nat -> fillWeights n w !! i = Some (default (1 / INR n) (w !! i)).
Proof.
  intros Hi. unfold fillWeights. by rewrite list_lookup_fmap, lookup_seq_lt.
Qed.

Lemma fillWeights_grow (n : nat) (w : list R) :
  (length w <= n)%nat ->
  fillWeights n w = w ++ replicate (n - length w) (1 / INR n).
Proof.
  intros Hn. apply list_eq. intros i.
  destruct (decide (i < n)%nat) as [Hi|Hi].
  - rewrite fillWeights_lookup by done.
    destruct (decide (i < length w)%nat) as [Hw|Hw].
    + rewrite lookup_app_l by done.
      by destruct (lookup_lt_is_Some_2 w i Hw) as [x ->].
    + rewrite lookup_app_r by lia. rewrite lookup_replicate_2 by lia.
      by rewrite (lookup_ge_None_2 w) by lia.
  - rewrite !lookup_ge_None_2; [done | |].
    + rewrite length_app, length_replicate. lia.
    + rewrite fillWeights_length. lia.
Qed.

(** When the number of assets changes, the weights are kept by position:
    a longer vector is the old one followed by entries [1 / n], a shorter
    one is the old one cut at the end. *)
Theorem fillWeights_shape (n : nat) (w : list R) :
  ((length w <= n)%nat ->
   fillWeights n w = w ++ replicate (n - length w) (1 / INR n)) /\
  ((n <= length w)%nat -> fillWeights n w = take n w).
Proof.
  split; [apply fillWeights_grow|]. intros Hn. apply list_eq. intros i.
  destruct (decide (i < n)%nat) as [Hi|Hi].
  - rewrite fillWeights_lookup, lookup_take_lt by done.
    by destruct (lookup_lt_is_Some_2 w i) as [x ->]; [lia|].
  - rewrite !lookup_ge_None_2; [done | |].
    + rewrite length_take. lia.
    + rewrite fillWeights_length. lia.
Qed.

Lemma fillWeights_shape_witness :
  fillWeights 4 [0.5; 0.5] = [0.5; 0.5] ++ replicate (4 - 2) (1 / INR 4) /\
  fillWeights 1 [0.5; 0.5] = take 1 [0.5; 0.5].
Proof.
  split.
  - apply (proj1 (fillWeights_shape 4 [0.5; 0.5])). simpl. lia.
  - apply (proj2 (fillWeights_shape 1 [0.5; 0.5])). simpl. lia.
Defined.

Lemma Rsum_replicate (k : nat) (c : R) : Rsum (replicate k c) = INR k * c.
Proof.
  induction k as [|k IH]; [simpl; unfold Rsum; simpl; lra|].
  change (replicate (S k) c) with (c :: replicate k c).
  rewrite Rsum_cons, IH, S_INR. lra.
Qed.

(** After a change of the number of assets to [n >= 1] the two queued
    updaters leave a long-only vector of length [n] that sums to 1.  When
    a weight vector (entries [>= 0], sum 1) of [m < n] entries grows, each
    old weight is divided by [1 + (n - m) / n] and each new asset gets
    [(1 / n) / (1 + (n - m) / n)]. *)
Theorem resize_weights (n : nat) (w : list R) :
  (1 <= n)%nat ->
  (exists w', normalizeOrFillWeights n (keepOrFillWeights n w) = Some <$> w' /\
     length w' = n /\ Forall (Rle 0) w' /\ Rsum w' = 1) /\
  (Forall (Rle 0) w -> Rsum w = 1 -> (length w < n)%nat ->
   normalizeOrFillWeights n (keepOrFillWeights n w)
   = Some <$> ((fun x => x / (1 + INR (n - length w) / INR n))
                 <$> (w ++ replicate (n - length w) (1 / INR n)))).
Proof.
  intros Hn.
  assert (Hlen : length (keepOrFillWeights n w) = n).
  { unfold keepOrFillWeights. case_decide; [done | apply fillWeights_length]. }
  assert (HnR : 0 < INR n) by (apply lt_0_INR; lia).
  split.
  - unfold normalizeOrFillWeights. rewrite decide_True by done.
    exists (normalized (keepOrFillWeights n w)).
    split; [apply normalizeWeightsLongOnly_dense|].
    split; [by rewrite normalized_length|].
    split; [apply normalized_nonneg|]. apply normalized_sum.
    intros Hnil. rewrite Hnil in Hlen. simpl in Hlen. lia.
  - intros Hpos Hsum Hlt. unfold normalizeOrFillWeights.
    rewrite decide_True by done. unfold keepOrFillWeights.
    rewrite decide_False by lia.
    rewrite fillWeights_grow by lia.
    assert (Hfill : Rsum (w ++ replicate (n - length w) (1 / INR n))
                    = 1 + INR (n - length w) / INR n).
    { rewrite Rsum_app, Rsum_replicate, Hsum. unfold Rdiv. lra. }
    assert (0 <= INR (n - length w) / INR n).
    { apply Rdiv_nonneg; [apply pos_INR | done]. }
    rewrite <- Hfill. rewrite normalizeWeightsLongOnly_dense. f_equal.
    unfold normalized. rewrite clipped_of_nonneg.
    + rewrite decide_False by lra. done.
    + apply Forall_app. split; [done|]. apply Forall_replicate.
      apply Rdiv_nonneg; lra.
Qed.

Lemma resize_weights_witness :
  (exists w', normalizeOrFillWeights 3 (keepOrFillWeights 3 [0.4; 0.6]) = Some <$> w' /\
     length w' = 3%nat /\ Forall (Rle 0) w' /\ Rsum w' = 1) /\
  normalizeOrFillWeights 3 (keepOrFillWeights 3 [0.4; 0.6])
  = Some <$> ((fun x => x / (1 + INR (3 - 2) / INR 3))
                <$> ([0.4; 0.6] ++ replicate (3 - 2) (1 / INR 3))).
Proof.
  destruct (resize_weights 3 [0.4; 0.6]) as [Hall Hgrow]; [lia|].
  split; [exact Hall|]. apply Hgrow.
  - repeat constructor; lra.
  - unfold Rsum. simpl. lra.
  - simpl. lia.
Defined.

(** ** Statistics *)

Lemma Rsum_bounds (l : list R) (lo hi : R) :
  Forall (fun x => lo <= x <= hi) l ->
  INR (length l) * lo <= Rsum l <= INR (length l) * hi.
Proof.
  induction 1 as [|x l Hx Hl IH]; [simpl; unfold Rsum; simpl; lra|].
  change (length (x :: l)) with (S (length l)).
  rewrite Rsum_cons, S_INR. lra.
Qed.

(** [mean] of the empty series is 0 (the divisor is floored at 1), and
    the mean of a non-empty series lies between any two bounds of its
    entries. *)
Theorem mean_bounds :
  mean [] = 0 /\
  forall (arr : list R) (lo hi : R),
    arr <> [] -> Forall (fun x => lo <= x <= hi) arr -> lo <= mean arr <= hi.
Proof.
  split.
  - unfold mean, reduce_sum. simpl. rewrite Rmax_left by lra. lra.
  - intros arr lo hi Hne Hall. rewrite mean_arithmetic.
    2:{ destruct arr; [done | simpl; lia]. }
    unfold arithmetic_mean. pose proof (Rsum_bounds arr lo hi Hall) as [H1 H2].
    assert (Hn : 0 < INR (length arr)).
    { apply lt_0_INR. destruct arr; [done | simpl; lia]. }
    split.
    + apply Rmult_le_reg_r with (INR (length arr)); [done|].
      unfold Rdiv. rewrite Rmult_assoc, Rinv_l by lra. lra.
    + apply Rmult_le_reg_r with (INR (length arr)); [done|].
      unfold Rdiv. rewrite Rmult_assoc, Rinv_l by lra. lra.
Qed.

Lemma mean_bounds_witness : -1 <= mean [0.5; -1; 2] <= 2.
Proof.
  apply (proj2 mean_bounds [0.5; -1; 2] (-1) 2); [discriminate|].
  repeat constructor; lra.
Defined.

(** The diagonal of the correlation matrix is 1 where the variance is
    positive and 0 elsewhere, and the correlation matrix of a symmetric
    matrix is symmetric. *)
Theorem correlation_diagonal_and_symmetry (n : nat) (cov : list (list R)) :
  length cov = n ->
  (forall i, (i < n)%nat ->
     mget (correlationFromCov cov) i i
     = if decide (0 < mget cov i i) then 1 else 0) /\
  ((forall i j, (i < n)%nat -> (j < n)%nat -> mget cov i j = mget cov j i) ->
   forall i j, (i < n)%nat -> (j < n)%nat ->
     mget (correlationFromCov cov) i j = mget (correlationFromCov cov) j i).
Proof.
  intros Hlen. destruct (correlationFromCov_entries n cov Hlen) as [_ Hent].
  split.
  - intros i Hi. rewrite Hent, corr_entry_sd by lia.
    destruct (decide (0 < mget cov i i)) as [Hp|Hp].
    + pose proof (sqrt_lt_R0 _ Hp) as Hs.
      rewrite decide_True by (apply Rmult_lt_0_compat; lra).
      rewrite sqrt_sqrt by lra. field. lra.
    + rewrite decide_False; [done|]. rewrite sqrt_neg_0 by lra. lra.
  - intros Hsym i j Hi Hj. rewrite !Hent, !corr_entry_sd by lia.
    rewrite (Hsym i j) by done.
    rewrite (Rmult_comm (sqrt (mget cov i i))). done.
Qed.

Lemma correlation_diagonal_and_symmetry_witness :
  mget (correlationFromCov [[4; 1]; [1; 0]]) 0 0
  = (if decide (0 < mget [[4; 1]; [1; 0]] 0 0) then 1 else 0) /\
  mget (correlationFromCov [[4; 1]; [1; 0]]) 0 1
  = mget (correlationFromCov [[4; 1]; [1; 0]]) 1 0.
Proof.
  destruct (correlation_diagonal_and_symmetry 2 [[4; 1]; [1; 0]] eq_refl)
    as [Hd Hs].
  split; [apply Hd; lia|]. apply Hs; try lia.
  intros [|[|i]] [|[|j]] Hi Hj; reflexivity || lia.
Defined.

(** ** Portfolio metrics *)

Lemma dot_zip_with (a b : list R) :
  length b = length a -> dot a b = Rsum (zip_with Rmult a b).
Proof.
  intros Hlen. rewrite dot_sum_upto. unfold sum_upto.
  by rewrite (fmap_seq_zip_with Rmult a b (length a)).
Qed.

Lemma weighted_sum_bounds (w mu : list R) (lo hi : R) :
  length mu = length w -> Forall (Rle 0) w ->
  Forall (fun x => lo <= x <= hi) mu ->
  lo * Rsum w <= Rsum (zip_with Rmult w mu) <= hi * Rsum w.
Proof.
  revert mu. induction w as [|x w IH]; intros [|m mu] Hlen Hw Hmu;
    try discriminate Hlen.
  - simpl. unfold Rsum. simpl. lra.
  - apply Forall_cons in Hw as [Hx Hw]. apply Forall_cons in Hmu as [Hm Hmu].
    change (zip_with Rmult (x :: w) (m :: mu))
      with (x * m :: zip_with Rmult w mu).
    rewrite !Rsum_cons. injection Hlen as Hlen.
    specialize (IH mu Hlen Hw Hmu). nra.
Qed.

(** The annualized return of a long-only portfolio whose weights sum to 1
    lies between 12 times the least and 12 times the greatest monthly
    mean. *)
Theorem portfolioReturnAnnual_bounds (weights muMonthly : list R) (lo hi : R) :
  length muMonthly = length weights ->
  Forall (Rle 0) weights -> Rsum weights = 1 ->
  Forall (fun x => lo <= x <= hi) muMonthly ->
  12 * lo <= portfolioReturnAnnual weights muMonthly <= 12 * hi.
Proof.
  intros Hlen Hw Hsum Hmu. unfold portfolioReturnAnnual.
  rewrite dot_zip_with by done.
  pose proof (weighted_sum_bounds weights muMonthly lo hi Hlen Hw Hmu) as H.
  rewrite Hsum in H. lra.
Qed.

Lemma portfolioReturnAnnual_bounds_witness :
  12 * 0.01 <= portfolioReturnAnnual [0.25; 0.75] [0.01; 0.02] <= 12 * 0.02.
Proof.
  apply (portfolioReturnAnnual_bounds [0.25; 0.75] [0.01; 0.02] 0.01 0.02).
  - reflexivity.
  - repeat constructor; lra.
  - unfold Rsum. simpl. lra.
  - repeat constructor; lra.
Defined.






(** ** Series alignment, continued *)

Lemma alignSeriesToCommonLength_cut (seriesByAsset : list (list R)) (N : nat) :
  min_nonzero_length seriesByAsset N -> (2 <= N)%nat ->
  alignSeriesToCommonLength seriesByAsset = last_entries N <$> seriesByAsset.
Proof.
  intros HN Hge. unfold alignSeriesToCommonLength.
  rewrite (proj2 (Math_min_nonzero_length seriesByAsset N) HN).
  rewrite decide_False by lia. apply Forall_fmap_ext, Forall_forall.
  intros s Hs. apply slice_from_last_entries.
  destruct HN as (_ & _ & Hmin).
  destruct (decide (length s = 0%nat)); [by left | right].
  apply Hmin; [done | lia].
Qed.

Lemma last_entries_length {A : Type} (N : nat) (s : list A) :
  length (last_entries N s) = Nat.min N (length s).
Proof. unfold last_entries. rewrite length_drop. lia. Qed.

Lemma last_entries_all {A : Type} (N : nat) (s : list A) :
  (length s <= N)%nat -> last_entries N s = s.
Proof.
  intros H. unfold last_entries.
  by replace (length s - N)%nat with 0%nat by lia.
Qed.

(** What [alignSeriesToCommonLength] returns has one series per asset.
    When it cuts (minimum non-zero length [N >= 2]), the series at each
    position is the input series at that position cut to its last [N]
    entries: a non-empty series comes out with exactly [N] entries and
    an empty one stays empty.  Aligning an aligned set changes
    nothing. *)
Theorem alignSeriesToCommonLength_idempotent (seriesByAsset : list (list R)) :
  length (alignSeriesToCommonLength seriesByAsset) = length seriesByAsset /\
  (forall N, min_nonzero_length seriesByAsset N -> (2 <= N)%nat ->
     forall i s, seriesByAsset !! i = Some s ->
       alignSeriesToCommonLength seriesByAsset !! i = Some (last_entries N s) /\
       (s <> [] -> length (last_entries N s) = N) /\
       (s = [] -> last_entries N s = [])) /\
  alignSeriesToCommonLength (alignSeriesToCommonLength seriesByAsset)
  = alignSeriesToCommonLength seriesByAsset.
Proof.
  assert (Hshape : forall N, min_nonzero_length seriesByAsset N -> (2 <= N)%nat ->
     Forall (fun s => length s = N \/ s = [])
            (alignSeriesToCommonLength seriesByAsset)).
  { intros N HN Hge. rewrite (alignSeriesToCommonLength_cut _ N HN Hge).
    apply Forall_fmap, Forall_forall. intros s Hs. simpl.
    destruct HN as (_ & _ & Hmin). destruct s as [|x s]; [by right|].
    left. rewrite last_entries_length.
    specialize (Hmin (x :: s) Hs). simpl in *. lia. }
  split; [|split].
  - unfold alignSeriesToCommonLength. destruct (Math_min _); [|done].
    case_decide; [done|]. by rewrite length_fmap.
  - intros N HN Hge i s Hi.
    rewrite (alignSeriesToCommonLength_cut _ N HN Hge), list_lookup_fmap, Hi.
    split; [done|]. split; [|by intros ->].
    intros Hs. rewrite last_entries_length. destruct HN as (_ & _ & Hmin).
    specialize (Hmin s (list_elem_of_lookup_2 _ _ _ Hi)).
    destruct s; [done|]. simpl in *. lia.
  - destruct (Math_min (filter (fun l => (l > 0)%nat) (length <$> seriesByAsset)))
      as [N|] eqn:HM.
    2:{ unfold alignSeriesToCommonLength at 2. rewrite HM. unfold
          alignSeriesToCommonLength. by rewrite HM. }
    destruct (decide (N < 2)%nat) as [Hlt|Hge].
    { assert (Heq : alignSeriesToCommonLength seriesByAsset = seriesByAsset).
      { unfold alignSeriesToCommonLength. rewrite HM. by rewrite decide_True. }
      by rewrite !Heq. }
    apply Math_min_nonzero_length in HM.
    pose proof (Hshape N HM ltac:(lia)) as Hall.
    rewrite (alignSeriesToCommonLength_cut (alignSeriesToCommonLength seriesByAsset) N);
      [|..|lia].
    + rewrite <- (list_fmap_id (alignSeriesToCommonLength seriesByAsset)) at 2.
      apply Forall_fmap_ext. eapply Forall_impl; [exact Hall|].
      intros s [Hs| ->]; simpl; [apply last_entries_all; lia | done].
    + destruct HM as (Hpos & (s & Hs & Hlen) & Hmin). split; [done|]. split.
      * exists (last_entries N s). split.
        -- rewrite (alignSeriesToCommonLength_cut _ N) by
             (done || lia || (split; [done|]; split; [by exists s | done])).
           apply list_elem_of_fmap. by exists s.
        -- rewrite last_entries_length. lia.
      * intros t Ht Htpos. rewrite Forall_forall in Hall.
        destruct (Hall t Ht) as [->| ->]; [done | simpl in Htpos; lia].
Qed.

Lemma alignSeriesToCommonLength_idempotent_witness :
  alignSeriesToCommonLength [[1; 2; 3]; []; [4; 5]] !! 0%nat
  = Some (last_entries 2 [1; 2; 3]) /\
  ([1; 2; 3] <> [] -> length (last_entries 2 [1; 2; 3]) = 2%nat) /\
  ([1; 2; 3] = [] -> last_entries 2 [1; 2; 3] = []).
Proof.
  apply (proj1 (proj2 (alignSeriesToCommonLength_idempotent
                         [[1; 2; 3]; []; [4; 5]])) 2%nat); [|lia|reflexivity].
  apply Math_min_nonzero_length. reflexivity.
Defined.

(** ** A series without variation *)

Lemma mean_replicate (T : nat) (c : R) : (1 <= T)%nat -> mean (replicate T c) = c.
Proof.
  intros HT. rewrite mean_arithmetic by (rewrite length_replicate; lia).
  unfold arithmetic_mean. rewrite Rsum_replicate, length_replicate.
  field. apply not_0_INR. lia.
Qed.

Lemma nth_replicate_lt (T t : nat) (c : R) :
  (t < T)%nat -> nth t (replicate T c) 0 = c.
Proof. intros Ht. apply nth_lookup_Some. by apply lookup_replicate_2. Qed.

Lemma cov_entry_constant (seriesByAsset : list (list R)) (T i j : nat) (c : R) :
  (1 <= T)%nat -> seriesByAsset !! i = Some (replicate T c) ->
  cov_entry seriesByAsset T i j = 0.
Proof.
  intros HT Hi. rewrite cov_entry_sum_upto.
  rewrite (sum_upto_ext T _ (fun _ => 0)); [rewrite sum_upto_zero; lra|].
  intros t Ht. unfold mget. rewrite (nth_lookup_Some _ _ _ _ Hi).
  rewrite (nth_lookup_Some (mean <$> seriesByAsset) i 0 (mean (replicate T c)))
    by by rewrite list_lookup_fmap, Hi.
  rewrite mean_replicate, nth_replicate_lt by done. lra.
Qed.

(** An asset whose returns are all 0 over the [T >= 2] periods (a price
    that does not move) has covariance 0 with every asset, itself
    included, and its correlation with every asset, itself included, is
    0: the diagonal entry of a flat asset is 0, not 1. *)
Theorem flat_series_uncorrelated (seriesByAsset : list (list R)) (T i : nat) :
  Forall (fun s => length s = T) seriesByAsset -> (2 <= T)%nat ->
  seriesByAsset !! i = Some (replicate T 0) ->
  forall j, (j < length seriesByAsset)%nat ->
    mget (covarianceMatrix seriesByAsset) i j = 0 /\
    mget (covarianceMatrix seriesByAsset) j i = 0 /\
    mget (correlationFromCov (covarianceMatrix seriesByAsset)) i j = 0 /\
    mget (correlationFromCov (covarianceMatrix seriesByAsset)) j i = 0.
Proof.
  intros Hal HT Hi j Hj.
  assert (Hilt : (i < length seriesByAsset)%nat) by by eapply lookup_lt_Some.
  destruct seriesByAsset as [|s rest]; [simpl in Hj; lia|].
  pose proof Hal as Hal'. apply Forall_cons in Hal' as [Hs _].
  destruct (covarianceMatrix_entries s rest) as [[Hlen _] Hent]; [lia|].
  rewrite Hs in Hent.
  assert (Hii : mget (covarianceMatrix (s :: rest)) i i = 0).
  { rewrite Hent by done. apply (cov_entry_constant _ T i i 0); [lia | done]. }
  destruct (correlationFromCov_entries _ _ Hlen) as [_ Hcorr].
  split; [|split; [|split]].
  - rewrite Hent by done. apply (cov_entry_constant _ T i j 0); [lia | done].
  - rewrite Hent, cov_entry_sym by done.
    apply (cov_entry_constant _ T i j 0); [lia | done].
  - rewrite Hcorr, corr_entry_sd by (done || lia).
    rewrite Hii, sqrt_0, Rmult_0_l. by rewrite decide_False by lra.
  - rewrite Hcorr, corr_entry_sd by (done || lia).
    rewrite Hii, sqrt_0, Rmult_0_r. by rewrite decide_False by lra.
Qed.

Lemma flat_series_uncorrelated_witness :
  mget (covarianceMatrix [[1; 2; 4]; [0; 0; 0]]) 1 1 = 0 /\
  mget (covarianceMatrix [[1; 2; 4]; [0; 0; 0]]) 1 1 = 0 /\
  mget (correlationFromCov (covarianceMatrix [[1; 2; 4]; [0; 0; 0]])) 1 1 = 0 /\
  mget (correlationFromCov (covarianceMatrix [[1; 2; 4]; [0; 0; 0]])) 1 1 = 0.
Proof.
  apply (flat_series_uncorrelated [[1; 2; 4]; [0; 0; 0]] 3 1).
  - repeat constructor.
  - lia.
  - reflexivity.
  - simpl. lia.
Defined.

(** ** The random source *)

Lemma toUint32_range (x : Z) : (0 <= toUint32 x < 4294967296)%Z.
Proof. unfold toUint32. apply Z.mod_pos_bound. lia. Qed.

Lemma toUint32_idem (x : Z) : toUint32 (toUint32 x) = toUint32 x.
Proof. unfold toUint32. apply Z.mod_mod. lia. Qed.

Lemma toUint32_small (x : Z) : (0 <= x < 4294967296)%Z -> toUint32 x = x.
Proof. intros H. unfold toUint32. by apply Z.mod_small. Qed.

Lemma toUint32_toInt32 (x : Z) : toUint32 (toInt32 x) = toUint32 x.
Proof.
  unfold toInt32. case_decide; [apply toUint32_idem|].
  unfold toUint32.
  replace (x mod 4294967296 - 4294967296)%Z
    with (x mod 4294967296 + (-1) * 4294967296)%Z by lia.
  rewrite Z.mod_add by lia. apply Z.mod_mod. lia.
Qed.

Lemma toUint32_add (x y : Z) :
  toUint32 (x + y) = toUint32 (toUint32 x + toUint32 y).
Proof. unfold toUint32. apply Z.add_mod. lia. Qed.

Lemma toUint32_mul (x y : Z) :
  toUint32 (x * y) = toUint32 (toUint32 x * toUint32 y).
Proof. unfold toUint32. apply Z.mul_mod. lia. Qed.

Lemma toUint32_lxor (a b : Z) :
  toUint32 (Z.lxor a b) = Z.lxor (toUint32 a) (toUint32 b).
Proof.
  unfold toUint32. change 4294967296%Z with (2 ^ 32)%Z.
  rewrite <- !Z.land_ones by lia. apply Z.bits_inj'. intros n Hn.
  rewrite !Z.lxor_spec, !Z.land_spec, Z.lxor_spec.
  destruct (Z.testbit (Z.ones 32) n); simpl;
    rewrite ?andb_true_r, ?andb_false_r; done.
Qed.

Lemma toUint32_xor32 (a b : Z) :
  toUint32 (xor32 a b) = Z.lxor (toUint32 a) (toUint32 b).
Proof. unfold xor32. by rewrite toUint32_lxor, !toUint32_toInt32. Qed.

Lemma ushr32_range (x k : Z) :
  (0 <= k)%Z -> (0 <= ushr32 x k < 4294967296)%Z.
Proof.
  intros Hk. unfold ushr32. pose proof (toUint32_range x) as [H0 H1].
  rewrite Z.shiftr_div_pow2 by done.
  assert (0 < 2 ^ k)%Z by (apply Z.pow_pos_nonneg; lia).
  split; [apply Z.div_pos; lia|].
  apply Z.le_lt_trans with (toUint32 x); [|done].
  apply Z.div_le_upper_bound; [done|]. nia.
Qed.

(** [x ^ (x >>> k)] is zero, as a 32-bit value, only for [x = 0]. *)
Lemma xorshift_zero (x k : Z) :
  (0 < k)%Z ->
  toUint32 (xor32 x (ushr32 x k)) = 0%Z <-> toUint32 x = 0%Z.
Proof.
  intros Hk. rewrite toUint32_xor32.
  rewrite (toUint32_small (ushr32 x k)) by (apply ushr32_range; lia).
  unfold ushr32. pose proof (toUint32_range x) as [H0 H1]. split.
  - intros H. apply Z.lxor_eq in H. rewrite Z.shiftr_div_pow2 in H by lia.
    destruct (decide (toUint32 x = 0%Z)) as [|Hne]; [done|]. exfalso.
    assert (1 < 2 ^ k)%Z by (apply Z.pow_gt_1; lia).
    pose proof (Z.div_lt (toUint32 x) (2 ^ k)). lia.
  - intros ->. by rewrite Z.shiftr_0_l.
Qed.

Lemma even_half (a : Z) : Z.odd a = false -> exists a', a = (2 * a')%Z.
Proof.
  intros H. exists (a / 2)%Z. pose proof (Z.div_mod a 2 ltac:(lia)) as Hd.
  rewrite Zmod_odd, H in Hd. lia.
Qed.

(** A power of two that divides a product with an odd factor divides the
    other factor. *)
Lemma pow2_divide_odd (n : nat) (a b : Z) :
  Z.odd b = true -> (2 ^ Z.of_nat n | a * b)%Z -> (2 ^ Z.of_nat n | a)%Z.
Proof.
  intros Hb. revert a. induction n as [|n IH]; intros a Hdiv.
  - exists a. simpl. lia.
  - rewrite Nat2Z.inj_succ, Z.pow_succ_r in * by lia.
    destruct Hdiv as [q Hq].
    assert (Ha : Z.odd a = false).
    { assert (Hab : Z.odd (a * b) = false).
      { rewrite Hq, Z.odd_mul, (Z.odd_mul 2). simpl. apply andb_false_r. }
      rewrite Z.odd_mul, Hb, andb_true_r in Hab. done. }
    destruct (even_half a Ha) as [a' ->].
    destruct (IH a') as [q' Hq'].
    { exists q. nia. }
    exists q'. nia.
Qed.

Lemma toInt32_odd (x : Z) : Z.odd (toInt32 x) = Z.odd x.
Proof.
  assert (Hu : Z.odd (toUint32 x) = Z.odd x).
  { unfold toUint32. rewrite <- !Z.bit0_odd.
    change 4294967296%Z with (2 ^ 32)%Z. apply Z.mod_pow2_bits_low. lia. }
  unfold toInt32. case_decide; [done|]. by rewrite Z.odd_sub, Hu, xorb_false_r.
Qed.

Lemma or32_odd (t c : Z) : Z.odd c = true -> Z.odd (toInt32 (or32 t c)) = true.
Proof.
  intros Hc. rewrite toInt32_odd. unfold or32.
  rewrite <- Z.bit0_odd, Z.lor_spec, !Z.bit0_odd, (toInt32_odd c), Hc.
  apply orb_true_r.
Qed.

(** [Math.imul(a, b)] with an odd [b] is zero only for [a = 0]. *)
Lemma imul_zero (a b : Z) :
  Z.odd (toInt32 b) = true ->
  toUint32 (imul a b) = 0%Z <-> toUint32 a = 0%Z.
Proof.
  intros Hb. unfold imul. rewrite toUint32_toInt32.
  rewrite <- (toUint32_toInt32 a). unfold toUint32.
  change 4294967296%Z with (2 ^ Z.of_nat 32)%Z.
  rewrite !Z.mod_divide by lia. split.
  - by apply pow2_divide_odd.
  - intros [q Hq]. exists (q * toInt32 b)%Z. rewrite Hq. lia.
Qed.

Lemma toUint32_add_cancel (t m : Z) :
  toUint32 t = toUint32 (t + m) <-> toUint32 m = 0%Z.
Proof.
  unfold toUint32. pose proof (Z.div_mod t 4294967296 ltac:(lia)).
  pose proof (Z.div_mod m 4294967296 ltac:(lia)).
  pose proof (Z.div_mod (t + m) 4294967296 ltac:(lia)).
  pose proof (Z.mod_pos_bound t 4294967296 ltac:(lia)).
  pose proof (Z.mod_pos_bound m 4294967296 ltac:(lia)).
  pose proof (Z.mod_pos_bound (t + m) 4294967296 ltac:(lia)).
  split; intros Heq.
  - assert (Hm : m = (4294967296 * ((t + m) / 4294967296 - t / 4294967296))%Z)
      by lia.
    rewrite Hm, Z.mul_comm. apply Z.mod_mul. lia.
  - apply Z.mod_divide in Heq as [q Hq]; [|lia]. rewrite Hq.
    symmetry. apply Z.mod_add. lia.
Qed.

Lemma roundToDouble_exact (x : Z) :
  (Z.abs x < 9007199254740992)%Z -> roundToDouble x = x.
Proof.
  intros H. unfold roundToDouble.
  change (2 ^ 53)%Z with 9007199254740992%Z. by rewrite decide_True.
Qed.

Lemma exact_draws_le (seed : Z) (k j : nat) :
  exact_draws seed k -> (j <= k)%nat -> exact_draws seed j.
Proof. unfold exact_draws. intros [H0 H1] Hj. split; lia. Qed.

Lemma exact_draws_step (seed : Z) (k : nat) :
  exact_draws seed (S k) -> exact_draws (seed + 1831565813) k.
Proof. unfold exact_draws. intros [H0 H1]. split; lia. Qed.

(** Within the exact range a call advances the seed by the constant. *)
Lemma mulberry32_snd (seed : Z) :
  exact_draws seed 1 -> (mulberry32 seed).2 = (seed + 1831565813)%Z.
Proof.
  intros [H0 H1]. unfold mulberry32. cbn [snd].
  apply roundToDouble_exact. lia.
Qed.

Lemma mulberry32_grid (seed : Z) :
  exists k : Z, (0 <= k < 4294967296)%Z /\
    (mulberry32 seed).1 = IZR k / 4294967296.
Proof.
  unfold mulberry32. cbn [fst]. eexists. split; [|reflexivity].
  apply toUint32_range.
Qed.

Lemma mulberry32_unit_interval (seed : Z) : 0 <= (mulberry32 seed).1 < 1.
Proof.
  destruct (mulberry32_grid seed) as (k & [H0 H1] & ->).
  apply IZR_le in H0. apply IZR_lt in H1. split.
  - apply Rdiv_nonneg; lra.
  - apply Rmult_lt_reg_r with 4294967296; [lra|].
    unfold Rdiv. rewrite Rmult_assoc, Rinv_l by lra. lra.
Qed.

(** The 32-bit integer that one call of the generator outputs, before
    the division by [2^32], is zero exactly when the advanced seed is a
    multiple of [2^32]. *)
Lemma mulberry32_zero_advanced (seed : Z) :
  (mulberry32 seed).1 = 0
  <-> toUint32 (roundToDouble (seed + 0x6d2b79f5)) = 0%Z.
Proof.
  unfold mulberry32. cbn [fst].
  set (s := roundToDouble (seed + 0x6d2b79f5)).
  set (t1 := imul (xor32 s (ushr32 s 15)) (or32 s 1)).
  set (m := imul (xor32 t1 (ushr32 t1 7)) (or32 t1 61)).
  set (t2 := xor32 t1 (t1 + m)).
  set (k := toUint32 (xor32 t2 (ushr32 t2 14))).
  assert (Hk : IZR k / 4294967296 = 0 <-> k = 0%Z).
  { split.
    - intros H. apply eq_IZR. apply Rmult_eq_reg_r with (/ 4294967296); [|lra].
      unfold Rdiv in H. rewrite H. lra.
    - intros ->. lra. }
  rewrite Hk. unfold k. rewrite xorshift_zero by lia.
  unfold t2. rewrite toUint32_xor32. split.
  - intros H. apply Z.lxor_eq in H. apply toUint32_add_cancel in H.
    unfold m in H. apply imul_zero in H; [|by apply or32_odd].
    apply xorshift_zero in H; [|lia].
    unfold t1 in H. apply imul_zero in H; [|by apply or32_odd].
    by apply xorshift_zero in H.
  - intros Hs.
    assert (H1 : toUint32 t1 = 0%Z).
    { unfold t1. apply imul_zero; [by apply or32_odd|].
      by apply xorshift_zero. }
    assert (Hm : toUint32 m = 0%Z).
    { unfold m. apply imul_zero; [by apply or32_odd|].
      by apply xorshift_zero. }
    apply (proj2 (toUint32_add_cancel t1 m)) in Hm.
    rewrite <- Hm. apply Z.lxor_nilpotent.
Qed.

Lemma mulberry32_zero (seed : Z) :
  exact_draws seed 1 ->
  (mulberry32 seed).1 = 0 <-> toUint32 (seed + 1831565813) = 0%Z.
Proof.
  intros [H0 H1]. rewrite mulberry32_zero_advanced.
  change 0x6d2b79f5%Z with 1831565813%Z.
  by rewrite roundToDouble_exact by lia.
Qed.

(** Within the exact range, a draw of 0 is followed by draws that are
    not 0. *)
Lemma mulberry32_zero_far (seed : Z) (d : nat) :
  (0 < d)%nat -> exact_draws seed (S d) ->
  (mulberry32 seed).1 = 0 ->
  (mulberry32 (seed + Z.of_nat d * 1831565813)).1 <> 0.
Proof.
  intros Hd Hex H0 Hd0.
  apply mulberry32_zero in H0; [|apply (exact_draws_le _ _ _ Hex); lia].
  apply mulberry32_zero in Hd0; [|destruct Hex; split; lia].
  replace (seed + Z.of_nat d * 1831565813 + 1831565813)%Z
    with ((seed + 1831565813) + Z.of_nat d * 1831565813)%Z in Hd0 by lia.
  rewrite <- H0 in Hd0. symmetry in Hd0.
  apply toUint32_add_cancel in Hd0.
  unfold toUint32 in Hd0. change 4294967296%Z with (2 ^ Z.of_nat 32)%Z in Hd0.
  apply Z.mod_divide in Hd0; [|lia].
  apply pow2_divide_odd in Hd0; [|reflexivity].
  destruct Hd0 as [q Hq]. change (2 ^ Z.of_nat 32)%Z with 4294967296%Z in Hq.
  destruct Hex as [Hlo Hhi]. lia.
Qed.

(** Every draw lies in [[0, 1)] and is a multiple of [2^-32], from every
    seed; while the seed is below [2^53] in size a call advances it by
    the constant [0x6d2b79f5], without wrapping. *)
Theorem mulberry32_range (seed : Z) :
  0 <= (mulberry32 seed).1 < 1 /\
  (exists k : Z, (0 <= k < 4294967296)%Z /\
                 (mulberry32 seed).1 = IZR k / 4294967296) /\
  (exact_draws seed 1 -> (mulberry32 seed).2 = (seed + 1831565813)%Z).
Proof.
  split; [apply mulberry32_unit_interval|].
  split; [apply mulberry32_grid | apply mulberry32_snd].
Qed.

Lemma mulberry32_range_witness :
  (mulberry32 1337).2 = (1337 + 1831565813)%Z.
Proof.
  apply (proj2 (proj2 (mulberry32_range 1337))). split; simpl; lia.
Defined.

(** While the seed stays below [2^53] in size, where the additions are
    exact: a draw is 0 exactly when the advanced seed is a multiple of
    [2^32]; after a draw of 0 no later draw is 0; and in particular two
    successive draws are never both 0. *)
Theorem mulberry32_zero_once (seed : Z) :
  exact_draws seed 1 ->
  ((mulberry32 seed).1 = 0 <-> ((seed + 1831565813) mod 4294967296 = 0)%Z) /\
  (forall d : nat, (0 < d)%nat -> exact_draws seed (S d) ->
     (mulberry32 seed).1 = 0 ->
     (mulberry32 (seed + Z.of_nat d * 1831565813)).1 <> 0) /\
  (exact_draws seed 2 -> (mulberry32 seed).1 = 0 ->
   (mulberry32 (mulberry32 seed).2).1 <> 0).
Proof.
  intros Hex. split; [by apply mulberry32_zero|]. split.
  - intros d. apply mulberry32_zero_far.
  - intros Hex2 H0. rewrite mulberry32_snd by done.
    pose proof (mulberry32_zero_far seed 1 ltac:(lia) Hex2 H0) as H1.
    by replace (seed + Z.of_nat 1 * 1831565813)%Z
      with (seed + 1831565813)%Z in H1 by lia.
Qed.

Lemma mulberry32_zero_once_witness :
  (mulberry32 2463401483).1 = 0 /\
  (mulberry32 (2463401483 + Z.of_nat 7 * 1831565813)).1 <> 0 /\
  (mulberry32 (mulberry32 2463401483).2).1 <> 0.
Proof.
  assert (Hex : forall k, (k <= 8)%nat -> exact_draws 2463401483 k).
  { intros k Hk. split; lia. }
  destruct (mulberry32_zero_once 2463401483 (Hex 1%nat ltac:(lia)))
    as (Hz & Hfar & Hnext).
  assert (H0 : (mulberry32 2463401483).1 = 0) by (apply Hz; reflexivity).
  split; [exact H0|]. split.
  - apply Hfar; [lia | apply Hex; lia | exact H0].
  - apply Hnext; [apply Hex; lia | exact H0].
Defined.

(** ** Random long-only portfolios *)

Lemma exponential_draw_positive (u : R) : 0 <= u < 1 -> 0 < - ln (Rmax 1e-9 u).
Proof.
  intros [H0 H1].
  assert (Hlo : 0 < Rmax 1e-9 u).
  { apply Rlt_le_trans with 1e-9; [lra | apply Rmax_l]. }
  assert (Hhi : Rmax 1e-9 u < 1) by (apply Rmax_lub_lt; lra).
  pose proof (ln_increasing _ _ Hlo Hhi) as Hln. rewrite ln_1 in Hln. lra.
Qed.

Lemma exponentialDraws_spec (n : nat) (seed : Z) :
  length (exponentialDraws n seed).1 = n /\
  Forall (Rlt 0) (exponentialDraws n seed).1 /\
  (exact_draws seed n ->
   (exponentialDraws n seed).2 = (seed + Z.of_nat n * 1831565813)%Z).
Proof.
  revert seed. induction n as [|n IH]; intros seed.
  - simpl. split; [done|]. split; [constructor | intros _; lia].
  - cbn [exponentialDraws].
    pose proof (mulberry32_unit_interval seed) as Hu.
    pose proof (mulberry32_snd seed) as Hs.
    destruct (mulberry32 seed) as [u seed1] eqn:Hm.
    destruct (exponentialDraws n seed1) as [rest seed2] eqn:Hd.
    specialize (IH seed1). rewrite Hd in IH. cbn [fst snd] in *.
    destruct IH as (Hlen & Hpos & Hseed).
    split; [simpl; lia|]. split.
    + constructor; [by apply exponential_draw_positive | done].
    + intros Hex.
      assert (E : seed1 = (seed + 1831565813)%Z).
      { apply Hs. apply (exact_draws_le _ _ _ Hex). lia. }
      subst seed1. rewrite Hseed by by apply exact_draws_step. lia.
Qed.

Lemma randomWeightsLongOnly_spec (n : nat) (seed : Z) :
  length (randomWeightsLongOnly n seed).1 = n /\
  Forall (Rlt 0) (randomWeightsLongOnly n seed).1 /\
  ((1 <= n)%nat -> Rsum (randomWeightsLongOnly n seed).1 = 1) /\
  (exact_draws seed n ->
   (randomWeightsLongOnly n seed).2 = (seed + Z.of_nat n * 1831565813)%Z).
Proof.
  unfold randomWeightsLongOnly.
  pose proof (exponentialDraws_spec n seed) as (Hlen & Hpos & Hseed).
  destruct (exponentialDraws n seed) as [a seed'] eqn:Hd. cbn [fst snd] in *.
  assert (Hs0 : 0 <= Rsum a).
  { apply Rsum_nonneg. eapply Forall_impl; [exact Hpos|]. intros x. apply Rlt_le. }
  assert (Hs : a <> [] -> 0 < Rsum a).
  { destruct Hpos as [|x l Hx Hl]; [done|]. intros _. rewrite Rsum_cons.
    assert (0 <= Rsum l).
    { apply Rsum_nonneg. eapply Forall_impl; [exact Hl|]. intros y. apply Rlt_le. }
    lra. }
  rewrite reduce_sum_Rsum.
  split; [by rewrite length_fmap|]. split; [|split; [|done]].
  - destruct a as [|x l]; [constructor|].
    assert (Hsum : 0 < Rsum (x :: l)) by by apply Hs.
    unfold js_or. rewrite decide_False by lra.
    apply Forall_fmap. eapply Forall_impl; [exact Hpos|].
    intros y Hy. simpl. by apply Rdiv_lt_0_compat.
  - intros Hn. assert (Hsum : 0 < Rsum a).
    { apply Hs. intros ->. simpl in Hlen. lia. }
    unfold js_or. rewrite decide_False by lra.
    rewrite Rsum_fmap_div. field. lra.
Qed.

(** A vector drawn by [randomWeightsLongOnly] has one entry per asset,
    every entry is positive, and the entries sum to 1 (for at least one
    asset), from every seed; while the seed is below [2^53] in size the
    draw advances it by [n] steps. *)
Theorem randomWeightsLongOnly_simplex (n : nat) (seed : Z) :
  length (randomWeightsLongOnly n seed).1 = n /\
  Forall (Rlt 0) (randomWeightsLongOnly n seed).1 /\
  ((1 <= n)%nat -> Rsum (randomWeightsLongOnly n seed).1 = 1) /\
  (exact_draws seed n ->
   (randomWeightsLongOnly n seed).2 = (seed + Z.of_nat n * 1831565813)%Z).
Proof. apply randomWeightsLongOnly_spec. Qed.

Lemma randomWeightsLongOnly_simplex_witness :
  Rsum (randomWeightsLongOnly 3 2025).1 = 1 /\
  (randomWeightsLongOnly 3 2025).2 = (2025 + Z.of_nat 3 * 1831565813)%Z.
Proof.
  destruct (randomWeightsLongOnly_simplex 3 2025) as (_ & _ & Hsum & Hseed).
  split; [apply Hsum; lia | apply Hseed; split; simpl; lia].
Defined.



(** ** The best points *)

(** A [reduce] that keeps the current point unless the next one scores
    strictly more ends on a point of the list that scores most. *)
Lemma fold_best (f : point -> R) (ps : list point) (first : point) :
  let best := foldl (fun best cur => if decide (f cur > f best) then cur else best)
                    first ps in
  (best = first \/ best ∈ ps) /\ f first <= f best /\
  forall p, p ∈ ps -> f p <= f best.
Proof.
  cbv zeta. revert first. induction ps as [|q ps IH]; intros first.
  - simpl. split; [by left|]. split; [lra|]. intros p Hp. by apply elem_of_nil in Hp.
  - cbn [foldl].
    destruct (IH (if decide (f q > f first) then q else first))
      as (Hin & Hle & Hall).
    assert (Hq : f q <= f (if decide (f q > f first) then q else first)
                 /\ f first <= f (if decide (f q > f first) then q else first)).
    { case_decide; lra. }
    split; [|split].
    + destruct Hin as [->|Hin]; [|right; by right].
      case_decide; [right; by left | by left].
    + lra.
    + intros p [->|Hp]%elem_of_cons; [lra | by apply Hall].
Qed.

(** [bestSharpe] is absent for an empty cloud; otherwise it is a point
    of the cloud whose Sharpe ratio no point of the cloud exceeds. *)
Theorem bestSharpeOf_maximal :
  bestSharpeOf [] = None /\
  forall cloud : list point, cloud <> [] ->
    exists best, bestSharpeOf cloud = Some best /\ best ∈ cloud /\
      forall p, p ∈ cloud -> point_sharpe p <= point_sharpe best.
Proof.
  split; [done|]. intros [|first rest] Hne; [done|].
  destruct (fold_best point_sharpe (first :: rest) first) as (Hin & _ & Hall).
  eexists. split; [reflexivity|]. split; [|exact Hall].
  destruct Hin as [->|Hin]; [by left | exact Hin].
Qed.

Lemma bestSharpeOf_maximal_witness :
  exists best,
    bestSharpeOf [Point 0.1 0.05 0.15 [1; 0]; Point 0.2 0.09 0.275 [0.5; 0.5]]
    = Some best /\
    best ∈ [Point 0.1 0.05 0.15 [1; 0]; Point 0.2 0.09 0.275 [0.5; 0.5]] /\
    forall p, p ∈ [Point 0.1 0.05 0.15 [1; 0]; Point 0.2 0.09 0.275 [0.5; 0.5]] ->
      point_sharpe p <= point_sharpe best.
Proof.
  apply (proj2 bestSharpeOf_maximal
           [Point 0.1 0.05 0.15 [1; 0]; Point 0.2 0.09 0.275 [0.5; 0.5]]).
  discriminate.
Defined.

Lemma bucketTurn_entry (sorted : list point) (b : nat) (fr : list (R * R)) :
  bucketTurn sorted b fr = fr \/
  exists p, p ∈ inBucket sorted b /\
            (forall q, q ∈ inBucket sorted b -> ret q <= ret p) /\
            bucketTurn sorted b fr = fr ++ [(risk p, ret p)].
Proof.
  unfold bucketTurn.
  destruct (inBucket sorted b) as [|first ps] eqn:E; [by left|].
  right. destruct (fold_best ret (first :: ps) first) as (Hin & _ & Hall).
  exists (bestReturn first (first :: ps)). split; [|split; [exact Hall | done]].
  destruct Hin as [Heq|Hin]; [|exact Hin]. unfold bestReturn. rewrite Heq. by left.
Qed.

(** In the exact arithmetic of this model: the frontier has at most one
    entry per bucket, and the entry of a bucket is the risk and return
    of a point of that bucket whose return no point of the bucket
    exceeds. *)
Lemma frontier_entries_of_buckets (cloud : list point) :
  (length (frontierOfCloud cloud) <= bucketCount)%nat /\
  (forall e, e ∈ frontierOfCloud cloud ->
     exists b p, (b < bucketCount)%nat /\ p ∈ cloud /\
       p ∈ inBucket (sort_by_risk cloud) b /\ e = (risk p, ret p) /\
       forall q, q ∈ inBucket (sort_by_risk cloud) b -> ret q <= ret p).
Proof.
  pose (P := fun (k : nat) (fr : list (R * R)) =>
    (length fr <= k)%nat /\
    (forall e, e ∈ fr ->
       exists b p, (b < k)%nat /\ p ∈ cloud /\
         p ∈ inBucket (sort_by_risk cloud) b /\ e = (risk p, ret p) /\
         forall q, q ∈ inBucket (sort_by_risk cloud) b -> ret q <= ret p)).
  assert (HP : P bucketCount (frontierOfCloud cloud)); [|exact HP].
  unfold frontierOfSorted. apply (for_loop_invariant P).
  - split; [simpl; lia|]. intros e He. by apply elem_of_nil in He.
  - intros k fr Hk (Hlen & Hall).
    destruct (bucketTurn_entry (sort_by_risk cloud) k fr)
      as [Heq|(p & Hp & Hbest & Heq)]; rewrite Heq.
    + split; [lia|].
      intros e He. destruct (Hall e He) as (b & p & Hb & H).
      exists b, p. split; [lia | exact H].
    + split; [rewrite length_app; simpl; lia|].
      intros e [He|He]%elem_of_app.
      * destruct (Hall e He) as (b & p' & Hb & H).
        exists b, p'. split; [lia | exact H].
      * apply list_elem_of_singleton in He as ->. exists k, p.
        split; [lia|]. split; [|done].
        apply inBucket_elem in Hp as [_ Hp]. by apply sort_by_risk_elem.
Qed.

(** The frontier has at most one entry per bucket, so at most 40.  Each
    entry is the risk and return of a cloud point whose return no cloud
    point of the same risk exceeds (points of one risk share a bucket,
    wherever the bounds of the buckets fall).  An empty cloud gives an
    empty frontier. *)
Theorem frontier_entries (cloud : list point) :
  (length (frontierOfCloud cloud) <= bucketCount)%nat /\
  (forall e, e ∈ frontierOfCloud cloud ->
     exists p, p ∈ cloud /\ e = (risk p, ret p) /\
       forall q, q ∈ cloud -> risk q = risk p -> ret q <= ret p) /\
  (cloud = [] -> frontierOfCloud cloud = []).
Proof.
  destruct (frontier_entries_of_buckets cloud) as [Hlen Hall].
  split; [done|]. split.
  - intros e He. destruct (Hall e He) as (b & p & _ & Hp & Hb & -> & Hbest).
    exists p. split; [done|]. split; [done|]. intros q Hq Hrisk.
    apply Hbest. apply inBucket_elem in Hb as [Hb _].
    apply inBucket_elem. rewrite Hrisk. split; [done|].
    by apply sort_by_risk_elem.
  - intros ->. apply frontier_of_empty_cloud.
Qed.

Lemma frontier_entries_witness :
  le (length (frontierOfCloud
                [Point 0.3 0.08 0.15 [1; 0]; Point 0.1 0.05 0.15 [0; 1];
                 Point 0.1 0.06 0.25 [0.5; 0.5]])) bucketCount /\
  (forall e,
     e ∈ frontierOfCloud [Point 0.3 0.08 0.15 [1; 0]; Point 0.1 0.05 0.15 [0; 1];
                          Point 0.1 0.06 0.25 [0.5; 0.5]] ->
     exists p,
       p ∈ [Point 0.3 0.08 0.15 [1; 0]; Point 0.1 0.05 0.15 [0; 1];
            Point 0.1 0.06 0.25 [0.5; 0.5]] /\
       e = (risk p, ret p) /\
       forall q,
         q ∈ [Point 0.3 0.08 0.15 [1; 0]; Point 0.1 0.05 0.15 [0; 1];
              Point 0.1 0.06 0.25 [0.5; 0.5]] ->
         risk q = risk p -> ret q <= ret p).
Proof.
  destruct (frontier_entries
    [Point 0.3 0.08 0.15 [1; 0]; Point 0.1 0.05 0.15 [0; 1];
     Point 0.1 0.06 0.25 [0.5; 0.5]]) as (Hlen & Hall & _).
  split; [exact Hlen | exact Hall].
Defined.

(** ** The statistics of the aligned series *)

Lemma min_nonzero_length_exists (seriesByAsset : list (list R)) :
  seriesByAsset <> [] ->
  Forall (fun s => (2 <= length s)%nat) seriesByAsset ->
  exists N, (2 <= N)%nat /\ min_nonzero_length seriesByAsset N.
Proof.
  intros Hne Hall.
  destruct (Math_min (filter (fun l => (l > 0)%nat) (length <$> seriesByAsset)))
    as [N|] eqn:HM.
  - exists N. split; [|by apply Math_min_nonzero_length].
    apply Math_min_Some in HM as [Hin _].
    apply nonzero_lengths_elem in Hin as (_ & s & Hs & <-).
    by apply (proj1 (Forall_forall _ _) Hall).
  - exfalso. destruct seriesByAsset as [|s rest]; [done|].
    apply Forall_cons in Hall as [Hs _].
    assert (Hin : length s ∈ filter (fun l => (l > 0)%nat)
                    (length <$> s :: rest)).
    { apply nonzero_lengths_elem. split; [lia|]. exists s. split; [by left | done]. }
    destruct (filter _ _) as [|l ls]; [by apply elem_of_nil in Hin | done].
Qed.

(** The statistics shown by the application come from the aligned
    series.  When every asset has at least two returns, the aligned
    series all have one common length of at least 2, so every entry the
    covariance loop reads exists; the covariance matrix is square,
    symmetric and positive semidefinite; and every correlation lies in
    [[-1, 1]]. *)
Theorem statistics_of_aligned_series (seriesByAsset : list (list R)) :
  Forall (fun s => (2 <= length s)%nat) seriesByAsset ->
  let aligned := alignSeriesToCommonLength seriesByAsset in
  let cov := covarianceMatrix aligned in
  let corr := correlationFromCov cov in
  length aligned = length seriesByAsset /\
  (exists N, (2 <= N)%nat /\ Forall (fun s => length s = N) aligned) /\
  covariance_matrix (length seriesByAsset) cov /\
  forall i j, (i < length seriesByAsset)%nat -> (j < length seriesByAsset)%nat ->
    -1 <= mget corr i j <= 1.
Proof.
  intros Hall aligned cov corr.
  assert (Hlen : length aligned = length seriesByAsset).
  { unfold aligned, alignSeriesToCommonLength. destruct (Math_min _); [|done].
    case_decide; [done|]. by rewrite length_fmap. }
  assert (Hcov : covariance_matrix (length seriesByAsset) cov).
  { rewrite <- Hlen. apply covarianceMatrix_covariance_matrix. }
  split; [done|]. split; [|split; [done|]].
  - destruct seriesByAsset as [|s rest].
    { exists 2%nat. split; [lia|]. apply Forall_nil_2. }
    destruct (min_nonzero_length_exists (s :: rest)) as (N & HN & Hmin);
      [done | done |].
    exists N. split; [done|]. unfold aligned.
    rewrite (alignSeriesToCommonLength_cut _ N Hmin HN).
    apply Forall_fmap, Forall_forall. intros x Hx. simpl.
    rewrite last_entries_length. destruct Hmin as (_ & _ & Hmin).
    pose proof (proj1 (Forall_forall _ _) Hall x Hx) as Hx2. simpl in Hx2.
    specialize (Hmin x Hx). lia.
  - intros i j Hi Hj. pose proof Hcov as ([Hl _] & _ & _).
    destruct (correlationFromCov_entries _ _ Hl) as [_ Hent].
    destruct (covariance_matrix_cauchy_schwarz _ _ i j Hcov Hi Hj)
      as (Hp & Hq & Hcs).
    unfold corr. rewrite Hent by done. apply corr_entry_in_range; (done || lia).
Qed.

Lemma statistics_of_aligned_series_witness :
  let aligned := alignSeriesToCommonLength [[1; 2; 4]; [5; 3]] in
  let cov := covarianceMatrix aligned in
  let corr := correlationFromCov cov in
  length aligned = 2%nat /\
  (exists N, (2 <= N)%nat /\ Forall (fun s => length s = N) aligned) /\
  covariance_matrix 2 cov /\
  forall i j, (i < 2)%nat -> (j < 2)%nat -> -1 <= mget corr i j <= 1.
Proof.
  apply (statistics_of_aligned_series [[1; 2; 4]; [5; 3]]).
  repeat constructor.
Defined.

(** ** Returns from a price file *)

Lemma indexOf_Some (header : list jsstring) (name : jsstring) (i : nat) :
  indexOf header name = Some i -> name ∈ header.
Proof.
  intros Hi. destruct (decide (name ∈ header)) as [|Hn]; [done|].
  apply indexOf_None in Hn. congruence.
Qed.

Lemma returns_of_rows_cons (prev cur : csv_row) (rest : list csv_row) :
  returns_of_rows (prev :: cur :: rest)
  = if decide (close prev <= 0) then returns_of_rows (cur :: rest)
    else (close cur / close prev - 1) :: returns_of_rows (cur :: rest).
Proof. reflexivity. Qed.

Lemma returns_of_rows_length (rows : list csv_row) :
  length (returns_of_rows rows)
  = length (filter (fun r => 0 < close r) (removelast rows)).
Proof.
  induction rows as [|prev [|cur rest] IH]; [done | done |].
  rewrite returns_of_rows_cons.
  change (removelast (prev :: cur :: rest)) with (prev :: removelast (cur :: rest)).
  rewrite filter_cons. case_decide as Hp.
  - rewrite decide_False by lra. exact IH.
  - rewrite decide_True by lra. cbn [length]. by rewrite IH.
Qed.

Lemma length_removelast {A : Type} (l : list A) :
  length (removelast l) = (length l - 1)%nat.
Proof.
  induction l as [|x [|y l] IH]; [done | done |].
  change (removelast (x :: y :: l)) with (x :: removelast (y :: l)).
  cbn [length] in *. lia.
Qed.

Lemma length_insert_by_date (localeCompare : jsstring -> jsstring -> Z)
    (r : csv_row) (rows : list csv_row) :
  length (insert_by_date localeCompare r rows) = S (length rows).
Proof.
  induction rows as [|q rest IH]; [done|]. simpl.
  case_decide; simpl; [done | by rewrite IH].
Qed.

Lemma length_sort_by_date (localeCompare : jsstring -> jsstring -> Z)
    (rows : list csv_row) :
  length (sort_by_date localeCompare rows) = length rows.
Proof.
  induction rows as [|r rows IH]; [done|]. unfold sort_by_date in *. simpl.
  by rewrite length_insert_by_date, IH.
Qed.

Lemma omap_length_le {A B : Type} (f : A -> option B) (l : list A) :
  (length (omap f l) <= length l)%nat.
Proof.
  induction l as [|x l IH]; [done|]. cbn [omap list_omap].
  destruct (f x); cbn [length]; lia.
Qed.

(** A series that [parseCsvOhlcvCloseReturns] returns has at least two
    returns, and at most as many as there are non-blank lines less two
    (the header and the first data row give none); the file then has a
    [date] and a [close] column. *)
Theorem parse_returns_count (toLowerCase : jsstring -> jsstring)
    (Number : jsstring -> option R)
    (localeCompare : jsstring -> jsstring -> Z) (text : jsstring)
    (rets : list R) :
  parseCsvOhlcvCloseReturns toLowerCase Number localeCompare text = inr rets ->
  (2 <= length rets)%nat /\
  (length rets + 2 <= length (nonblank_lines text))%nat /\
  units "date" ∈ header_cells toLowerCase text /\
  units "close" ∈ header_cells toLowerCase text.
Proof.
  unfold parseCsvOhlcvCloseReturns, header_cells.
  case_decide as Hlines; [done|].
  destruct (indexOf _ (units "date")) as [dateIdx|] eqn:Hd; [|done].
  destruct (indexOf _ (units "close")) as [closeIdx|] eqn:Hc; [|done].
  case_decide as Hrows; [done|]. case_decide as Hrets; [done|].
  intros [= <-]. split; [lia|]. split.
  - rewrite returns_of_rows_length. etrans.
    { apply Nat.add_le_mono_r, length_filter. }
    rewrite length_removelast, length_sort_by_date. unfold rows_of_lines.
    pose proof (omap_length_le (row_of_line Number dateIdx closeIdx)
                  (tail (nonblank_lines text))) as Hom.
    destruct (nonblank_lines text) as [|l ls]; simpl in *; lia.
  - split; eapply indexOf_Some; eassumption.
Qed.

(** A file of three monthly closes, out of order: the rows are put in
    date order and give two returns. *)
Example parse_three_closes :
  parseCsvOhlcvCloseReturns toLowerCase_ascii decimal_cell compare_codes
    (units "Date,Close" ++ LF ++ units "2024-02,110" ++ LF
     ++ units "2024-01,100" ++ LF ++ units "2024-03,121")
  = inr [110 / 100 - 1; 121 / 110 - 1].
Proof.
  unfold parseCsvOhlcvCloseReturns.
  rewrite decide_False by (vm_compute; lia).
  replace (indexOf _ (units "date")) with (Some 0%nat) by reflexivity.
  replace (indexOf _ (units "close")) with (Some 1%nat) by reflexivity.
  cbv zeta.
  replace (sort_by_date compare_codes (rows_of_lines decimal_cell 0 1 _))
    with [CsvRow (units "2024-01") 100; CsvRow (units "2024-02") 110;
          CsvRow (units "2024-03") 121]
    by reflexivity.
  rewrite decide_False by (simpl; lia).
  rewrite !returns_of_rows_cons. cbn [close].
  rewrite (decide_False (P := 100 <= 0)), (decide_False (P := 110 <= 0)) by lra.
  rewrite decide_False by (simpl; lia). reflexivity.
Qed.

Lemma parse_returns_count_witness :
  let text := units "Date,Close" ++ LF ++ units "2024-02,110" ++ LF
              ++ units "2024-01,100" ++ LF ++ units "2024-03,121" in
  (2 <= length [110 / 100 - 1; 121 / 110 - 1])%nat /\
  (length [110 / 100 - 1; 121 / 110 - 1] + 2 <= length (nonblank_lines text))%nat /\
  units "date" ∈ header_cells toLowerCase_ascii text /\
  units "close" ∈ header_cells toLowerCase_ascii text.
Proof.
  apply (parse_returns_count toLowerCase_ascii decimal_cell compare_codes _ _
           parse_three_closes).
Defined.

Lemma returns_of_rows_positive (rows : list csv_row) (first final : csv_row) :
  Forall (fun r => 0 < close r) rows ->
  head rows = Some first -> last rows = Some final ->
  length (returns_of_rows rows) = (length rows - 1)%nat /\
  Forall (fun r => -1 < r) (returns_of_rows rows) /\
  close first * compound (returns_of_rows rows) = close final.
Proof.
  intros Hall. revert first.
  induction Hall as [|prev rows Hprev Hall IH]; intros first Hfirst Hlast; [done|].
  injection Hfirst as ->. destruct rows as [|cur rest].
  { injection Hlast as ->. simpl. split; [done|]. split; [constructor | lra]. }
  rewrite returns_of_rows_cons, decide_False by lra.
  destruct (IH cur eq_refl Hlast) as (Hlen & Hgt & Hprod).
  apply Forall_cons in Hall as [Hcur _].
  split; [cbn [length] in *; lia|]. split.
  - constructor; [|done].
    assert (0 < close cur / close first) by by apply Rdiv_lt_0_compat.
    lra.
  - cbn [compound foldr]. fold (compound (returns_of_rows (cur :: rest))).
    rewrite <- Hprod. field. lra.
Qed.

(** The loop over consecutive rows gives one return for every row, the
    last apart, whose close is positive.  When all closes are positive
    there is one return less than there are rows, every return is above
    -1, and the returns compound from the first close to the last:
    [first * (1 + r1) * ... * (1 + rk) = last]. *)
Theorem returns_of_rows_compound :
  (forall rows : list csv_row,
      length (returns_of_rows rows)
      = length (filter (fun r => 0 < close r) (removelast rows))) /\
  (forall (rows : list csv_row) (first final : csv_row),
      Forall (fun r => 0 < close r) rows ->
      head rows = Some first -> last rows = Some final ->
      length (returns_of_rows rows) = (length rows - 1)%nat /\
      Forall (fun r => -1 < r) (returns_of_rows rows) /\
      close first * compound (returns_of_rows rows) = close final).
Proof. split; [apply returns_of_rows_length | apply returns_of_rows_positive]. Qed.

Lemma returns_of_rows_compound_witness :
  let rows := [CsvRow (units "2024-01") 100; CsvRow (units "2024-02") 110;
               CsvRow (units "2024-03") 121] in
  length (returns_of_rows rows) = 2%nat /\
  Forall (fun r => -1 < r) (returns_of_rows rows) /\
  100 * compound (returns_of_rows rows) = 121.
Proof.
  apply (proj2 returns_of_rows_compound
           [CsvRow (units "2024-01") 100; CsvRow (units "2024-02") 110;
            CsvRow (units "2024-03") 121]
           (CsvRow (units "2024-01") 100) (CsvRow (units "2024-03") 121)).
  - repeat constructor; simpl; lra.
  - reflexivity.
  - reflexivity.
Defined.

(** *** The order of the rows *)

Lemma insert_by_date_perm (localeCompare : jsstring -> jsstring -> Z)
    (r : csv_row) (rows : list csv_row) :
  insert_by_date localeCompare r rows ≡ₚ r :: rows.
Proof.
  induction rows as [|q rows IH]; simpl; [done|].
  case_decide; [done|]. rewrite IH. apply Permutation_swap.
Qed.

Lemma sort_by_date_perm (localeCompare : jsstring -> jsstring -> Z)
    (rows : list csv_row) :
  sort_by_date localeCompare rows ≡ₚ rows.
Proof.
  induction rows as [|r rows IH]; [done|]. unfold sort_by_date in *. simpl.
  by rewrite insert_by_date_perm, IH.
Qed.

Lemma insert_by_date_sorted (localeCompare : jsstring -> jsstring -> Z)
    (r : csv_row) (rows : list csv_row) :
  (forall a b, (localeCompare a b > 0)%Z -> (localeCompare b a <= 0)%Z) ->
  (forall a b c, (localeCompare a b <= 0)%Z -> (localeCompare b c <= 0)%Z ->
                 (localeCompare a c <= 0)%Z) ->
  StronglySorted (fun a b => (localeCompare (date a) (date b) <= 0)%Z) rows ->
  StronglySorted (fun a b => (localeCompare (date a) (date b) <= 0)%Z)
                 (insert_by_date localeCompare r rows).
Proof.
  intros Htot Htrans. induction 1 as [|q rows Hs IH Hq]; simpl; [repeat constructor|].
  case_decide as Hrq.
  - constructor; [by constructor|]. constructor; [done|].
    eapply Forall_impl; [exact Hq|]. intros x Hx. simpl in *. by eapply Htrans.
  - constructor; [done|].
    rewrite insert_by_date_perm. constructor; [|done]. apply Htot. lia.
Qed.

(** The sort puts the rows of the file in ascending date order without
    adding or dropping any, for a comparison of dates that is total and
    transitive; so the returns are taken between rows that follow each
    other in time. *)
Theorem sort_by_date_ascending (localeCompare : jsstring -> jsstring -> Z)
    (rows : list csv_row) :
  (forall a b, (localeCompare a b > 0)%Z -> (localeCompare b a <= 0)%Z) ->
  (forall a b c, (localeCompare a b <= 0)%Z -> (localeCompare b c <= 0)%Z ->
                 (localeCompare a c <= 0)%Z) ->
  sort_by_date localeCompare rows ≡ₚ rows /\
  forall i j a b, (i < j)%nat ->
    sort_by_date localeCompare rows !! i = Some a ->
    sort_by_date localeCompare rows !! j = Some b ->
    (localeCompare (date a) (date b) <= 0)%Z.
Proof.
  intros Htot Htrans. split; [apply sort_by_date_perm|].
  assert (Hs : StronglySorted
                 (fun a b => (localeCompare (date a) (date b) <= 0)%Z)
                 (sort_by_date localeCompare rows)).
  { induction rows as [|r rows IH]; [constructor|].
    unfold sort_by_date in *. simpl. by apply insert_by_date_sorted. }
  induction Hs as [|q l Hs IH Hq]; intros i j a b Hij Hi Hj.
  - by rewrite lookup_nil in Hi.
  - destruct j as [|j]; [lia|]. simpl in Hj. destruct i as [|i].
    + injection Hi as ->. rewrite Forall_forall in Hq. apply Hq.
      by eapply list_elem_of_lookup_2.
    + simpl in Hi. apply (IH i j); [lia | done | done].
Qed.

Lemma compare_units_antisym (a b : jsstring) :
  compare_units a b = CompOpp (compare_units b a).
Proof.
  revert b. induction a as [|x a IH]; intros [|y b]; simpl; try done.
  rewrite (N.compare_antisym y x).
  destruct (y ?= x)%N; simpl; [apply IH | done | done].
Qed.

Lemma compare_units_trans (a b c : jsstring) :
  compare_units a b <> Gt -> compare_units b c <> Gt -> compare_units a c <> Gt.
Proof.
  revert b c. induction a as [|x a IH]; intros [|y b] [|z c]; simpl; try done.
  destruct (N.compare_spec x y) as [Hxy|Hxy|Hxy];
    destruct (N.compare_spec y z) as [Hyz|Hyz|Hyz];
    destruct (N.compare_spec x z) as [Hxz|Hxz|Hxz];
    try done; try lia.
  apply IH.
Qed.

Lemma compare_codes_nonpos (a b : jsstring) :
  (compare_codes a b <= 0)%Z <-> compare_units a b <> Gt.
Proof. unfold compare_codes. destruct (compare_units a b); split; (done || lia). Qed.

Lemma sort_by_date_ascending_witness :
  let rows := [CsvRow (units "2024-02") 110; CsvRow (units "2024-01") 100;
               CsvRow (units "2024-03") 121] in
  sort_by_date compare_codes rows ≡ₚ rows /\
  forall i j a b, (i < j)%nat ->
    sort_by_date compare_codes rows !! i = Some a ->
    sort_by_date compare_codes rows !! j = Some b ->
    (compare_codes (date a) (date b) <= 0)%Z.
Proof.
  apply (sort_by_date_ascending compare_codes
           [CsvRow (units "2024-02") 110; CsvRow (units "2024-01") 100;
            CsvRow (units "2024-03") 121]).
  - intros a b Hab. apply compare_codes_nonpos.
    rewrite (compare_units_antisym b a).
    unfold compare_codes in Hab. destruct (compare_units a b); (done || lia).
  - intros a b c. rewrite !compare_codes_nonpos. apply compare_units_trans.
Defined.

(** ** Normal draws *)

Lemma bind_returned {A B : Type} (m : Rng A) (k : A -> Rng B)
    (seed seed' : Z) (a : A) :
  m seed = Returned (a, seed') -> (m ≫= k) seed = k a seed'.
Proof. intros H. unfold mbind, Rng_bind. by rewrite H. Qed.

Lemma bind_thrown {A B : Type} (m : Rng A) (k : A -> Rng B) (seed : Z) :
  m seed = Thrown -> (m ≫= k) seed = Thrown.
Proof. intros H. unfold mbind, Rng_bind. by rewrite H. Qed.

Lemma returns_ret {A : Type} (a : A) (P : A -> Prop) :
  P a -> returns 0 (mret a) (mret a) P.
Proof. intros Ha seed j Hex. by exists a, seed. Qed.

Lemma returns_bind {A B : Type} (k1 k2 : nat) (m m' : Rng A)
    (f f' : A -> Rng B) (P : A -> Prop) (Q : B -> Prop) :
  returns k1 m m' P -> (forall a, P a -> returns k2 (f a) (f' a) Q) ->
  returns (k1 + k2) (m ≫= f) (m' ≫= f') Q.
Proof.
  intros Hm Hf seed j Hex.
  destruct (Hm seed (k2 + j)%nat) as (a & seed' & Ha & Ha' & HP & Hex').
  { by rewrite Nat.add_assoc. }
  destruct (Hf a HP seed' j Hex') as (b & seed'' & Hb & Hb' & HQ & Hex'').
  exists b, seed''.
  by rewrite (bind_returned _ _ _ _ _ Ha), (bind_returned _ _ _ _ _ Ha').
Qed.

Lemma returns_weaken {A : Type} (k k' : nat) (m m' : Rng A) (P Q : A -> Prop) :
  returns k m m' P -> (k <= k')%nat -> (forall a, P a -> Q a) ->
  returns k' m m' Q.
Proof.
  intros Hm Hk HPQ seed j Hex.
  destruct (Hm seed (k' - k + j)%nat) as (a & seed' & Ha & Ha' & HP & Hex').
  { by replace (k + (k' - k + j))%nat with (k' + j)%nat by lia. }
  exists a, seed'. split; [done|]. split; [done|]. split; [by apply HPQ|].
  apply (exact_draws_le _ _ _ Hex'). lia.
Qed.

Lemma for_loopM_S {St : Type} (n : nat) (body : nat -> St -> Rng St) (s : St) :
  for_loopM (S n) body s = (for_loopM n body s ≫= body n).
Proof. unfold for_loopM. by rewrite seq_S, foldl_app. Qed.

Lemma returns_for_loopM {St : Type} (I : nat -> St -> Prop) (n k : nat)
    (body body' : nat -> St -> Rng St) (s : St) :
  I 0%nat s ->
  (forall t s, (t < n)%nat -> I t s ->
     returns k (body t s) (body' t s) (I (S t))) ->
  returns (n * k) (for_loopM n body s) (for_loopM n body' s) (I n).
Proof.
  intros H0 Hbody. induction n as [|n IH].
  - by apply returns_ret.
  - rewrite !for_loopM_S. replace (S n * k)%nat with (n * k + k)%nat by lia.
    apply (returns_bind _ _ _ _ _ _ (I n)).
    + apply IH. intros t s' Ht. apply Hbody. lia.
    + intros s' Hs'. apply Hbody; [lia | done].
Qed.

Lemma returns_map_rng {A B : Type} (k : nat) (f f' : A -> Rng B) (l : list A)
    (P : B -> Prop) :
  (forall a, a ∈ l -> returns k (f a) (f' a) P) ->
  returns (length l * k) (map_rng f l) (map_rng f' l)
          (fun bs => length bs = length l /\ Forall P bs).
Proof.
  induction l as [|a l IH]; intros Hf.
  - apply returns_ret. by split.
  - cbn [map_rng].
    replace (length (a :: l) * k)%nat with (k + (length l * k + 0))%nat
      by (simpl; lia).
    apply (returns_bind _ _ _ _ _ _ P); [apply Hf; by left|].
    intros b Hb. eapply returns_bind.
    + apply IH. intros a' Ha'. apply Hf. by right.
    + intros bs [Hlen Hall]. apply returns_ret. split; [simpl; lia|].
      by constructor.
Qed.

Lemma mulberry32_nonzero_range (seed : Z) :
  (mulberry32 seed).1 <> 0 -> 1 / 4294967296 <= (mulberry32 seed).1 < 1.
Proof.
  destruct (mulberry32_grid seed) as (k & [Hk0 Hk1] & ->).
  intros Hne. assert (Hk : (1 <= k)%Z).
  { destruct (decide (k = 0%Z)) as [->|]; [|lia]. exfalso. apply Hne. lra. }
  apply IZR_le in Hk. apply IZR_lt in Hk1. split.
  - apply Rmult_le_reg_r with 4294967296; [lra|].
    unfold Rdiv. rewrite !Rmult_assoc, Rinv_l by lra. lra.
  - apply Rmult_lt_reg_r with 4294967296; [lra|].
    unfold Rdiv. rewrite Rmult_assoc, Rinv_l by lra. lra.
Qed.

Lemma draw_bind {B : Type} (k : R -> Rng B) (seed : Z) :
  (draw ≫= k) seed = k (mulberry32 seed).1 (mulberry32 seed).2.
Proof. unfold mbind, Rng_bind, draw. by destruct (mulberry32 seed). Qed.

Lemma draw_returns :
  returns 1 draw draw (fun u => 0 <= u < 1).
Proof.
  intros seed j Hex. exists (mulberry32 seed).1, (mulberry32 seed).2.
  split; [unfold draw; by destruct (mulberry32 seed)|].
  split; [unfold draw; by destruct (mulberry32 seed)|].
  split; [apply mulberry32_unit_interval|].
  rewrite mulberry32_snd by (apply (exact_draws_le _ _ _ Hex); lia).
  by apply exact_draws_step.
Qed.

Lemma draw_nonzero_S (fuel : nat) :
  draw_nonzero (S fuel)
  = (draw ≫= fun u => if decide (u = 0) then draw_nonzero fuel else mret u).
Proof. reflexivity. Qed.

(** When one of the first two draws is not 0, the loop
    [while (u === 0) u = rng()] ends on it, whatever the bound on its
    turns, from 2 on. *)
Lemma draw_nonzero_first_nonzero (fuel : nat) (seed : Z) :
  (2 <= fuel)%nat -> (first_nonzero seed).1 <> 0 ->
  draw_nonzero fuel seed = Returned (first_nonzero seed).
Proof.
  intros Hfuel. unfold first_nonzero.
  destruct fuel as [|[|fuel]]; [lia | lia |].
  rewrite draw_nonzero_S, draw_bind. case_decide as H0.
  - intros H1. rewrite draw_nonzero_S, draw_bind, decide_False by done.
    by destruct (mulberry32 (mulberry32 seed).2).
  - intros _. by destruct (mulberry32 seed).
Qed.

(** Within the exact range one of the first two draws is not 0. *)
Lemma first_nonzero_spec (seed : Z) :
  exact_draws seed 1 ->
  ((mulberry32 seed).1 <> 0 /\ first_nonzero seed = mulberry32 seed /\
   (first_nonzero seed).2 = (seed + 1831565813)%Z) \/
  ((mulberry32 seed).1 = 0 /\
   (exact_draws seed 2 ->
    (first_nonzero seed).1 <> 0 /\
    (first_nonzero seed).2 = (seed + 2 * 1831565813)%Z)).
Proof.
  intros Hex. unfold first_nonzero. case_decide as H0.
  - right. split; [done|]. intros Hex2. rewrite mulberry32_snd by done.
    pose proof (mulberry32_zero_far seed 1 ltac:(lia) Hex2 H0) as H1.
    replace (seed + Z.of_nat 1 * 1831565813)%Z
      with (seed + 1831565813)%Z in H1 by lia.
    split; [done|]. rewrite mulberry32_snd by by apply exact_draws_step.
    lia.
  - left. split; [done|]. split; [done|]. by apply mulberry32_snd.
Qed.

Lemma first_nonzero_range (seed : Z) :
  (first_nonzero seed).1 <> 0 -> 1 / 4294967296 <= (first_nonzero seed).1 < 1.
Proof.
  unfold first_nonzero. case_decide; apply mulberry32_nonzero_range.
Qed.

Lemma box_muller_bound (u v : R) :
  1 / 4294967296 <= u < 1 ->
  Rabs (sqrt (-2 * ln u) * cos (2 * PI * v)) <= sqrt (-2 * ln (1 / 4294967296)).
Proof.
  intros [Hu0 Hu1]. rewrite Rabs_mult, (Rabs_right (sqrt _)).
  2:{ apply Rle_ge, sqrt_pos. }
  assert (Hln : ln (1 / 4294967296) <= ln u).
  { destruct (Req_dec (1 / 4294967296) u) as [->|Hne]; [lra|].
    apply Rlt_le, ln_increasing; lra. }
  assert (Hs : sqrt (-2 * ln u) <= sqrt (-2 * ln (1 / 4294967296))).
  { apply sqrt_le_1_alt. lra. }
  assert (Hc : Rabs (cos (2 * PI * v)) <= 1).
  { apply Rabs_le. apply COS_bound. }
  pose proof (sqrt_pos (-2 * ln u)) as Hp.
  pose proof (Rabs_pos (cos (2 * PI * v))) as Hq.
  nra.
Qed.

Lemma randn_randn_closed (fuel : nat) (seed : Z) :
  (2 <= fuel)%nat ->
  (first_nonzero seed).1 <> 0 ->
  (first_nonzero (first_nonzero seed).2).1 <> 0 ->
  randn fuel seed = Returned (randn_closed seed).
Proof.
  intros Hfuel Hu Hv. unfold randn, randn_closed.
  rewrite (bind_returned _ _ seed (first_nonzero seed).2 (first_nonzero seed).1)
    by (rewrite draw_nonzero_first_nonzero by done;
        by destruct (first_nonzero seed)).
  rewrite (bind_returned _ _ (first_nonzero seed).2
             (first_nonzero (first_nonzero seed).2).2
             (first_nonzero (first_nonzero seed).2).1)
    by (rewrite draw_nonzero_first_nonzero by done;
        by destruct (first_nonzero (first_nonzero seed).2)).
  destruct (first_nonzero seed) as [u s1]. cbn [fst snd].
  by destruct (first_nonzero s1).
Qed.

(** From a seed from which three draws are exact the two loops of
    [randn] end on draws that are not 0, after two or three draws in
    all. *)
Lemma randn_closed_spec (seed : Z) :
  exact_draws seed 3 ->
  (first_nonzero seed).1 <> 0 /\
  (first_nonzero (first_nonzero seed).2).1 <> 0 /\
  Rabs (randn_closed seed).1 <= sqrt (-2 * ln (1 / 4294967296)) /\
  ((randn_closed seed).2 = seed + 2 * 1831565813
   \/ (randn_closed seed).2 = seed + 3 * 1831565813)%Z.
Proof.
  intros Hex.
  assert (Hex1 : exact_draws seed 1) by (apply (exact_draws_le _ _ _ Hex); lia).
  assert (Hex2 : exact_draws seed 2) by (apply (exact_draws_le _ _ _ Hex); lia).
  assert (H : (first_nonzero seed).1 <> 0 /\
              (first_nonzero (first_nonzero seed).2).1 <> 0 /\
              ((first_nonzero (first_nonzero seed).2).2 = seed + 2 * 1831565813
               \/ (first_nonzero (first_nonzero seed).2).2
                  = seed + 3 * 1831565813)%Z).
  { destruct (first_nonzero_spec seed Hex1) as [(Hu & Eu & Hs)|(Hu0 & Hu2)].
    - split; [by rewrite Eu|]. rewrite Hs.
      assert (Hex1' : exact_draws (seed + 1831565813) 1)
        by (destruct Hex; split; lia).
      assert (Hex2' : exact_draws (seed + 1831565813) 2)
        by (destruct Hex; split; lia).
      destruct (first_nonzero_spec _ Hex1') as [(Hv & Ev & Hs')|(Hv0 & Hv2)].
      + split; [by rewrite Ev|]. left. rewrite Hs'. lia.
      + destruct (Hv2 Hex2') as [Hv Hs']. split; [done|]. right.
        rewrite Hs'. lia.
    - destruct (Hu2 Hex2) as [Hu Hs]. split; [done|]. rewrite Hs.
      assert (Hex1' : exact_draws (seed + 2 * 1831565813) 1)
        by (destruct Hex; split; lia).
      pose proof (mulberry32_zero_far seed 2 ltac:(lia) Hex Hu0) as Hv.
      change (Z.of_nat 2) with 2%Z in Hv.
      destruct (first_nonzero_spec _ Hex1') as [(_ & Ev & Hs')|(Hv0 & _)];
        [|done].
      split; [by rewrite Ev|]. right. rewrite Hs'. lia. }
  destruct H as (Hu & Hv & Hs). split; [done|]. split; [done|].
  pose proof (first_nonzero_range seed Hu) as Hur.
  unfold randn_closed. destruct (first_nonzero seed) as [u s1].
  cbn [fst snd] in *. destruct (first_nonzero s1) as [v s2].
  cbn [fst snd] in *. split; [by apply box_muller_bound | done].
Qed.

Lemma randn_returns (fuel : nat) :
  (2 <= fuel)%nat ->
  returns 3 (randn fuel) (randn 2)
          (fun z => Rabs z <= sqrt (-2 * ln (1 / 4294967296))).
Proof.
  intros Hfuel seed j Hex.
  assert (Hex3 : exact_draws seed 3) by (apply (exact_draws_le _ _ _ Hex); lia).
  destruct (randn_closed_spec seed Hex3) as (Hu & Hv & Hb & Hs).
  exists (randn_closed seed).1, (randn_closed seed).2.
  rewrite !randn_randn_closed by (done || lia).
  split; [by destruct (randn_closed seed)|].
  split; [by destruct (randn_closed seed)|]. split; [done|].
  destruct Hex as [Hlo Hhi]. destruct Hs as [-> | ->]; split; lia.
Qed.

(** While the seed is below [2^53] in size for three more draws, [randn]
    returns: each of its two loops draws once, or twice when its first
    draw is 0, and not both draw twice, so it takes two or three draws
    in all, and the bound on the turns of the loops does not matter
    once it is 2.  The value is at most [sqrt (-2 ln 2^-32)] (about
    6.66) in size, because a draw that is not 0 is at least [2^-32]. *)
Theorem randn_terminates (fuel : nat) (seed : Z) :
  (2 <= fuel)%nat -> exact_draws seed 3 ->
  exists z seed',
    randn fuel seed = Returned (z, seed') /\
    Rabs z <= sqrt (-2 * ln (1 / 4294967296)) /\
    (seed' = seed + 2 * 1831565813 \/ seed' = seed + 3 * 1831565813)%Z /\
    randn fuel seed = randn 2 seed.
Proof.
  intros Hfuel Hex.
  destruct (randn_closed_spec seed Hex) as (Hu & Hv & Hb & Hs).
  exists (randn_closed seed).1, (randn_closed seed).2.
  rewrite !randn_randn_closed by (done || lia).
  split; [by destruct (randn_closed seed)|]. done.
Qed.

Lemma randn_terminates_witness :
  exists z seed',
    randn 5 1337%Z = Returned (z, seed') /\
    Rabs z <= sqrt (-2 * ln (1 / 4294967296)) /\
    (seed' = 1337 + 2 * 1831565813 \/ seed' = 1337 + 3 * 1831565813)%Z /\
    randn 5 1337%Z = randn 2 1337%Z.
Proof. apply (randn_terminates 5 1337); [lia | split; simpl; lia]. Defined.

(** ** The mock series *)

Lemma clamp_between (x lo hi : R) : lo <= hi -> lo <= clamp x lo hi <= hi.
Proof.
  intros H. unfold clamp. split; [apply Rmax_l|].
  apply Rmax_lub; [done | apply Rmin_l].
Qed.

Lemma factorTurn_returns (fuel : nat) (f : Factors) (t : nat) :
  (2 <= fuel)%nat ->
  length (fMarket f) = t /\ length (fTech f) = t /\
  length (fCrypto f) = t /\ length (fComm f) = t ->
  returns 13 (factorTurn fuel f) (factorTurn 2 f)
    (fun f' => length (fMarket f') = S t /\ length (fTech f') = S t /\
               length (fCrypto f') = S t /\ length (fComm f') = S t).
Proof.
  intros Hfuel (H1 & H2 & H3 & H4). unfold factorTurn.
  change 13%nat with (1 + (3 + (3 + (3 + (3 + 0)))))%nat.
  eapply returns_bind; [apply draw_returns|]. intros u _. cbv zeta.
  do 4 (eapply returns_bind; [by apply randn_returns|]; intros ? _).
  apply returns_ret. cbn [fMarket fTech fCrypto fComm].
  rewrite !length_app. simpl. lia.
Qed.

(** The four factor arrays get one entry per month. *)
Lemma generateFactors_returns (fuel months : nat) :
  (2 <= fuel)%nat ->
  returns (months * 13) (generateFactors fuel months) (generateFactors 2 months)
    (fun f => length (fMarket f) = months /\ length (fTech f) = months /\
              length (fCrypto f) = months /\ length (fComm f) = months).
Proof.
  intros Hfuel. unfold generateFactors.
  apply (returns_for_loopM
           (fun t f => length (fMarket f) = t /\ length (fTech f) = t /\
                       length (fCrypto f) = t /\ length (fComm f) = t)).
  - done.
  - intros t f _ Hf. by apply factorTurn_returns.
Qed.

Lemma assetSeries_returns (fuel months : nat) (f : Factors) (a : Asset) :
  (2 <= fuel)%nat -> months = 0%nat \/ params (asset_id a) <> None ->
  returns (months * 3) (assetSeries fuel months f a) (assetSeries 2 months f a)
    (fun out => length out = months /\
                Forall (fun r => -0.35 <= r <= 0.45) out).
Proof.
  intros Hfuel Hp. unfold assetSeries.
  apply (returns_for_loopM
           (fun t out => length out = t /\
                         Forall (fun r => -0.35 <= r <= 0.45) out)).
  - by split.
  - intros t out Ht [Hlen Hall].
    destruct (params (asset_id a)) as [p|]; [|destruct Hp; (lia || done)].
    unfold assetTurn. destruct (load p) as [[[lm lt] lc] lco].
    change 3%nat with (3 + 0)%nat.
    eapply returns_bind; [by apply randn_returns|]. intros z _.
    apply returns_ret. split; [rewrite length_app; simpl; lia|].
    apply Forall_app. split; [done|]. constructor; [|done].
    apply clamp_between. lra.
Qed.

Lemma for_loopM_thrown {St : Type} (n : nat) (body : nat -> St -> Rng St)
    (s : St) (seed : Z) :
  (1 <= n)%nat -> (forall t s, body t s = throw) ->
  for_loopM n body s seed = Thrown.
Proof.
  intros Hn Hbody. induction n as [|n IH]; [lia|].
  rewrite for_loopM_S. destruct n as [|n].
  - unfold for_loopM. simpl. rewrite (bind_returned (mret s) _ seed seed s eq_refl).
    by rewrite Hbody.
  - apply bind_thrown, IH. lia.
Qed.

Lemma map_rng_thrown {A B : Type} (k : nat) (f : A -> Rng B) (l : list A) :
  (forall a, a ∈ l ->
     returns k (f a) (f a) (fun _ => True) \/
     (forall seed, f a seed = Thrown)) ->
  Exists (fun a => forall seed, f a seed = Thrown) l ->
  forall seed, exact_draws seed (length l * k) -> map_rng f l seed = Thrown.
Proof.
  induction l as [|a l IH]; intros Hf Hex seed Hseed;
    [by apply Exists_nil in Hex|].
  cbn [map_rng]. destruct (Hf a ltac:(by left)) as [Hret|Hthrown].
  - destruct (Hret seed (length l * k)%nat) as (b & seed' & Hb & _ & _ & Hseed').
    { by replace (k + length l * k)%nat with (length (a :: l) * k)%nat
        by (simpl; lia). }
    rewrite (bind_returned _ _ _ _ _ Hb). apply bind_thrown, IH; [| |done].
    + intros a' Ha'. apply Hf. by right.
    + apply Exists_cons in Hex as [Ha|Hex]; [|done].
      rewrite Ha in Hb. discriminate.
  - by apply bind_thrown.
Qed.

Lemma params_None (id : string) :
  params id = None <-> id ∈ object_prototype_names.
Proof.
  unfold params. split.
  - repeat case_decide; done.
  - intros Hin. repeat case_decide; try done; subst; exfalso;
      revert Hin; apply (bool_decide_unpack _); vm_compute; exact I.
Qed.

(** While the seed stays below [2^53] in size for the draws to come (at
    most 13 a month for the factors and 3 a month for each asset):
    [generateMockSeries] returns, for assets whose ids are not names
    inherited from [Object.prototype] (or when no month is asked for),
    one series per asset, each with [months] returns, every return
    between -35% and +45%, and the bound on the turns of the loops of
    [randn] does not matter once it is 2.  With such an inherited name
    as the id of an asset and at least one month it throws. *)
Theorem generateMockSeries_shape (fuel : nat) (assets : list Asset)
    (months : nat) (seed : Z) :
  (2 <= fuel)%nat ->
  exact_draws seed (months * (13 + 3 * length assets)) ->
  (months = 0%nat \/
   Forall (fun a => asset_id a ∉ object_prototype_names) assets ->
   exists series,
     generateMockSeries fuel assets months seed
     = Returned (MockSeries months series) /\
     generateMockSeries 2 assets months seed
     = Returned (MockSeries months series) /\
     length series = length assets /\
     Forall (fun out => length out = months /\
                        Forall (fun r => -0.35 <= r <= 0.45) out) series) /\
  ((1 <= months)%nat ->
   Exists (fun a => asset_id a ∈ object_prototype_names) assets ->
   generateMockSeries fuel assets months seed = Thrown).
Proof.
  intros Hfuel Hseed.
  replace (months * (13 + 3 * length assets))%nat
    with (months * 13 + length assets * (months * 3) + 0)%nat in Hseed by lia.
  split.
  - intros Hok.
    assert (Hret : returns (months * 13 + length assets * (months * 3))
              (f ← generateFactors fuel months;
               map_rng (assetSeries fuel months f) assets)
              (f ← generateFactors 2 months;
               map_rng (assetSeries 2 months f) assets)
              (fun series => length series = length assets /\
                 Forall (fun out => length out = months /\
                           Forall (fun r => -0.35 <= r <= 0.45) out) series)).
    { eapply returns_bind; [by apply generateFactors_returns|].
      intros f _. apply returns_map_rng. intros a Ha.
      apply assetSeries_returns; [done|].
      destruct Hok as [->|Hall]; [by left | right].
      rewrite params_None. by apply (proj1 (Forall_forall _ _) Hall). }
    destruct (Hret seed 0%nat Hseed) as (series & seed' & Hs & Hs2 & Hshape & _).
    exists series. unfold generateMockSeries. by rewrite Hs, Hs2.
  - intros Hmonths Hex. unfold generateMockSeries.
    destruct (generateFactors_returns fuel months Hfuel seed
                (length assets * (months * 3))%nat)
      as (f & seed' & Hf & _ & _ & Hseed').
    { by rewrite Nat.add_0_r in Hseed. }
    rewrite (bind_returned _ _ _ _ _ Hf).
    rewrite (map_rng_thrown (months * 3) (assetSeries fuel months f) assets);
      [done | | | done].
    + intros a _. destruct (params (asset_id a)) as [p|] eqn:Hp.
      * left.
        assert (Hr : returns (months * 3) (assetSeries fuel months f a)
                       (assetSeries 2 months f a)
                       (fun out => length out = months /\
                          Forall (fun r => -0.35 <= r <= 0.45) out)).
        { apply assetSeries_returns; [done|]. right. by rewrite Hp. }
        intros seed0 j Hj.
        destruct (Hr seed0 j Hj) as (out & seed1 & Hout & _ & _ & Hj').
        by exists out, seed1.
      * right. intros seed0. unfold assetSeries. rewrite Hp.
        by apply for_loopM_thrown.
    + eapply Exists_impl; [exact Hex|]. intros a Ha seed0.
      apply params_None in Ha. unfold assetSeries. rewrite Ha.
      by apply for_loopM_thrown.
Qed.

Lemma generateMockSeries_shape_witness :
  exists series,
    generateMockSeries 5
      [{| asset_id := "inst_1"; asset_name := "Instrument_1";
          ticker := "Instrument_1" |}] 84 1337
    = Returned (MockSeries 84 series) /\
    generateMockSeries 2
      [{| asset_id := "inst_1"; asset_name := "Instrument_1";
          ticker := "Instrument_1" |}] 84 1337
    = Returned (MockSeries 84 series) /\
    length series = 1%nat /\
    Forall (fun out => length out = 84%nat /\
                       Forall (fun r => -0.35 <= r <= 0.45) out) series.
Proof.
  apply (generateMockSeries_shape 5
           [{| asset_id := "inst_1"; asset_name := "Instrument_1";
               ticker := "Instrument_1" |}] 84 1337); [lia | |].
  - split; simpl; lia.
  - right. constructor; [|constructor]. apply (bool_decide_unpack _).
    vm_compute. exact I.
Defined.

(** ** The facts sent for commentary *)

Lemma foldl_Rmax_spec (rest : list R) (x : R) :
  (foldl Rmax x rest = x \/ foldl Rmax x rest ∈ rest) /\
  x <= foldl Rmax x rest /\
  forall y, y ∈ rest -> y <= foldl Rmax x rest.
Proof.
  revert x. induction rest as [|z rest IH]; intros x.
  - simpl. split; [by left|]. split; [lra|]. intros y Hy. by apply elem_of_nil in Hy.
  - cbn [foldl]. destruct (IH (Rmax x z)) as (Hin & Hle & Hall).
    pose proof (Rmax_l x z). pose proof (Rmax_r x z).
    split; [|split].
    + destruct Hin as [Heq|Hin]; [|right; by right].
      rewrite Heq. unfold Rmax. destruct (Rle_dec x z); [right; by left | by left].
    + lra.
    + intros y [->|Hy]%elem_of_cons; [lra | by apply Hall].
Qed.

Lemma indexOfNumber_first (xs : list R) (x : R) :
  x ∈ xs ->
  exists idx, indexOfNumber xs x = Some idx /\ xs !! idx = Some x /\
    forall j y, (j < idx)%nat -> xs !! j = Some y -> y <> x.
Proof.
  induction xs as [|y xs IH]; intros Hin; [by apply elem_of_nil in Hin|].
  cbn [indexOfNumber]. case_decide as Hy.
  - exists 0%nat. split; [done|]. split; [by subst|]. intros; lia.
  - apply elem_of_cons in Hin as [->|Hin]; [done|].
    destruct (IH Hin) as (idx & -> & Hidx & Hfirst).
    exists (S idx). split; [done|]. split; [done|].
    intros [|j] z Hj Hz; [by injection Hz as <-|].
    apply (Hfirst j); [lia | done].
Qed.

(** The payload names as top asset the first asset that holds the
    largest weight, together with that weight, when there is a weight
    for every asset and at least one; without weights it names none. *)
Theorem concentration_top (assets : list Asset) (weights : list R) :
  (weights <> [] -> (length weights <= length assets)%nat ->
   exists idx a w,
     topWeight (concentrationOf assets weights) = Some w /\
     topAsset (concentrationOf assets weights) = Some (ticker a) /\
     assets !! idx = Some a /\ weights !! idx = Some w /\
     (forall x, x ∈ weights -> x <= w) /\
     (forall j x, (j < idx)%nat -> weights !! j = Some x -> x < w)) /\
  (weights = [] ->
   topWeight (concentrationOf assets weights) = None /\
   topAsset (concentrationOf assets weights) = None).
Proof.
  split; [|by intros ->].
  intros Hne Hlen. destruct weights as [|x rest]; [done|].
  destruct (foldl_Rmax_spec rest x) as (Hin & Hle & Hall).
  assert (Hmax : forall y, y ∈ x :: rest -> y <= foldl Rmax x rest).
  { intros y [->|Hy]%elem_of_cons; [done | by apply Hall]. }
  assert (Hel : foldl Rmax x rest ∈ x :: rest).
  { destruct Hin as [->|Hin]; [by left | by right]. }
  destruct (indexOfNumber_first _ _ Hel) as (idx & Hidx & Hw & Hfirst).
  destruct (lookup_lt_is_Some_2 assets idx) as [a Ha].
  { apply lookup_lt_Some in Hw. lia. }
  exists idx, a, (foldl Rmax x rest).
  unfold concentrationOf. cbn [topWeight topAsset Math_max].
  split; [done|]. split.
  { cbn [mbind option_bind]. rewrite Hidx. cbn [mbind option_bind].
    by rewrite Ha. }
  split; [done|]. split; [done|]. split; [done|].
  intros j y Hj Hy. pose proof (Hfirst j y Hj Hy).
  pose proof (Hmax y (list_elem_of_lookup_2 _ _ _ Hy)). lra.
Qed.

Lemma concentration_top_witness :
  exists idx a w,
    topWeight (concentrationOf
      [{| asset_id := "inst_1"; asset_name := "Instrument_1"; ticker := "Instrument_1" |};
       {| asset_id := "inst_2"; asset_name := "Instrument_2"; ticker := "Instrument_2" |}]
      [0.5; 0.5]) = Some w /\
    topAsset (concentrationOf
      [{| asset_id := "inst_1"; asset_name := "Instrument_1"; ticker := "Instrument_1" |};
       {| asset_id := "inst_2"; asset_name := "Instrument_2"; ticker := "Instrument_2" |}]
      [0.5; 0.5]) = Some (ticker a) /\
    [{| asset_id := "inst_1"; asset_name := "Instrument_1"; ticker := "Instrument_1" |};
     {| asset_id := "inst_2"; asset_name := "Instrument_2"; ticker := "Instrument_2" |}]
      !! idx = Some a /\
    [0.5; 0.5] !! idx = Some w /\
    (forall x, x ∈ [0.5; 0.5] -> x <= w) /\
    (forall j x, (j < idx)%nat -> [0.5; 0.5] !! j = Some x -> x < w).
Proof.
  apply (proj1 (concentration_top
    [{| asset_id := "inst_1"; asset_name := "Instrument_1"; ticker := "Instrument_1" |};
     {| asset_id := "inst_2"; asset_name := "Instrument_2"; ticker := "Instrument_2" |}]
    [0.5; 0.5])).
  - discriminate.
  - simpl. lia.
Defined.

Lemma mapM_total {A B : Type} (f : A -> option B) (g : A -> B) (l : list A) :
  (forall x, x ∈ l -> f x = Some (g x)) -> mapM f l = Some (g <$> l).
Proof.
  intros Hf. apply mapM_Some_2, Forall2_fmap_r, Forall_Forall2_diag, Forall_forall.
  exact Hf.
Qed.

Lemma pairsOfRow_total (assets : list Asset) (corr : list (list R))
    (n i : nat) (row : list R) :
  length assets = n -> length row = n -> corr !! i = Some row ->
  pairsOfRow assets i row
  = Some (pair_of assets corr i <$> seq (i + 1) (n - (i + 1))).
Proof.
  intros Ha Hrow Hi. unfold pairsOfRow.
  rewrite (mapM_total _ (fun jv => pair_of assets corr i (i + jv.1 + 1))).
  - f_equal. apply list_eq. intros k.
    rewrite !list_lookup_fmap, list_lookup_imap, lookup_drop.
    destruct (decide (k < n - (i + 1))%nat) as [Hk|Hk].
    + rewrite lookup_seq_lt by done.
      destruct (lookup_lt_is_Some_2 row (i + 1 + k)) as [v ->]; [lia|].
      simpl. do 2 f_equal. lia.
    + rewrite lookup_seq_ge by lia.
      by rewrite (lookup_ge_None_2 row) by lia.
  - intros jv (j & v & -> & Hv)%elem_of_lookup_imap_1.
    rewrite lookup_drop in Hv. pose proof (lookup_lt_Some _ _ _ Hv) as Hj.
    destruct (lookup_lt_is_Some_2 assets i) as [a Hai]; [lia|].
    destruct (lookup_lt_is_Some_2 assets (i + j + 1)) as [b Hbj]; [lia|].
    cbn [fst snd]. rewrite Hai. cbn [mbind option_bind]. rewrite Hbj.
    cbn [mbind option_bind]. unfold pair_of. rewrite Hai, Hbj. simpl.
    do 2 f_equal. unfold mget. rewrite (nth_lookup_Some _ _ _ _ Hi).
    symmetry. apply nth_lookup_Some. rewrite <- Hv. f_equal. lia.
Qed.

Lemma allPairs_upper (assets : list Asset) (corr : list (list R)) (n : nat) :
  square n corr -> length assets = n ->
  allPairs assets corr = Some (upper_pairs assets corr n).
Proof.
  intros [Hlen Hrows] Ha. unfold allPairs, upper_pairs.
  rewrite (mapM_total _
             (fun ir => pair_of assets corr ir.1 <$> seq (ir.1 + 1) (n - (ir.1 + 1)))).
  - simpl. do 2 f_equal. apply list_eq. intros k.
    rewrite !list_lookup_fmap, list_lookup_imap.
    destruct (decide (k < n)%nat) as [Hk|Hk].
    + rewrite lookup_seq_lt by done.
      destruct (lookup_lt_is_Some_2 corr k) as [row ->]; [lia|]. done.
    + rewrite lookup_seq_ge by lia.
      by rewrite (lookup_ge_None_2 corr) by lia.
  - intros ir (i & row & -> & Hi)%elem_of_lookup_imap_1. cbn [fst snd].
    apply pairsOfRow_total; [done | | done].
    rewrite Forall_forall in Hrows. apply Hrows.
    by eapply list_elem_of_lookup_2.
Qed.

Lemma upper_pairs_elem (assets : list Asset) (corr : list (list R)) (n : nat)
    (p : corrPair) :
  p ∈ upper_pairs assets corr n <->
  exists i j, (i < j < n)%nat /\ p = pair_of assets corr i j.
Proof.
  unfold upper_pairs. rewrite list_elem_of_join. split.
  - intros (l & Hp & Hl). apply list_elem_of_fmap in Hl as (i & -> & Hi).
    apply list_elem_of_fmap in Hp as (j & -> & Hj).
    apply elem_of_seq in Hi, Hj. exists i, j. split; [lia | done].
  - intros (i & j & Hij & ->).
    exists (pair_of assets corr i <$> seq (i + 1) (n - (i + 1))). split.
    + apply list_elem_of_fmap. exists j. split; [done|]. apply elem_of_seq. lia.
    + apply list_elem_of_fmap. exists i. split; [done|]. apply elem_of_seq. lia.
Qed.

Lemma sum_list_snoc (l : list nat) (x : nat) :
  sum_list (l ++ [x]) = (sum_list l + x)%nat.
Proof. induction l as [|y l IH]; simpl; lia. Qed.

Lemma triangle_count (n k : nat) :
  (k <= n)%nat ->
  (2 * sum_list ((fun i => length (seq (i + 1) (n - (i + 1)))) <$> seq 0 k)
   = k * (2 * n - k - 1))%nat.
Proof.
  induction k as [|k IH]; intros Hk; [done|].
  rewrite seq_S, fmap_app, list_fmap_singleton, sum_list_snoc, length_seq.
  specialize (IH ltac:(lia)).
  assert (Hm : exists m, n = (S k + m)%nat) by (exists (n - S k)%nat; lia).
  destruct Hm as [m ->].
  replace (2 * (S k + m) - k - 1)%nat with (S k + 2 * m)%nat in IH by lia.
  replace (S k + m - (0 + k + 1))%nat with m by lia.
  replace (2 * (S k + m) - S k - 1)%nat with (k + 2 * m)%nat by lia.
  rewrite Nat.mul_add_distr_l, IH. ring.
Qed.

Lemma upper_pairs_length (assets : list Asset) (corr : list (list R)) (n : nat) :
  (2 * length (upper_pairs assets corr n) = n * (n - 1))%nat.
Proof.
  unfold upper_pairs. rewrite length_join, <- list_fmap_compose.
  erewrite list_fmap_ext.
  - rewrite (triangle_count n n (le_n n)). f_equal. lia.
  - intros k i _. simpl. by rewrite length_fmap.
Qed.

Lemma insert_by_corr_perm (p : corrPair) (l : list corrPair) :
  insert_by_corr p l ≡ₚ p :: l.
Proof.
  induction l as [|q l IH]; simpl; [done|].
  case_decide; [done|]. rewrite IH. apply Permutation_swap.
Qed.

Lemma sort_by_corr_perm (l : list corrPair) : sort_by_corr l ≡ₚ l.
Proof.
  induction l as [|p l IH]; [done|]. unfold sort_by_corr in *. simpl.
  by rewrite insert_by_corr_perm, IH.
Qed.

Lemma insert_by_corr_sorted (p : corrPair) (l : list corrPair) :
  StronglySorted (fun a b => pair_corr b <= pair_corr a) l ->
  StronglySorted (fun a b => pair_corr b <= pair_corr a) (insert_by_corr p l).
Proof.
  induction 1 as [|q l Hl IH Hq]; simpl; [repeat constructor|].
  case_decide as Hpq.
  - constructor; [by constructor|]. constructor; [lra|].
    eapply Forall_impl; [exact Hq|]. intros r Hr. simpl in *. lra.
  - constructor; [done|].
    rewrite insert_by_corr_perm. constructor; [lra | done].
Qed.

Lemma sort_by_corr_sorted (l : list corrPair) :
  StronglySorted (fun a b => pair_corr b <= pair_corr a) (sort_by_corr l).
Proof.
  induction l as [|p l IH]; [constructor|]. unfold sort_by_corr in *. simpl.
  by apply insert_by_corr_sorted.
Qed.

Lemma StronglySorted_lookup {A : Type} (rel : A -> A -> Prop) (l : list A) :
  StronglySorted rel l ->
  forall i j p q, (i < j)%nat -> l !! i = Some p -> l !! j = Some q -> rel p q.
Proof.
  induction 1 as [|x l Hs IH Hx]; intros i j p q Hij Hi Hj.
  - by rewrite lookup_nil in Hi.
  - destruct j as [|j]; [lia|]. simpl in Hj. destruct i as [|i].
    + injection Hi as ->. rewrite Forall_forall in Hx. apply Hx.
      by eapply list_elem_of_lookup_2.
    + simpl in Hi. apply (IH i j); [lia | done | done].
Qed.

(** For an [n] by [n] correlation matrix and [n] assets the payload
    lists the three largest correlations between two different assets
    (all of them when there are fewer than three pairs), largest first:
    the entries [top] listed and the entries [rest] left out are
    together the [n (n - 1) / 2] pairs [i < j], each with the tickers
    of its two assets and the entry [(i, j)] of the matrix, and no
    entry left out is larger than a listed one. *)
Theorem topCorrelations_largest (assets : list Asset) (corr : list (list R))
    (n : nat) :
  square n corr -> length assets = n ->
  exists top rest,
    topCorrelations assets corr = Some top /\
    length top = Nat.min 3 (length top + length rest) /\
    (2 * (length top + length rest) = n * (n - 1))%nat /\
    (forall p, p ∈ top ++ rest <->
       exists i j a b, (i < j < n)%nat /\
         assets !! i = Some a /\ assets !! j = Some b /\
         p = {| pair_a := ticker a; pair_b := ticker b;
                pair_corr := mget corr i j |}) /\
    (forall i j p q, (i < j)%nat -> top !! i = Some p -> top !! j = Some q ->
       pair_corr q <= pair_corr p) /\
    (forall p q, p ∈ top -> q ∈ rest -> pair_corr q <= pair_corr p).
Proof.
  intros Hsq Ha.
  pose (sorted := sort_by_corr (upper_pairs assets corr n)).
  assert (Hsorted : StronglySorted (fun a b => pair_corr b <= pair_corr a)
                      (take 3 sorted ++ drop 3 sorted)).
  { rewrite take_drop. apply sort_by_corr_sorted. }
  assert (Hlen : (length (take 3 sorted) + length (drop 3 sorted)
                  = length (upper_pairs assets corr n))%nat).
  { rewrite <- length_app, take_drop. unfold sorted.
    by rewrite sort_by_corr_perm. }
  exists (take 3 sorted), (drop 3 sorted).
  split; [|split; [|split; [|split; [|split]]]].
  - unfold topCorrelations. by rewrite (allPairs_upper _ _ n Hsq Ha).
  - rewrite length_take, length_drop. lia.
  - rewrite Hlen. apply upper_pairs_length.
  - intros p. rewrite take_drop. unfold sorted.
    rewrite sort_by_corr_perm, upper_pairs_elem. split.
    + intros (i & j & Hij & ->).
      destruct (lookup_lt_is_Some_2 assets i) as [a Hai]; [lia|].
      destruct (lookup_lt_is_Some_2 assets j) as [b Hbj]; [lia|].
      exists i, j, a, b. split; [done|]. split; [done|]. split; [done|].
      unfold pair_of. by rewrite Hai, Hbj.
    + intros (i & j & a & b & Hij & Hai & Hbj & ->). exists i, j.
      split; [done|]. unfold pair_of. by rewrite Hai, Hbj.
  - apply StronglySorted_app_1_l in Hsorted. intros i j p q.
    apply (StronglySorted_lookup _ _ Hsorted).
  - intros p q Hp Hq.
    apply (StronglySorted_app_1_elem_of _ _ _ p q Hsorted Hp Hq).
Qed.

Lemma topCorrelations_largest_witness :
  exists top rest,
    topCorrelations
      [{| asset_id := "inst_1"; asset_name := "Instrument_1"; ticker := "Instrument_1" |};
       {| asset_id := "inst_2"; asset_name := "Instrument_2"; ticker := "Instrument_2" |}]
      [[1; 0.5]; [0.5; 1]] = Some top /\
    length top = Nat.min 3 (length top + length rest) /\
    (2 * (length top + length rest) = 2 * (2 - 1))%nat /\
    (forall p, p ∈ top ++ rest <->
       exists i j a b, (i < j < 2)%nat /\
         [{| asset_id := "inst_1"; asset_name := "Instrument_1"; ticker := "Instrument_1" |};
          {| asset_id := "inst_2"; asset_name := "Instrument_2"; ticker := "Instrument_2" |}]
           !! i = Some a /\
         [{| asset_id := "inst_1"; asset_name := "Instrument_1"; ticker := "Instrument_1" |};
          {| asset_id := "inst_2"; asset_name := "Instrument_2"; ticker := "Instrument_2" |}]
           !! j = Some b /\
         p = {| pair_a := ticker a; pair_b := ticker b;
                pair_corr := mget [[1; 0.5]; [0.5; 1]] i j |}) /\
    (forall i j p q, (i < j)%nat -> top !! i = Some p -> top !! j = Some q ->
       pair_corr q <= pair_corr p) /\
    (forall p q, p ∈ top -> q ∈ rest -> pair_corr q <= pair_corr p).
Proof.
  apply (topCorrelations_largest
    [{| asset_id := "inst_1"; asset_name := "Instrument_1"; ticker := "Instrument_1" |};
     {| asset_id := "inst_2"; asset_name := "Instrument_2"; ticker := "Instrument_2" |}]
    [[1; 0.5]; [0.5; 1]] 2).
  - split; [reflexivity | repeat constructor].
  - reflexivity.
Defined.

(** ** Cumulative returns for the chart *)

Lemma compound_snoc (l : list R) (r : R) :
  compound (l ++ [r]) = compound l * (1 + r).
Proof.
  induction l as [|x l IH]; cbn [compound foldr app]; [ring|].
  fold (compound (l ++ [r])). fold (compound l). rewrite IH. ring.
Qed.

Lemma compound_take_S (s : list R) (t : nat) :
  compound (take (S t) s) = compound (take t s) * (1 + default 0 (s !! t)).
Proof.
  destruct (s !! t) as [x|] eqn:E.
  - by rewrite (take_S_r _ _ _ E), compound_snoc.
  - apply lookup_ge_None in E. rewrite !take_ge by lia. simpl. ring.
Qed.

Lemma optional_entry (seriesByAsset : list (list R)) (i t : nat) :
  (s ← seriesByAsset !! i; s !! t) = nth i seriesByAsset [] !! t.
Proof.
  rewrite nth_lookup. by destruct (seriesByAsset !! i).
Qed.

Lemma nth_fmap_seq (g : nat -> R) (n i : nat) :
  (i < n)%nat -> nth i (g <$> seq 0 n) 0 = g i.
Proof.
  intros Hi. apply nth_lookup_Some.
  by rewrite list_lookup_fmap, lookup_seq_lt.
Qed.

Lemma cum_loop (f r : nat -> R) (n k : nat) :
  (k <= n)%nat ->
  for_loop k (fun i cum => <[i := nth i cum 0 * (1 + r i)]> cum) (f <$> seq 0 n)
  = (fun i => if decide (i < k)%nat then f i * (1 + r i) else f i) <$> seq 0 n.
Proof.
  induction k as [|k IH]; intros Hk.
  - unfold for_loop. cbn [foldl seq]. apply list_fmap_ext. intros j i _.
    by rewrite decide_False by lia.
  - rewrite for_loop_S, IH by lia. rewrite nth_fmap_seq by lia.
    cbv beta. rewrite decide_False by lia. apply list_eq. intros j.
    destruct (decide (j = k)) as [->|Hne].
    + rewrite list_lookup_insert_eq by (rewrite length_fmap, length_seq; lia).
      rewrite list_lookup_fmap, lookup_seq_lt by lia. simpl.
      by rewrite decide_True by lia.
    + rewrite list_lookup_insert_ne by done. rewrite !list_lookup_fmap.
      destruct (seq 0 n !! j) as [i|] eqn:E; [|done]. simpl.
      apply lookup_seq in E as [-> _]. simpl.
      destruct (decide (j < k)%nat).
      * by rewrite decide_True by lia.
      * by rewrite decide_False by lia.
Qed.

Lemma chartTurn_closed (assets : list Asset) (seriesByAsset : list (list R))
    (t : nat) (rows : list chartRow) :
  chartTurn assets seriesByAsset t
    ((fun i => compound (take t (nth i seriesByAsset []))) <$> seq 0 (length assets),
     rows)
  = ((fun i => compound (take (S t) (nth i seriesByAsset [])))
       <$> seq 0 (length assets),
     rows ++ [cumulative_row assets seriesByAsset (S t)]).
Proof.
  unfold chartTurn.
  rewrite (cum_loop _ (fun i => default 0 (s ← seriesByAsset !! i; s !! t))
             _ _ (le_n _)).
  assert (Hcum : (fun i => if decide (i < length assets)%nat
                    then compound (take t (nth i seriesByAsset []))
                         * (1 + default 0 (s ← seriesByAsset !! i; s !! t))
                    else compound (take t (nth i seriesByAsset [])))
                   <$> seq 0 (length assets)
                 = (fun i => compound (take (S t) (nth i seriesByAsset [])))
                     <$> seq 0 (length assets)).
  { apply list_fmap_ext. intros j i Hi. apply lookup_seq in Hi as [-> Hj].
    simpl in *. rewrite decide_True by done.
    by rewrite compound_take_S, optional_entry. }
  rewrite Hcum. f_equal. f_equal. unfold cumulative_row.
  rewrite Nat.add_1_r. f_equal. f_equal. apply imap_ext. intros i a Hi.
  rewrite nth_fmap_seq; [done|]. by eapply lookup_lt_Some.
Qed.

Lemma chart_loop (assets : list Asset) (seriesByAsset : list (list R)) (T : nat) :
  for_loop T (chartTurn assets seriesByAsset) ((fun _ => 1) <$> assets, [])
  = ((fun i => compound (take T (nth i seriesByAsset [])))
       <$> seq 0 (length assets),
     cumulative_row assets seriesByAsset <$> seq 1 T).
Proof.
  induction T as [|T IH].
  - unfold for_loop. simpl. f_equal. apply list_eq. intros j.
    rewrite !list_lookup_fmap.
    destruct (decide (j < length assets)%nat) as [Hj|Hj].
    + rewrite lookup_seq_lt by done.
      by destruct (lookup_lt_is_Some_2 assets j Hj) as [a ->].
    + rewrite lookup_seq_ge by lia. by rewrite (lookup_ge_None_2 assets) by lia.
  - rewrite for_loop_S, IH, chartTurn_closed. f_equal.
    by rewrite seq_S, fmap_app.
Qed.

Lemma row_writes_cons (row : chartRow) (key : string) (v : R)
    (writes : list (string * R)) :
  row_writes row ((key, v) :: writes) = row_writes (row_set row key v) writes.
Proof. reflexivity. Qed.

(** A key that is not written, or the key [__proto__], holds what it
    held before. *)
Lemma row_writes_lookup_other (row : chartRow) (writes : list (string * R))
    (key : string) :
  key = "__proto__" \/ (forall v, (key, v) ∉ writes) ->
  row_writes row writes !! key = row !! key.
Proof.
  revert row. induction writes as [|[k v] writes IH]; intros row Hkey; [done|].
  rewrite row_writes_cons, IH.
  - unfold row_set. case_decide as Hk; [done|].
    apply lookup_insert_ne. intros ->.
    destruct Hkey as [Hp|Hout]; [done|]. apply (Hout v). by left.
  - destruct Hkey as [Hp|Hout]; [by left | right].
    intros w Hw. apply (Hout w). by right.
Qed.

(** A key holds the value of the last write under it. *)
Lemma row_writes_lookup_last (row : chartRow) (writes : list (string * R))
    (i : nat) (key : string) (v : R) :
  writes !! i = Some (key, v) -> key <> "__proto__" ->
  (forall j w, (i < j)%nat -> writes !! j <> Some (key, w)) ->
  row_writes row writes !! key = Some v.
Proof.
  revert row i. induction writes as [|[k w] writes IH]; intros row i Hi Hp Hlast;
    [by rewrite lookup_nil in Hi|].
  rewrite row_writes_cons. destruct i as [|i].
  - injection Hi as -> ->. rewrite row_writes_lookup_other.
    + unfold row_set. rewrite decide_False by done. apply lookup_insert_eq.
    + right. intros w' Hw'. apply list_elem_of_lookup_1 in Hw' as [j Hj].
      by apply (Hlast (S j) w' ltac:(lia)).
  - apply (IH _ i); [done | done |].
    intros j w' Hj. apply (Hlast (S j) w'). lia.
Qed.

(** A key of the row was there before or was written. *)
Lemma row_writes_lookup_Some (row : chartRow) (writes : list (string * R))
    (key : string) (v : R) :
  row_writes row writes !! key = Some v ->
  row !! key = Some v \/ (key, v) ∈ writes.
Proof.
  revert row. induction writes as [|[k w] writes IH]; intros row H; [by left|].
  rewrite row_writes_cons in H. destruct (IH _ H) as [Hrow|Hin].
  - unfold row_set in Hrow. case_decide; [by left|].
    destruct (decide (k = key)) as [->|Hne].
    + rewrite lookup_insert_eq in Hrow. injection Hrow as ->. right. by left.
    + rewrite lookup_insert_ne in Hrow by done. by left.
  - right. by right.
Qed.

(** The chart data holds the last 60 months, or all [T] months when
    there are fewer, where [T] is the minimum non-zero length of the
    series (0 when all are empty).  The row of month [t] is the object
    [{ t: t }] after the writes, asset by asset, of
    [(1 + r1) * ... * (1 + rt) - 1] over the first [t] returns of the
    asset under its ticker.  So the row holds that value under the
    ticker of an asset when no later asset has the same ticker (and the
    ticker is not [__proto__]), it holds the month under [t] when no
    asset has the ticker [t], and it has no keys besides [t] and the
    tickers. *)
Theorem buildCumulativeChartData_rows (assets : list Asset)
    (seriesByAsset : list (list R)) :
  exists T,
    (min_nonzero_length seriesByAsset T \/
     (Forall (fun s => length s = 0%nat) seriesByAsset /\ T = 0%nat)) /\
    buildCumulativeChartData assets seriesByAsset
    = cumulative_row assets seriesByAsset
        <$> seq (T - Nat.min T 60 + 1) (Nat.min T 60) /\
    forall t,
      (forall i a, assets !! i = Some a -> ticker a <> "__proto__" ->
         (forall j b, (i < j)%nat -> assets !! j = Some b ->
                      ticker b <> ticker a) ->
         cumulative_row assets seriesByAsset t !! ticker a
         = Some (compound (take t (nth i seriesByAsset [])) - 1)) /\
      ((forall a, a ∈ assets -> ticker a <> "t") ->
       cumulative_row assets seriesByAsset t !! "t" = Some (INR t)) /\
      (forall key v, cumulative_row assets seriesByAsset t !! key = Some v ->
         key = "t" \/ exists a, a ∈ assets /\ ticker a = key).
Proof.
  pose (lens := filter (fun x => (x > 0)%nat) (length <$> seriesByAsset)).
  exists (default 0%nat (Math_min lens)). split; [|split].
  - destruct (Math_min lens) as [N|] eqn:HM.
    + left. by apply Math_min_nonzero_length.
    + right. split; [|done]. by apply Math_min_no_positive_length.
  - unfold buildCumulativeChartData. fold lens.
    assert (HT : match lens with
                 | [] => 0%nat
                 | _ => default 0%nat (Math_min lens)
                 end = default 0%nat (Math_min lens)) by by destruct lens.
    rewrite HT. set (T := default 0%nat (Math_min lens)).
    rewrite chart_loop. cbn [snd]. rewrite length_fmap, length_seq.
    unfold slice_from. rewrite decide_False by lia.
    rewrite length_fmap, length_seq.
    replace (Z.to_nat (Z.min (Z.max 0 (Z.of_nat T - 60)) (Z.of_nat T)))
      with (T - 60)%nat by lia.
    rewrite <- fmap_drop, drop_seq. f_equal. f_equal; lia.
  - intros t. unfold cumulative_row. split; [|split].
    + intros i a Ha Hp Hlast. apply (row_writes_lookup_last _ _ i); [|done|].
      * by rewrite list_lookup_imap, Ha.
      * intros j w Hj Hw. apply list_lookup_imap_Some in Hw as (b & Hb & Hw).
        injection Hw as Hw _. by apply (Hlast j b Hj Hb).
    + intros Ht. rewrite row_writes_lookup_other; [apply lookup_singleton_eq|].
      right. intros v (i & a & Hv & Ha)%elem_of_lookup_imap_1.
      injection Hv as Hv _. apply (Ht a); [|done].
      by eapply list_elem_of_lookup_2.
    + intros key v Hkey. apply row_writes_lookup_Some in Hkey as [Hrow|Hin].
      * left. apply lookup_singleton_Some in Hrow as [<- _]. done.
      * right. apply elem_of_lookup_imap_1 in Hin as (i & a & Hv & Ha).
        injection Hv as -> _. exists a. split; [|done].
        by eapply list_elem_of_lookup_2.
Qed.
